(** * Control-flow flattening and bytecode protection (lobfuscate.c)

    A shallow embedding of the transform engine of
    [app/src/main/jni/lua/lobfuscate.c] and [lobfuscate.h], followed by
    the properties stated about it.

    Conventions of the embedding:
    - C [int] and [unsigned int] values are integers in [Z]; unsigned
      arithmetic is reduced modulo [2^32] (or [2^64] for [uint64_t])
      where the source computes it, and a signed product is reduced with
      [int32];
    - C arrays are lists, read with stdpp's lookup and written with
      stdpp's insert; an array and its element count are one list;
    - a function that returns [-1] on failure returns [None];
    - the host allocator ([luaM_malloc_], [luaM_realloc_]) is not part of
      the sources: its verdicts are an oracle, the number of requests
      that will still be granted; the metadata reader's request, whose
      size is read from its input, is also refused when that size is
      zero, which is what the host's allocator answers. *)

From Stdlib Require Import ZArith Lia Bool List.
From stdpp Require Import base option list gmap.

Local Open Scope Z_scope.

(** ** Machine integers *)

Definition uint32 (x : Z) : Z := x mod 2 ^ 32.
Definition uint64 (x : Z) : Z := x mod 2 ^ 64.

(** Two's complement reading of the low 32 bits. *)
Definition int32 (x : Z) : Z := (x + 2 ^ 31) mod 2 ^ 32 - 2 ^ 31.

Definition is_uint32 (x : Z) : Prop := 0 <= x < 2 ^ 32.
Definition is_uint64 (x : Z) : Prop := 0 <= x < 2 ^ 64.
Definition is_int32 (x : Z) : Prop := - 2 ^ 31 <= x < 2 ^ 31.

(** ** Linear congruential generator *)

Definition LCG_A : Z := 1664525.
Definition LCG_C : Z := 1013904223.

(** [NEXT_RAND(seed)] on an [unsigned int]. *)
Definition NEXT_RAND (seed : Z) : Z := uint32 (LCG_A * seed + LCG_C).

(** ** State encoding *)

(** [luaO_encodeState]: [%] is C's truncating remainder ([Z.rem]) on the
    [int] operands, and the modulus on the [unsigned] seed. *)
Definition luaO_encodeState (state seed : Z) : Z :=
  let range := 30000 in
  let prime := 7919 in
  let offset := int32 (uint32 seed mod range) in
  let encoded := Z.rem (Z.rem (int32 (state * prime)) range + offset) range in
  if encoded <? 0 then encoded + range else encoded.

Definition luaO_decodeState (encoded_state seed : Z) : Z := encoded_state.

(** ** The position-dependent cipher of the VM layer *)

(** [x << n] and [x >> n] on [uint64_t]. At [n = 64] C leaves the shift
    undefined; here the value is shifted out entirely. *)
Definition shl64 (x n : Z) : Z := uint64 (Z.shiftl x n).
Definition shr64 (x n : Z) : Z := Z.shiftr x n.

Definition GOLDEN : Z := 0x9E3779B97F4A7C15.

Definition encryptVMInstruction (inst key pc : Z) : Z :=
  let encrypted := inst in
  let encrypted := Z.lxor encrypted key in
  let rotate_amount := Z.rem pc 64 in
  let encrypted :=
    Z.lor (shl64 encrypted rotate_amount) (shr64 encrypted (64 - rotate_amount)) in
  let modified_key := Z.lxor key (uint64 (uint64 pc * GOLDEN)) in
  Z.lxor encrypted modified_key.

Definition decryptVMInstruction (inst key pc : Z) : Z :=
  let decrypted := inst in
  let modified_key := Z.lxor key (uint64 (uint64 pc * GOLDEN)) in
  let decrypted := Z.lxor decrypted modified_key in
  let rotate_amount := Z.rem pc 64 in
  let decrypted :=
    Z.lor (shr64 decrypted rotate_amount) (shl64 decrypted (64 - rotate_amount)) in
  Z.lxor decrypted key.


(** ** Opcodes *)

(** The host's opcode enumeration ([lopcodes.h]) in the order of the
    name table of [getOpName], which indexes it by opcode. *)
Inductive OpCode : Set :=
  | OP_MOVE | OP_LOADI | OP_LOADF | OP_LOADK | OP_LOADKX | OP_LOADFALSE
  | OP_LFALSESKIP | OP_LOADTRUE | OP_LOADNIL | OP_GETUPVAL | OP_SETUPVAL
  | OP_GETTABUP | OP_GETTABLE | OP_GETI | OP_GETFIELD | OP_SETTABUP
  | OP_SETTABLE | OP_SETI | OP_SETFIELD | OP_NEWTABLE | OP_SELF | OP_ADDI
  | OP_ADDK | OP_SUBK | OP_MULK | OP_MODK | OP_POWK | OP_DIVK | OP_IDIVK
  | OP_BANDK | OP_BORK | OP_BXORK | OP_SHLI | OP_SHRI | OP_ADD | OP_SUB
  | OP_MUL | OP_MOD | OP_POW | OP_DIV | OP_IDIV | OP_BAND | OP_BOR | OP_BXOR
  | OP_SHL | OP_SHR | OP_SPACESHIP | OP_MMBIN | OP_MMBINI | OP_MMBINK
  | OP_UNM | OP_BNOT | OP_NOT | OP_LEN | OP_CONCAT | OP_CLOSE | OP_TBC
  | OP_JMP | OP_EQ | OP_LT | OP_LE | OP_EQK | OP_EQI | OP_LTI | OP_LEI
  | OP_GTI | OP_GEI | OP_TEST | OP_TESTSET | OP_CALL | OP_TAILCALL
  | OP_RETURN | OP_RETURN0 | OP_RETURN1 | OP_FORLOOP | OP_FORPREP
  | OP_TFORPREP | OP_TFORCALL | OP_TFORLOOP | OP_SETLIST | OP_CLOSURE
  | OP_VARARG | OP_GETVARG | OP_ERRNNIL | OP_VARARGPREP | OP_IS | OP_TESTNIL
  | OP_NEWCLASS | OP_INHERIT | OP_GETSUPER | OP_SETMETHOD | OP_SETSTATIC
  | OP_NEWOBJ | OP_GETPROP | OP_SETPROP | OP_INSTANCEOF | OP_IMPLEMENT
  | OP_SETIFACEFLAG | OP_ADDMETHOD | OP_SLICE | OP_NOP | OP_EXTRAARG.

#[global] Instance OpCode_eq_dec : EqDecision OpCode.
Proof. solve_decision. Defined.

Definition all_opcodes : list OpCode :=
  [OP_MOVE; OP_LOADI; OP_LOADF; OP_LOADK; OP_LOADKX; OP_LOADFALSE;
   OP_LFALSESKIP; OP_LOADTRUE; OP_LOADNIL; OP_GETUPVAL; OP_SETUPVAL;
   OP_GETTABUP; OP_GETTABLE; OP_GETI; OP_GETFIELD; OP_SETTABUP; OP_SETTABLE;
   OP_SETI; OP_SETFIELD; OP_NEWTABLE; OP_SELF; OP_ADDI; OP_ADDK; OP_SUBK;
   OP_MULK; OP_MODK; OP_POWK; OP_DIVK; OP_IDIVK; OP_BANDK; OP_BORK; OP_BXORK;
   OP_SHLI; OP_SHRI; OP_ADD; OP_SUB; OP_MUL; OP_MOD; OP_POW; OP_DIV; OP_IDIV;
   OP_BAND; OP_BOR; OP_BXOR; OP_SHL; OP_SHR; OP_SPACESHIP; OP_MMBIN;
   OP_MMBINI; OP_MMBINK; OP_UNM; OP_BNOT; OP_NOT; OP_LEN; OP_CONCAT;
   OP_CLOSE; OP_TBC; OP_JMP; OP_EQ; OP_LT; OP_LE; OP_EQK; OP_EQI; OP_LTI;
   OP_LEI; OP_GTI; OP_GEI; OP_TEST; OP_TESTSET; OP_CALL; OP_TAILCALL;
   OP_RETURN; OP_RETURN0; OP_RETURN1; OP_FORLOOP; OP_FORPREP; OP_TFORPREP;
   OP_TFORCALL; OP_TFORLOOP; OP_SETLIST; OP_CLOSURE; OP_VARARG; OP_GETVARG;
   OP_ERRNNIL; OP_VARARGPREP; OP_IS; OP_TESTNIL; OP_NEWCLASS; OP_INHERIT;
   OP_GETSUPER; OP_SETMETHOD; OP_SETSTATIC; OP_NEWOBJ; OP_GETPROP;
   OP_SETPROP; OP_INSTANCEOF; OP_IMPLEMENT; OP_SETIFACEFLAG; OP_ADDMETHOD;
   OP_SLICE; OP_NOP; OP_EXTRAARG].

Definition NUM_OPCODES : Z := Z.of_nat (length all_opcodes).

(** The numeric value of an opcode, as used to index [opcode_map]. *)
Definition opcode_index (op : OpCode) : nat :=
  default 0%nat (list_find (fun o => o = op) all_opcodes ≫= fun p => Some (fst p)).

Definition luaO_isBlockTerminator (op : OpCode) : bool :=
  match op with
  | OP_JMP | OP_EQ | OP_LT | OP_LE | OP_EQK | OP_EQI | OP_LTI | OP_LEI
  | OP_GTI | OP_GEI | OP_TEST | OP_TESTSET | OP_TESTNIL
  | OP_RETURN | OP_RETURN0 | OP_RETURN1 | OP_TAILCALL
  | OP_FORLOOP | OP_FORPREP | OP_TFORPREP | OP_TFORLOOP | OP_TFORCALL => true
  | _ => false
  end.

Definition luaO_isJumpInstruction (op : OpCode) : bool :=
  match op with
  | OP_JMP | OP_FORLOOP | OP_FORPREP | OP_TFORPREP | OP_TFORLOOP => true
  | _ => false
  end.

Definition isConditionalTest (op : OpCode) : bool :=
  match op with
  | OP_EQ | OP_LT | OP_LE | OP_EQK | OP_EQI | OP_LTI | OP_LEI
  | OP_GTI | OP_GEI | OP_TEST | OP_TESTSET | OP_TESTNIL => true
  | _ => false
  end.

Definition isReturnInstruction (op : OpCode) : bool :=
  match op with
  | OP_RETURN | OP_RETURN0 | OP_RETURN1 | OP_TAILCALL => true
  | _ => false
  end.

(** The loop-control opcodes [luaO_flatten] refuses. *)
Definition isLoopControl (op : OpCode) : bool :=
  match op with
  | OP_FORLOOP | OP_FORPREP | OP_TFORPREP | OP_TFORLOOP | OP_TFORCALL => true
  | _ => false
  end.

(** ** Instructions *)

Inductive OpMode : Set := iABC | iABx | iAsBx | iAx | isJ.

(** Modelled from the spec: the host's instruction encoding ([lopcodes.h])
    is missing from the sources. Following the spec's InstructionModel, a
    word is an opcode with operand fields under one addressing mode:
    three small operands (and the [k] bit), one operand and a large
    immediate (read unsigned as [Bx] or, minus its excess, signed as
    [sBx]), one large operand, or one signed relative-jump operand. A
    field holds the raw value given to the constructor macro; a field
    absent from a word's shape reads as [0]. *)
Inductive Instruction : Set :=
  | I_ABCk (op : OpCode) (a b c k : Z)
  | I_ABx (op : OpCode) (a bx : Z)
  | I_Ax (op : OpCode) (ax : Z)
  | I_sJ (op : OpCode) (sj k : Z).

#[global] Instance Instruction_eq_dec : EqDecision Instruction.
Proof. solve_decision. Defined.

(** What the sources take from [lopcodes.h] besides the shapes: the
    excess constants of the signed fields and the opcode-mode table. *)
Class Encoding : Type := {
  OFFSET_sBx : Z;
  OFFSET_sJ : Z;
  OFFSET_sC : Z;
  getOpMode : OpCode -> OpMode
}.

Definition GET_OPCODE (i : Instruction) : OpCode :=
  match i with
  | I_ABCk op _ _ _ _ | I_ABx op _ _ | I_Ax op _ | I_sJ op _ _ => op
  end.

Definition GETARG_A (i : Instruction) : Z :=
  match i with I_ABCk _ a _ _ _ | I_ABx _ a _ => a | _ => 0 end.
Definition GETARG_B (i : Instruction) : Z :=
  match i with I_ABCk _ _ b _ _ => b | _ => 0 end.
Definition GETARG_C (i : Instruction) : Z :=
  match i with I_ABCk _ _ _ c _ => c | _ => 0 end.
Definition GETARG_k (i : Instruction) : Z :=
  match i with I_ABCk _ _ _ _ k | I_sJ _ _ k => k | _ => 0 end.
Definition GETARG_Bx (i : Instruction) : Z :=
  match i with I_ABx _ _ bx => bx | _ => 0 end.
Definition GETARG_Ax (i : Instruction) : Z :=
  match i with I_Ax _ ax => ax | _ => 0 end.

Definition CREATE_ABCk (op : OpCode) (a b c k : Z) : Instruction := I_ABCk op a b c k.
Definition CREATE_ABx (op : OpCode) (a bx : Z) : Instruction := I_ABx op a bx.
Definition CREATE_sJ (op : OpCode) (j k : Z) : Instruction := I_sJ op j k.

Section InstructionFields.
Context `{Encoding}.

Definition GETARG_sBx (i : Instruction) : Z := GETARG_Bx i - OFFSET_sBx.

Definition GETARG_sJ (i : Instruction) : Z :=
  match i with I_sJ _ sj _ => sj - OFFSET_sJ | _ => 0 - OFFSET_sJ end.

Definition SETARG_sJ (i : Instruction) (j : Z) : Instruction :=
  match i with I_sJ op _ k => I_sJ op (j + OFFSET_sJ) k | _ => i end.

Definition int2sC (i : Z) : Z := i + OFFSET_sC.
Definition sC2int (i : Z) : Z := i - OFFSET_sC.

(** [luaO_getJumpTarget] *)
Definition luaO_getJumpTarget (inst : Instruction) (pc : Z) : Z :=
  match GET_OPCODE inst with
  | OP_JMP => pc + 1 + GETARG_sJ inst
  | OP_FORLOOP | OP_TFORLOOP => pc + 1 - GETARG_Bx inst
  | OP_FORPREP | OP_TFORPREP => pc + 1 + GETARG_Bx inst
  | _ => -1
  end.

End InstructionFields.

(** ** Data model *)

Record BasicBlock : Type := {
  start_pc : Z;
  end_pc : Z;
  state_id : Z;
  original_target : Z;
  fall_through : Z;
  cond_target : Z;
  is_entry : Z;
  is_exit : Z
}.

Definition set_state_id (v : Z) (x : BasicBlock) : BasicBlock :=
  {| start_pc := start_pc x; end_pc := end_pc x; state_id := v;
     original_target := original_target x; fall_through := fall_through x;
     cond_target := cond_target x; is_entry := is_entry x;
     is_exit := is_exit x |}.
Definition set_original_target (v : Z) (x : BasicBlock) : BasicBlock :=
  {| start_pc := start_pc x; end_pc := end_pc x; state_id := state_id x;
     original_target := v; fall_through := fall_through x;
     cond_target := cond_target x; is_entry := is_entry x;
     is_exit := is_exit x |}.
Definition set_fall_through (v : Z) (x : BasicBlock) : BasicBlock :=
  {| start_pc := start_pc x; end_pc := end_pc x; state_id := state_id x;
     original_target := original_target x; fall_through := v;
     cond_target := cond_target x; is_entry := is_entry x;
     is_exit := is_exit x |}.
Definition set_cond_target (v : Z) (x : BasicBlock) : BasicBlock :=
  {| start_pc := start_pc x; end_pc := end_pc x; state_id := state_id x;
     original_target := original_target x; fall_through := fall_through x;
     cond_target := v; is_entry := is_entry x; is_exit := is_exit x |}.
Definition set_is_exit (v : Z) (x : BasicBlock) : BasicBlock :=
  {| start_pc := start_pc x; end_pc := end_pc x; state_id := state_id x;
     original_target := original_target x; fall_through := fall_through x;
     cond_target := cond_target x; is_entry := is_entry x; is_exit := v |}.

(** A node of the process-wide VM code list; [vt_proto] is the identity
    (address) of the function it belongs to. *)
Record VMCodeTable : Type := {
  vt_proto : nat;
  vt_code : list Z;
  vt_size : Z;
  vt_capacity : Z;
  vt_encrypt_key : Z;
  vt_reverse_map : list Z;
  vt_seed : Z;
}.

(** The fields of the host's [Proto] that the engine reads or writes;
    [sizecode] is the length of [code], [proto_addr] the object's
    identity. *)
Record Proto : Type := {
  proto_addr : nat;
  code : list Instruction;
  maxstacksize : Z;
  difierline_mode : Z;
  difierline_magicnum : Z;
  difierline_data : Z;
  vm_code_table : option VMCodeTable
}.

Definition set_code (v : list Instruction) (x : Proto) : Proto :=
  {| proto_addr := proto_addr x; code := v; maxstacksize := maxstacksize x;
     difierline_mode := difierline_mode x;
     difierline_magicnum := difierline_magicnum x;
     difierline_data := difierline_data x;
     vm_code_table := vm_code_table x |}.
Definition set_maxstacksize (v : Z) (x : Proto) : Proto :=
  {| proto_addr := proto_addr x; code := code x; maxstacksize := v;
     difierline_mode := difierline_mode x;
     difierline_magicnum := difierline_magicnum x;
     difierline_data := difierline_data x;
     vm_code_table := vm_code_table x |}.
Definition set_difierline_mode (v : Z) (x : Proto) : Proto :=
  {| proto_addr := proto_addr x; code := code x;
     maxstacksize := maxstacksize x; difierline_mode := v;
     difierline_magicnum := difierline_magicnum x;
     difierline_data := difierline_data x;
     vm_code_table := vm_code_table x |}.
Definition set_difierline_magicnum (v : Z) (x : Proto) : Proto :=
  {| proto_addr := proto_addr x; code := code x;
     maxstacksize := maxstacksize x; difierline_mode := difierline_mode x;
     difierline_magicnum := v; difierline_data := difierline_data x;
     vm_code_table := vm_code_table x |}.
Definition set_difierline_data (v : Z) (x : Proto) : Proto :=
  {| proto_addr := proto_addr x; code := code x;
     maxstacksize := maxstacksize x; difierline_mode := difierline_mode x;
     difierline_magicnum := difierline_magicnum x; difierline_data := v;
     vm_code_table := vm_code_table x |}.
Definition set_vm_code_table (v : option VMCodeTable) (x : Proto) : Proto :=
  {| proto_addr := proto_addr x; code := code x;
     maxstacksize := maxstacksize x; difierline_mode := difierline_mode x;
     difierline_magicnum := difierline_magicnum x;
     difierline_data := difierline_data x; vm_code_table := v |}.

Definition sizecode (p : Proto) : Z := Z.of_nat (length (code p)).

(** The part of [lua_State] and its [global_State] the engine depends
    on: the allocator's oracle ([allocs] requests will still be granted)
    and the VM code list. *)
Record lua_State : Type := {
  allocs : nat;
  vm_code_list : list VMCodeTable
}.

Definition set_allocs (v : nat) (x : lua_State) : lua_State :=
  {| allocs := v; vm_code_list := vm_code_list x |}.
Definition set_vm_code_list (v : list VMCodeTable) (x : lua_State) : lua_State :=
  {| allocs := allocs x; vm_code_list := v |}.

Record CFFContext : Type := {
  ctx_L : lua_State;
  ctx_f : Proto;
  blocks : list BasicBlock;
  block_capacity : Z;
  new_code : list Instruction;
  new_code_capacity : Z;
  state_reg : Z;
  outer_state_reg : Z;
  opaque_reg1 : Z;
  opaque_reg2 : Z;
  func_id_reg : Z;
  dispatcher_pc : Z;
  outer_dispatcher_pc : Z;
  num_groups : Z;
  group_starts : list Z;
  num_fake_funcs : Z;
  seed : Z;
  obfuscate_flags : Z
}.

Definition set_ctx_L (v : lua_State) (x : CFFContext) : CFFContext :=
  {| ctx_L := v; ctx_f := ctx_f x; blocks := blocks x;
     block_capacity := block_capacity x; new_code := new_code x;
     new_code_capacity := new_code_capacity x; state_reg := state_reg x;
     outer_state_reg := outer_state_reg x; opaque_reg1 := opaque_reg1 x;
     opaque_reg2 := opaque_reg2 x; func_id_reg := func_id_reg x;
     dispatcher_pc := dispatcher_pc x;
     outer_dispatcher_pc := outer_dispatcher_pc x;
     num_groups := num_groups x; group_starts := group_starts x;
     num_fake_funcs := num_fake_funcs x; seed := seed x;
     obfuscate_flags := obfuscate_flags x |}.
Definition set_blocks (v : list BasicBlock) (x : CFFContext) : CFFContext :=
  {| ctx_L := ctx_L x; ctx_f := ctx_f x; blocks := v;
     block_capacity := block_capacity x; new_code := new_code x;
     new_code_capacity := new_code_capacity x; state_reg := state_reg x;
     outer_state_reg := outer_state_reg x; opaque_reg1 := opaque_reg1 x;
     opaque_reg2 := opaque_reg2 x; func_id_reg := func_id_reg x;
     dispatcher_pc := dispatcher_pc x;
     outer_dispatcher_pc := outer_dispatcher_pc x;
     num_groups := num_groups x; group_starts := group_starts x;
     num_fake_funcs := num_fake_funcs x; seed := seed x;
     obfuscate_flags := obfuscate_flags x |}.
Definition set_block_capacity (v : Z) (x : CFFContext) : CFFContext :=
  {| ctx_L := ctx_L x; ctx_f := ctx_f x; blocks := blocks x;
     block_capacity := v; new_code := new_code x;
     new_code_capacity := new_code_capacity x; state_reg := state_reg x;
     outer_state_reg := outer_state_reg x; opaque_reg1 := opaque_reg1 x;
     opaque_reg2 := opaque_reg2 x; func_id_reg := func_id_reg x;
     dispatcher_pc := dispatcher_pc x;
     outer_dispatcher_pc := outer_dispatcher_pc x;
     num_groups := num_groups x; group_starts := group_starts x;
     num_fake_funcs := num_fake_funcs x; seed := seed x;
     obfuscate_flags := obfuscate_flags x |}.
Definition set_new_code (v : list Instruction) (x : CFFContext) : CFFContext :=
  {| ctx_L := ctx_L x; ctx_f := ctx_f x; blocks := blocks x;
     block_capacity := block_capacity x; new_code := v;
     new_code_capacity := new_code_capacity x; state_reg := state_reg x;
     outer_state_reg := outer_state_reg x; opaque_reg1 := opaque_reg1 x;
     opaque_reg2 := opaque_reg2 x; func_id_reg := func_id_reg x;
     dispatcher_pc := dispatcher_pc x;
     outer_dispatcher_pc := outer_dispatcher_pc x;
     num_groups := num_groups x; group_starts := group_starts x;
     num_fake_funcs := num_fake_funcs x; seed := seed x;
     obfuscate_flags := obfuscate_flags x |}.
Definition set_new_code_capacity (v : Z) (x : CFFContext) : CFFContext :=
  {| ctx_L := ctx_L x; ctx_f := ctx_f x; blocks := blocks x;
     block_capacity := block_capacity x; new_code := new_code x;
     new_code_capacity := v; state_reg := state_reg x;
     outer_state_reg := outer_state_reg x; opaque_reg1 := opaque_reg1 x;
     opaque_reg2 := opaque_reg2 x; func_id_reg := func_id_reg x;
     dispatcher_pc := dispatcher_pc x;
     outer_dispatcher_pc := outer_dispatcher_pc x;
     num_groups := num_groups x; group_starts := group_starts x;
     num_fake_funcs := num_fake_funcs x; seed := seed x;
     obfuscate_flags := obfuscate_flags x |}.
Definition set_dispatcher_pc (v : Z) (x : CFFContext) : CFFContext :=
  {| ctx_L := ctx_L x; ctx_f := ctx_f x; blocks := blocks x;
     block_capacity := block_capacity x; new_code := new_code x;
     new_code_capacity := new_code_capacity x; state_reg := state_reg x;
     outer_state_reg := outer_state_reg x; opaque_reg1 := opaque_reg1 x;
     opaque_reg2 := opaque_reg2 x; func_id_reg := func_id_reg x;
     dispatcher_pc := v; outer_dispatcher_pc := outer_dispatcher_pc x;
     num_groups := num_groups x; group_starts := group_starts x;
     num_fake_funcs := num_fake_funcs x; seed := seed x;
     obfuscate_flags := obfuscate_flags x |}.
Definition set_outer_dispatcher_pc (v : Z) (x : CFFContext) : CFFContext :=
  {| ctx_L := ctx_L x; ctx_f := ctx_f x; blocks := blocks x;
     block_capacity := block_capacity x; new_code := new_code x;
     new_code_capacity := new_code_capacity x; state_reg := state_reg x;
     outer_state_reg := outer_state_reg x; opaque_reg1 := opaque_reg1 x;
     opaque_reg2 := opaque_reg2 x; func_id_reg := func_id_reg x;
     dispatcher_pc := dispatcher_pc x; outer_dispatcher_pc := v;
     num_groups := num_groups x; group_starts := group_starts x;
     num_fake_funcs := num_fake_funcs x; seed := seed x;
     obfuscate_flags := obfuscate_flags x |}.
Definition set_num_groups (v : Z) (x : CFFContext) : CFFContext :=
  {| ctx_L := ctx_L x; ctx_f := ctx_f x; blocks := blocks x;
     block_capacity := block_capacity x; new_code := new_code x;
     new_code_capacity := new_code_capacity x; state_reg := state_reg x;
     outer_state_reg := outer_state_reg x; opaque_reg1 := opaque_reg1 x;
     opaque_reg2 := opaque_reg2 x; func_id_reg := func_id_reg x;
     dispatcher_pc := dispatcher_pc x;
     outer_dispatcher_pc := outer_dispatcher_pc x; num_groups := v;
     group_starts := group_starts x; num_fake_funcs := num_fake_funcs x;
     seed := seed x; obfuscate_flags := obfuscate_flags x |}.
Definition set_group_starts (v : list Z) (x : CFFContext) : CFFContext :=
  {| ctx_L := ctx_L x; ctx_f := ctx_f x; blocks := blocks x;
     block_capacity := block_capacity x; new_code := new_code x;
     new_code_capacity := new_code_capacity x; state_reg := state_reg x;
     outer_state_reg := outer_state_reg x; opaque_reg1 := opaque_reg1 x;
     opaque_reg2 := opaque_reg2 x; func_id_reg := func_id_reg x;
     dispatcher_pc := dispatcher_pc x;
     outer_dispatcher_pc := outer_dispatcher_pc x;
     num_groups := num_groups x; group_starts := v;
     num_fake_funcs := num_fake_funcs x; seed := seed x;
     obfuscate_flags := obfuscate_flags x |}.
Definition set_num_fake_funcs (v : Z) (x : CFFContext) : CFFContext :=
  {| ctx_L := ctx_L x; ctx_f := ctx_f x; blocks := blocks x;
     block_capacity := block_capacity x; new_code := new_code x;
     new_code_capacity := new_code_capacity x; state_reg := state_reg x;
     outer_state_reg := outer_state_reg x; opaque_reg1 := opaque_reg1 x;
     opaque_reg2 := opaque_reg2 x; func_id_reg := func_id_reg x;
     dispatcher_pc := dispatcher_pc x;
     outer_dispatcher_pc := outer_dispatcher_pc x;
     num_groups := num_groups x; group_starts := group_starts x;
     num_fake_funcs := v; seed := seed x;
     obfuscate_flags := obfuscate_flags x |}.
Definition set_seed (v : Z) (x : CFFContext) : CFFContext :=
  {| ctx_L := ctx_L x; ctx_f := ctx_f x; blocks := blocks x;
     block_capacity := block_capacity x; new_code := new_code x;
     new_code_capacity := new_code_capacity x; state_reg := state_reg x;
     outer_state_reg := outer_state_reg x; opaque_reg1 := opaque_reg1 x;
     opaque_reg2 := opaque_reg2 x; func_id_reg := func_id_reg x;
     dispatcher_pc := dispatcher_pc x;
     outer_dispatcher_pc := outer_dispatcher_pc x;
     num_groups := num_groups x; group_starts := group_starts x;
     num_fake_funcs := num_fake_funcs x; seed := v;
     obfuscate_flags := obfuscate_flags x |}.

Definition num_blocks (ctx : CFFContext) : Z := Z.of_nat (length (blocks ctx)).
Definition new_code_size (ctx : CFFContext) : Z := Z.of_nat (length (new_code ctx)).

Record CFFMetadata : Type := {
  md_enabled : Z;
  md_num_blocks : Z;
  md_state_reg : Z;
  md_dispatcher_pc : Z;
  md_block_mapping : option (list Z);
  md_original_size : Z;
  md_seed : Z;
}.

(** ** Flags and constants *)

Definition OBFUSCATE_NONE : Z := 0.
Definition OBFUSCATE_CFF : Z := 1.
Definition OBFUSCATE_BLOCK_SHUFFLE : Z := 2.
Definition OBFUSCATE_BOGUS_BLOCKS : Z := 4.
Definition OBFUSCATE_STATE_ENCODE : Z := 8.
Definition OBFUSCATE_NESTED_DISPATCHER : Z := 16.
Definition OBFUSCATE_OPAQUE_PREDICATES : Z := 32.
Definition OBFUSCATE_FUNC_INTERLEAVE : Z := 64.
Definition OBFUSCATE_VM_PROTECT : Z := 128.

(** [flags & FLAG] as a C condition. *)
Definition has_flag (flags flag : Z) : bool := negb (Z.land flags flag =? 0).

Definition INITIAL_BLOCK_CAPACITY : Z := 16.
Definition INITIAL_CODE_CAPACITY : Z := 64.
Definition CFF_MAGIC : Z := 0x43464600.
Definition CFF_VERSION : Z := 1.

(** ** Arrays *)

(** [a[i]] for a C array held as a list; [d] stands for the value of an
    out-of-bounds read, which C leaves undefined. *)
Definition at_ {A : Type} (d : A) (l : list A) (i : Z) : A :=
  if i <? 0 then d else default d (l !! Z.to_nat i).

(** [a[i] = v]; nothing is written out of bounds. *)
Definition upd {A : Type} (l : list A) (i : Z) (v : A) : list A :=
  if i <? 0 then l else <[Z.to_nat i := v]> l.

Definition dummy_block : BasicBlock :=
  {| start_pc := 0; end_pc := 0; state_id := 0; original_target := -1;
     fall_through := -1; cond_target := -1; is_entry := 0; is_exit := 0 |}.

Definition dummy_inst : Instruction := I_Ax OP_NOP 0.

(** ** State and failure *)

(** A computation over a state [S] that may fail; the state reached is
    kept on failure, as the C code has already written to it. *)
Definition M (S A : Type) : Type := S -> option A * S.

#[global] Instance M_ret {S} : MRet (M S) := fun A a s => (Some a, s).
#[global] Instance M_bind {S} : MBind (M S) := fun A B k m s =>
  match m s with
  | (Some a, s') => k a s'
  | (None, s') => (None, s')
  end.

Definition failM {S A} : M S A := fun s => (None, s).
Definition getM {S} : M S S := fun s => (Some s, s).
Definition modifyM {S} (g : S -> S) : M S unit := fun s => (Some tt, g s).

Fixpoint foldM {S A B} (body : B -> A -> M S B) (l : list A) (b : B) : M S B :=
  match l with
  | [] => mret b
  | x :: l' => b' ← body b x; foldM body l' b'
  end.

Definition forM {S A} (l : list A) (body : A -> M S unit) : M S unit :=
  foldM (fun _ x => body x) l tt.

(** [luaM_malloc_] and [luaM_realloc_]: granted while the oracle allows. *)
Definition luaM_malloc_ (L : lua_State) : option lua_State :=
  match allocs L with
  | O => None
  | S n => Some (set_allocs n L)
  end.

Definition ctx_alloc : M CFFContext unit := fun ctx =>
  match luaM_malloc_ (ctx_L ctx) with
  | Some L' => (Some tt, set_ctx_L L' ctx)
  | None => (None, ctx)
  end.

(** ** Context *)

Section Engine.
Context `{Encoding}.

(** The field initialisation of [initContext]. *)
Definition new_context (L : lua_State) (f : Proto) (flags sd : Z) : CFFContext :=
  {| ctx_L := L; ctx_f := f; blocks := [];
     block_capacity := INITIAL_BLOCK_CAPACITY;
     new_code := []; new_code_capacity := 0;
     state_reg := maxstacksize f;
     outer_state_reg := maxstacksize f + 1;
     opaque_reg1 := maxstacksize f + 2;
     opaque_reg2 := maxstacksize f + 3;
     func_id_reg := maxstacksize f + 4;
     dispatcher_pc := 0; outer_dispatcher_pc := 0;
     num_groups := 0; group_starts := [];
     num_fake_funcs := 0; seed := sd;
     obfuscate_flags := flags |}.

(** [initContext]: two allocations, the context and its block array. *)
Definition initContext (L : lua_State) (f : Proto) (flags sd : Z)
  : option CFFContext * lua_State :=
  match luaM_malloc_ L with
  | None => (None, L)
  | Some L1 =>
    match luaM_malloc_ L1 with
    | None => (None, L1)
    | Some L2 => (Some (new_context L2 f flags sd), L2)
    end
  end.

(** [freeContext] gives the buffers back; what remains is the state. *)
Definition freeContext (ctx : CFFContext) : lua_State := ctx_L ctx.

(** [addBlock]: grows the array when full, then appends the block. *)
Definition addBlock (start_pc end_pc : Z) : M CFFContext Z :=
  ctx ← getM;
  (if block_capacity ctx <=? num_blocks ctx then
     let new_capacity := block_capacity ctx * 2 in
     ctx_alloc;; modifyM (set_block_capacity new_capacity)
   else mret tt);;
  ctx ← getM;
  let idx := num_blocks ctx in
  let block :=
    {| start_pc := start_pc; end_pc := end_pc; state_id := idx;
       original_target := -1; fall_through := -1; cond_target := -1;
       is_entry := (if start_pc =? 0 then 1 else 0); is_exit := 0 |} in
  modifyM (set_blocks (blocks ctx ++ [block]));;
  mret idx.

Fixpoint find_index_from {A} (p : A -> bool) (l : list A) (i : Z) : Z :=
  match l with
  | [] => -1
  | x :: l' => if p x then i else find_index_from p l' (i + 1)
  end.

Definition findBlockByPC (ctx : CFFContext) (pc : Z) : Z :=
  find_index_from (fun b => (start_pc b <=? pc) && (pc <? end_pc b)) (blocks ctx) 0.

Definition findBlockStartingAt (ctx : CFFContext) (pc : Z) : Z :=
  find_index_from (fun b => start_pc b =? pc) (blocks ctx) 0.

(** ** Block identification *)

(** First pass of [luaO_identifyBlocks], one instruction: the leaders an
    instruction at [pc] marks. *)
Definition mark_leaders_at (code_size : Z) (is_leader : list bool)
    (pc : Z) (inst : Instruction) : list bool :=
  let op := GET_OPCODE inst in
  let is_leader :=
    if luaO_isJumpInstruction op then
      let target := luaO_getJumpTarget inst pc in
      let is_leader :=
        if (0 <=? target) && (target <? code_size)
        then upd is_leader target true else is_leader in
      if (pc + 1 <? code_size) && negb (bool_decide (op = OP_JMP))
      then upd is_leader (pc + 1) true else is_leader
    else is_leader in
  let is_leader :=
    if isConditionalTest op then
      if pc + 2 <? code_size then upd is_leader (pc + 2) true else is_leader
    else is_leader in
  if isReturnInstruction op then
    if pc + 1 <? code_size then upd is_leader (pc + 1) true else is_leader
  else is_leader.

Fixpoint mark_leaders_from (code_size : Z) (is_leader : list bool)
    (pc : Z) (insts : list Instruction) : list bool :=
  match insts with
  | [] => is_leader
  | inst :: rest =>
    mark_leaders_from code_size (mark_leaders_at code_size is_leader pc inst)
      (pc + 1) rest
  end.

Definition mark_leaders (code : list Instruction) : list bool :=
  let code_size := Z.of_nat (length code) in
  let is_leader := replicate (length code) false in
  let is_leader := upd is_leader 0 true in
  mark_leaders_from code_size is_leader 0 code.

(** Second pass: a block is closed at every leader and at the end. *)
Definition split_step (code_size : Z) (is_leader : list bool)
    (block_start pc : Z) : M CFFContext Z :=
  if (pc =? code_size) || at_ false is_leader pc then
    addBlock block_start pc;; mret pc
  else mret block_start.

(** Third pass, one block: its exits, from its last instruction. *)
Definition analyze_exit (ctx : CFFContext) (i : Z) : CFFContext :=
  let code_ := code (ctx_f ctx) in
  let code_size := Z.of_nat (length code_) in
  let block := at_ dummy_block (blocks ctx) i in
  let last_pc := end_pc block - 1 in
  if (last_pc <? 0) || (code_size <=? last_pc) then ctx else
  let inst := at_ dummy_inst code_ last_pc in
  let op := GET_OPCODE inst in
  let block := if isReturnInstruction op then set_is_exit 1 block else block in
  let block :=
    if luaO_isJumpInstruction op then
      let target := luaO_getJumpTarget inst last_pc in
      if 0 <=? target then
        let block := set_original_target (findBlockStartingAt ctx target) block in
        if negb (bool_decide (op = OP_JMP))
        then set_fall_through (findBlockStartingAt ctx (end_pc block)) block
        else block
      else block
    else block in
  let block :=
    if isConditionalTest op then
      let skip_target := findBlockStartingAt ctx (last_pc + 2) in
      let block := set_cond_target skip_target block in
      set_fall_through (findBlockStartingAt ctx (end_pc block)) block
    else block in
  let block :=
    if negb (luaO_isBlockTerminator op) && (end_pc block <? code_size)
    then set_fall_through (findBlockStartingAt ctx (end_pc block)) block
    else block in
  set_blocks (upd (blocks ctx) i block) ctx.

Definition luaO_identifyBlocks : M CFFContext unit :=
  ctx ← getM;
  let code_ := code (ctx_f ctx) in
  let code_size := Z.of_nat (length code_) in
  if code_size <=? 0 then failM else
  ctx_alloc;;
  let is_leader := mark_leaders code_ in
  foldM (split_step code_size is_leader) (seqZ 1 code_size) 0;;
  ctx ← getM;
  modifyM (fun ctx => foldl analyze_exit ctx (seqZ 0 (num_blocks ctx))).

(** ** Shuffling *)

(** One iteration of the Fisher-Yates loop of [luaO_shuffleBlocks]. *)
Definition shuffle_step (st : Z * list BasicBlock) (i : Z) : Z * list BasicBlock :=
  let '(seed, bs) := st in
  let seed := NEXT_RAND seed in
  let j := 1 + seed mod i in
  let temp := state_id (at_ dummy_block bs i) in
  let bs := upd bs i (set_state_id (state_id (at_ dummy_block bs j)) (at_ dummy_block bs i)) in
  let bs := upd bs j (set_state_id temp (at_ dummy_block bs j)) in
  (seed, bs).

Definition luaO_shuffleBlocks (ctx : CFFContext) : CFFContext :=
  if num_blocks ctx <=? 2 then ctx else
  let '(seed, bs) :=
    foldl shuffle_step (seed ctx, blocks ctx) (reverse (seqZ 2 (num_blocks ctx - 2))) in
  set_seed seed (set_blocks bs ctx).

(** ** Code emission *)

(** [while (new_capacity < required) new_capacity *= 2] *)
Fixpoint double_until (fuel : nat) (required cap : Z) : Z :=
  match fuel with
  | O => cap
  | S n => if cap <? required then double_until n required (cap * 2) else cap
  end.

Definition ensureCodeCapacity (needed : Z) : M CFFContext unit :=
  ctx ← getM;
  let required := new_code_size ctx + needed in
  if required <=? new_code_capacity ctx then mret tt else
  let new_capacity :=
    if new_code_capacity ctx =? 0 then INITIAL_CODE_CAPACITY
    else new_code_capacity ctx in
  let new_capacity := double_until (Z.to_nat required) required new_capacity in
  ctx_alloc;;
  modifyM (set_new_code_capacity new_capacity).

(** [emitInstruction]: the offset of the appended instruction. *)
Definition emitInstruction (inst : Instruction) : M CFFContext Z :=
  ensureCodeCapacity 1;;
  ctx ← getM;
  let pc := new_code_size ctx in
  modifyM (set_new_code (new_code ctx ++ [inst]));;
  mret pc.

Definition emit_ (inst : Instruction) : M CFFContext unit :=
  emitInstruction inst;; mret tt.

(** [SETARG_sJ(ctx->new_code[pc], offset)] *)
Definition patch_sJ (pc offset : Z) : M CFFContext unit :=
  modifyM (fun ctx =>
    set_new_code
      (upd (new_code ctx) pc (SETARG_sJ (at_ dummy_inst (new_code ctx) pc) offset)) ctx).

(** [LOADI reg, value] and [JMP] to an absolute offset, as the
    generators build them. *)
Definition LOADI_ (reg value : Z) : Instruction :=
  CREATE_ABx OP_LOADI reg (value + OFFSET_sBx).

Definition emit_jmp_to (target : Z) : M CFFContext unit :=
  ctx ← getM;
  let jmp_offset := target - new_code_size ctx - 1 in
  emit_ (CREATE_sJ OP_JMP (jmp_offset + OFFSET_sJ) 0).

Definition encode_if (ctx : CFFContext) (state sd : Z) : Z :=
  if has_flag (obfuscate_flags ctx) OBFUSCATE_STATE_ENCODE
  then luaO_encodeState state sd else state.

(** ** Bogus blocks *)

Definition BOGUS_BLOCK_RATIO : Z := 2.
Definition BOGUS_BLOCK_MIN_INSTS : Z := 3.
Definition BOGUS_BLOCK_MAX_INSTS : Z := 8.
Definition NUM_FAKE_FUNCTIONS : Z := 3.
Definition FAKE_FUNC_BLOCKS : Z := 4.
Definition FAKE_BLOCK_INSTS : Z := 5.

(** [generateBogusInstruction]: the instruction and the advanced seed.
    [seed % max_reg] divides by zero in C when [max_reg = 0]. *)
Definition generateBogusInstruction (ctx : CFFContext) (sd : Z) : Instruction * Z :=
  let max_reg := state_reg ctx in
  let sd := NEXT_RAND sd in
  let inst_type := sd mod 4 in
  let sd := NEXT_RAND sd in
  let reg := int32 (sd mod uint32 max_reg) in
  let reg := if reg <? 0 then 0 else reg in
  let sd := NEXT_RAND sd in
  let value := int32 (sd mod 1000 - 500) in
  if inst_type =? 0 then
    (CREATE_ABx OP_LOADI reg (value + OFFSET_sBx), sd)
  else if inst_type =? 1 then
    (CREATE_ABCk OP_ADDI reg reg (int2sC (Z.rem value 100)) 0, sd)
  else if inst_type =? 2 then
    let sd := NEXT_RAND sd in
    let src_reg := int32 (sd mod uint32 max_reg) in
    let src_reg := if src_reg <? 0 then 0 else src_reg in
    (CREATE_ABCk OP_MOVE reg src_reg 0 0, sd)
  else
    let sd := NEXT_RAND sd in
    (CREATE_ABx OP_LOADI reg (sd mod 2000 + OFFSET_sBx), sd).

Definition emit_bogus_insts (n : Z) (sd : Z) : M CFFContext Z :=
  foldM (fun sd _ =>
           ctx ← getM;
           let '(inst, sd) := generateBogusInstruction ctx sd in
           emit_ inst;; mret sd)
        (seqZ 0 n) sd.

(** [emitBogusBlock]; no function of the engine calls it. *)
Definition emitBogusBlock (bogus_state : Z) (sd : Z) : M CFFContext Z :=
  let sd := NEXT_RAND sd in
  let num_insts :=
    BOGUS_BLOCK_MIN_INSTS
    + sd mod (BOGUS_BLOCK_MAX_INSTS - BOGUS_BLOCK_MIN_INSTS + 1) in
  sd ← emit_bogus_insts num_insts sd;
  let sd := NEXT_RAND sd in
  let next_state := int32 (bogus_state + 1 + sd mod 3) in
  ctx ← getM;
  let next_state := encode_if ctx next_state (seed ctx) in
  emit_ (LOADI_ (state_reg ctx) next_state);;
  emit_jmp_to (dispatcher_pc ctx);;
  mret sd.

(** ** Opaque predicates *)

Inductive OpaquePredicateType : Set := OP_ALWAYS_TRUE | OP_ALWAYS_FALSE.

Definition NUM_OPAQUE_VARIANTS : Z := 4.

Definition emitAlwaysTruePredicate (sd : Z) : M CFFContext Z :=
  ctx ← getM;
  let reg1 := opaque_reg1 ctx in
  let reg2 := opaque_reg2 ctx in
  let sd := NEXT_RAND sd in
  let variant := sd mod NUM_OPAQUE_VARIANTS in
  let sd := NEXT_RAND sd in
  let random_val := int32 (sd mod 1000 - 500) in
  (if variant =? 0 then
     emit_ (LOADI_ reg1 random_val);;
     emit_ (CREATE_ABCk OP_MUL reg2 reg1 reg1 0);;
     emit_ (CREATE_ABCk OP_GEI reg2 (int2sC 0) 0 0)
   else if variant =? 1 then
     emit_ (LOADI_ reg1 random_val);;
     emit_ (CREATE_ABCk OP_ADDI reg2 reg1 (int2sC 0) 0);;
     emit_ (CREATE_ABCk OP_EQ reg2 reg1 0 0)
   else if variant =? 2 then
     emit_ (LOADI_ reg1 random_val);;
     emit_ (CREATE_ABCk OP_SHLI reg2 reg1 (int2sC 1) 0);;
     emit_ (CREATE_ABCk OP_SUB reg2 reg2 reg1 0);;
     emit_ (CREATE_ABCk OP_EQ reg2 reg1 0 0)
   else
     emit_ (LOADI_ reg1 random_val);;
     emit_ (CREATE_ABCk OP_SUB reg2 reg1 reg1 0);;
     emit_ (CREATE_ABCk OP_EQI reg2 (int2sC 0) 0 0));;
  mret sd.

Definition emitAlwaysFalsePredicate (sd : Z) : M CFFContext Z :=
  ctx ← getM;
  let reg1 := opaque_reg1 ctx in
  let reg2 := opaque_reg2 ctx in
  let sd := NEXT_RAND sd in
  let variant := sd mod 3 in
  let sd := NEXT_RAND sd in
  let random_val := int32 (sd mod 1000 - 500) in
  (if variant =? 0 then
     emit_ (LOADI_ reg1 random_val);;
     emit_ (CREATE_ABCk OP_MUL reg2 reg1 reg1 0);;
     emit_ (CREATE_ABCk OP_LTI reg2 (int2sC 0) 0 0)
   else if variant =? 1 then
     emit_ (LOADI_ reg1 random_val);;
     emit_ (CREATE_ABCk OP_SUB reg2 reg1 reg1 0);;
     emit_ (CREATE_ABCk OP_EQI reg2 (int2sC 0) 0 1)
   else
     emit_ (LOADI_ reg1 random_val);;
     emit_ (CREATE_ABCk OP_ADDI reg2 reg1 (int2sC 1) 0);;
     emit_ (CREATE_ABCk OP_EQ reg2 reg1 0 0));;
  mret sd.

(** [luaO_emitOpaquePredicate]: the number of instructions emitted and
    the advanced seed. *)
Definition luaO_emitOpaquePredicate (type : OpaquePredicateType) (sd : Z)
  : M CFFContext (Z * Z) :=
  ctx ← getM;
  let start_size := new_code_size ctx in
  sd ← match type with
         | OP_ALWAYS_TRUE => emitAlwaysTruePredicate sd
         | OP_ALWAYS_FALSE => emitAlwaysFalsePredicate sd
         end;
  ctx ← getM;
  mret (new_code_size ctx - start_size, sd).

(** ** Function interleaving *)

Inductive FakeFuncType : Set :=
  | FAKE_FUNC_CALCULATOR | FAKE_FUNC_STRING_OP | FAKE_FUNC_TABLE_OP | FAKE_FUNC_LOOP.

(** [(FakeFuncType)(func_id % 4)] *)
Definition fake_func_type (func_id : Z) : FakeFuncType :=
  let t := Z.rem func_id 4 in
  if t =? 0 then FAKE_FUNC_CALCULATOR
  else if t =? 1 then FAKE_FUNC_STRING_OP
  else if t =? 2 then FAKE_FUNC_TABLE_OP
  else FAKE_FUNC_LOOP.

Definition fake_inst (reg_base : Z) (func_type : FakeFuncType)
    (block_idx i sd : Z) : Instruction :=
  match func_type with
  | FAKE_FUNC_CALCULATOR =>
    let val := int32 (sd mod 200 - 100) in
    let m := Z.rem i 4 in
    if m =? 0 then LOADI_ reg_base val
    else if m =? 1 then
      CREATE_ABCk OP_ADDI (reg_base + 1) reg_base (int2sC (Z.rem val 50)) 0
    else if m =? 2 then CREATE_ABCk OP_MUL reg_base reg_base (reg_base + 1) 0
    else CREATE_ABCk OP_MMBIN reg_base (reg_base + 1) 14 0
  | FAKE_FUNC_STRING_OP =>
    let m := Z.rem i 3 in
    if m =? 0 then CREATE_ABCk OP_MOVE (reg_base + Z.rem i 2) reg_base 0 0
    else if m =? 1 then CREATE_ABCk OP_LEN reg_base (reg_base + 1) 0 0
    else CREATE_ABx OP_LOADI reg_base (sd mod 100 + OFFSET_sBx)
  | FAKE_FUNC_TABLE_OP =>
    let m := Z.rem i 3 in
    if m =? 0 then CREATE_ABx OP_LOADI reg_base (sd mod 50 + OFFSET_sBx)
    else if m =? 1 then CREATE_ABCk OP_MOVE (reg_base + 1) reg_base 0 0
    else CREATE_ABCk OP_ADD reg_base reg_base (reg_base + 1) 0
  | FAKE_FUNC_LOOP =>
    let m := Z.rem i 4 in
    if m =? 0 then LOADI_ reg_base block_idx
    else if m =? 1 then CREATE_ABCk OP_ADDI reg_base reg_base (int2sC 1) 0
    else if m =? 2 then CREATE_ABCk OP_MMBIN reg_base reg_base 6 0
    else CREATE_ABCk OP_MOVE (reg_base + 1) reg_base 0 0
  end.

Definition emitFakeFunctionBlock (func_type : FakeFuncType) (block_idx : Z)
    (sd : Z) : M CFFContext Z :=
  ctx ← getM;
  let reg_base := opaque_reg1 ctx in
  foldM (fun sd i =>
           let sd := NEXT_RAND sd in
           emit_ (fake_inst reg_base func_type block_idx i sd);;
           mret sd)
        (seqZ 0 FAKE_BLOCK_INSTS) sd.

(** [emitFakeFunction]: the guard of a fake function; the result is
    [*entry_jmp_pc], the offset of its placeholder jump. *)
Definition emitFakeFunction (func_id : Z) : M CFFContext Z :=
  ctx ← getM;
  let encoded_func_id := func_id + 100 in
  let encoded_func_id :=
    encode_if ctx encoded_func_id (Z.lxor (seed ctx) 0xABCDEF00) in
  emit_ (CREATE_ABCk OP_EQI (func_id_reg ctx) (int2sC encoded_func_id) 0 1);;
  emitInstruction (CREATE_sJ OP_JMP 0 0).

(** [emitFakeFunctionBlocks]: patches the guard's jump, then emits the
    blocks of the fake function; the result is the advanced seed. *)
Definition emitFakeFunctionBlocks (func_id : Z) (sd : Z) (entry_jmp_pc : Z)
  : M CFFContext Z :=
  ctx ← getM;
  let num_blocks_ := FAKE_FUNC_BLOCKS in
  let func_type := fake_func_type func_id in
  let first_block_pc := new_code_size ctx in
  let offset := first_block_pc - entry_jmp_pc - 1 in
  patch_sJ entry_jmp_pc offset;;
  foldM (fun sd b =>
           sd ← emitFakeFunctionBlock func_type b sd;
           let sd := NEXT_RAND sd in
           ctx ← getM;
           let '(next_state, sd) :=
             if b <? num_blocks_ - 1 then ((func_id + 100) * 10 + b + 1, sd)
             else let sd := NEXT_RAND sd in
                  (int32 (sd mod uint32 (num_blocks ctx)), sd) in
           let next_state := encode_if ctx next_state (seed ctx) in
           emit_ (LOADI_ (state_reg ctx) next_state);;
           emit_jmp_to (dispatcher_pc ctx);;
           mret sd)
        (seqZ 0 num_blocks_) sd.

(** ** Flat dispatcher *)

(** The state of the first block flagged as entry ([0] if none). *)
Definition entry_state_of (bs : list BasicBlock) : Z :=
  match List.find (fun b => negb (is_entry b =? 0)) bs with
  | Some b => state_id b
  | None => 0
  end.

(** One rung of a comparison ladder: [EQI reg, state, k=1] and a
    placeholder [JMP] whose offset is returned for later patching. *)
Definition emit_state_compare (reg state : Z) : M CFFContext Z :=
  emit_ (CREATE_ABCk OP_EQI reg (int2sC state) 0 1);;
  emitInstruction (CREATE_sJ OP_JMP 0 0).

(** The always-true predicate, the jump over the dead code and the dead
    code, inserted before every fourth comparison of real blocks. *)
Definition emit_opaque_guard (opaque_seed : Z) : M CFFContext Z :=
  '(_, opaque_seed) ← luaO_emitOpaquePredicate OP_ALWAYS_TRUE opaque_seed;
  let dead_code_size := 3 in
  emit_ (CREATE_sJ OP_JMP (dead_code_size + OFFSET_sJ) 0);;
  emit_bogus_insts dead_code_size opaque_seed.

Definition emit_real_compare (st : Z * Z * list Z) (i : Z)
  : M CFFContext (Z * Z * list Z) :=
  let '(opaque_counter, opaque_seed, all_block_jmp_pcs) := st in
  ctx ← getM;
  '(opaque_counter, opaque_seed) ←
    (if has_flag (obfuscate_flags ctx) OBFUSCATE_OPAQUE_PREDICATES
        && (3 <=? opaque_counter)
     then opaque_seed ← emit_opaque_guard opaque_seed; mret (0, opaque_seed)
     else mret (opaque_counter, opaque_seed));
  let opaque_counter := opaque_counter + 1 in
  let state := state_id (at_ dummy_block (blocks ctx) i) in
  let state := encode_if ctx state (seed ctx) in
  jmp_pc ← emit_state_compare (state_reg ctx) state;
  mret (opaque_counter, opaque_seed, upd all_block_jmp_pcs i jmp_pc).

Definition emit_bogus_compare (bogus_states : list Z) (all_block_jmp_pcs : list Z)
    (i : Z) : M CFFContext (list Z) :=
  ctx ← getM;
  let state := at_ 0 bogus_states i in
  let state := encode_if ctx state (seed ctx) in
  jmp_pc ← emit_state_compare (state_reg ctx) state;
  mret (upd all_block_jmp_pcs (num_blocks ctx + i) jmp_pc).

(** How a block ends: [(last_pc, last_op, has_cond_test, cond_test_pc,
    copy_end)] as both generators compute them. *)
Definition block_shape (code_ : list Instruction) (block : BasicBlock)
  : Z * OpCode * bool * Z * Z :=
  let last_pc := end_pc block - 1 in
  let last_op :=
    if start_pc block <=? last_pc
    then GET_OPCODE (at_ dummy_inst code_ last_pc) else OP_NOP in
  let has_cond_test :=
    (start_pc block <=? last_pc)
    && bool_decide (last_op = OP_JMP) && (start_pc block <? last_pc)
    && isConditionalTest (GET_OPCODE (at_ dummy_inst code_ (last_pc - 1))) in
  let cond_test_pc := if has_cond_test then last_pc - 1 else -1 in
  let copy_end :=
    if has_cond_test then cond_test_pc
    else if bool_decide (last_op = OP_JMP) then end_pc block - 1
    else end_pc block in
  (last_pc, last_op, has_cond_test, cond_test_pc, copy_end).

(** [for (pc = lo; pc < hi; pc++) emitInstruction(ctx, f->code[pc])] *)
Definition copy_range (lo hi : Z) : M CFFContext unit :=
  forM (seqZ lo (hi - lo)) (fun pc =>
    ctx ← getM;
    emit_ (at_ dummy_inst (code (ctx_f ctx)) pc)).

Definition state_of_block (ctx : CFFContext) (b : Z) : Z :=
  if 0 <=? b then state_id (at_ dummy_block (blocks ctx) b) else 0.

(** The relocated body of block [i] and its state-transition epilogue. *)
Definition emit_block (all_block_starts : list Z) (i : Z)
  : M CFFContext (list Z) :=
  ctx ← getM;
  let block := at_ dummy_block (blocks ctx) i in
  let all_block_starts := upd all_block_starts i (new_code_size ctx) in
  let code_ := code (ctx_f ctx) in
  let '(last_pc, last_op, has_cond_test, cond_test_pc, copy_end) :=
    block_shape code_ block in
  copy_range (start_pc block) copy_end;;
  (if negb (is_exit block =? 0) then
     if copy_end <? end_pc block then copy_range copy_end (end_pc block)
     else mret tt
   else if has_cond_test then
     let cond_inst := at_ dummy_inst code_ cond_test_pc in
     emit_ cond_inst;;
     let orig_jmp := at_ dummy_inst code_ last_pc in
     let orig_jmp_target := luaO_getJumpTarget orig_jmp last_pc in
     let else_block := findBlockStartingAt ctx orig_jmp_target in
     let then_block := findBlockStartingAt ctx (last_pc + 1) in
     let then_block := if then_block <? 0 then fall_through block else then_block in
     let then_state := state_of_block ctx then_block in
     let else_state := state_of_block ctx else_block in
     let then_state := encode_if ctx then_state (seed ctx) in
     let else_state := encode_if ctx else_state (seed ctx) in
     emit_ (CREATE_sJ OP_JMP (2 + OFFSET_sJ) 0);;
     emit_ (LOADI_ (state_reg ctx) then_state);;
     emit_jmp_to (dispatcher_pc ctx);;
     emit_ (LOADI_ (state_reg ctx) else_state);;
     emit_jmp_to (dispatcher_pc ctx)
   else
     let next_state :=
       if 0 <=? original_target block
       then state_id (at_ dummy_block (blocks ctx) (original_target block))
       else if 0 <=? fall_through block
       then state_id (at_ dummy_block (blocks ctx) (fall_through block))
       else -1 in
     if 0 <=? next_state then
       let next_state := encode_if ctx next_state (seed ctx) in
       emit_ (LOADI_ (state_reg ctx) next_state);;
       emit_jmp_to (dispatcher_pc ctx)
     else mret tt);;
  mret all_block_starts.

(** The back-patching loop: it runs over the real blocks only. *)
Definition backpatch (all_block_jmp_pcs all_block_starts : list Z) (i : Z)
  : M CFFContext unit :=
  let jmp_pc := at_ 0 all_block_jmp_pcs i in
  let target_pc := at_ 0 all_block_starts i in
  let offset := target_pc - jmp_pc - 1 in
  patch_sJ jmp_pc offset.

(** What [luaO_generateDispatcher] keeps in local arrays while it runs:
    the offsets of the placeholder jumps of the blocks (real, then
    bogus), the new start offsets of the real blocks, and the offsets of
    the guards' jumps of the fake functions. A cell never written shows
    as [0]. *)
Record DispatchLog : Type := {
  all_block_jmp_pcs : list Z;
  all_block_starts : list Z;
  fake_func_jmp_pcs : list Z
}.

Definition empty_log : DispatchLog :=
  {| all_block_jmp_pcs := []; all_block_starts := []; fake_func_jmp_pcs := [] |}.

(** [luaO_generateDispatcher], returning its bookkeeping as well. *)
Definition generateDispatcher_log : M CFFContext DispatchLog :=
  ctx ← getM;
  if num_blocks ctx =? 0 then mret empty_log else
  let flags := obfuscate_flags ctx in
  let num_bogus_blocks :=
    if has_flag flags OBFUSCATE_BOGUS_BLOCKS
    then num_blocks ctx * BOGUS_BLOCK_RATIO else 0 in
  let total_blocks := num_blocks ctx + num_bogus_blocks in
  let entry_state := entry_state_of (blocks ctx) in
  let entry_state := encode_if ctx entry_state (seed ctx) in
  emit_ (LOADI_ (state_reg ctx) entry_state);;
  (if has_flag flags OBFUSCATE_FUNC_INTERLEAVE then
     modifyM (set_num_fake_funcs NUM_FAKE_FUNCTIONS);;
     emit_ (LOADI_ (func_id_reg ctx) 0)
   else mret tt);;
  ctx ← getM;
  modifyM (set_dispatcher_pc (new_code_size ctx));;
  ctx_alloc;;
  let jmp_pcs := replicate (Z.to_nat total_blocks) 0 in
  (if 0 <? num_bogus_blocks then ctx_alloc else mret tt);;
  let bogus_states := (fun i => num_blocks ctx + i) <$> seqZ 0 num_bogus_blocks in
  let opaque_seed := Z.lxor (seed ctx) 0xDEADBEEF in
  '(_, _, jmp_pcs) ←
    foldM emit_real_compare (seqZ 0 (num_blocks ctx)) (0, opaque_seed, jmp_pcs);
  jmp_pcs ←
    (if 0 <? num_bogus_blocks
     then foldM (emit_bogus_compare bogus_states) (seqZ 0 num_bogus_blocks) jmp_pcs
     else mret jmp_pcs);
  ctx ← getM;
  fake_pcs ←
    (if has_flag flags OBFUSCATE_FUNC_INTERLEAVE then
       ctx_alloc;;
       foldM (fun pcs f_ => pc ← emitFakeFunction f_; mret (pcs ++ [pc]))
             (seqZ 0 (num_fake_funcs ctx)) []
     else mret []);
  ctx ← getM;
  emit_jmp_to (dispatcher_pc ctx);;
  ctx_alloc;;
  let starts := replicate (Z.to_nat total_blocks) 0 in
  starts ← foldM emit_block (seqZ 0 (num_blocks ctx)) starts;
  forM (seqZ 0 (num_blocks ctx)) (backpatch jmp_pcs starts);;
  ctx ← getM;
  (if has_flag flags OBFUSCATE_FUNC_INTERLEAVE then
     let fake_seed := Z.lxor (seed ctx) 0xFEEDFACE in
     foldM (fun fake_seed f_ =>
              emitFakeFunctionBlocks f_ fake_seed (at_ 0 fake_pcs f_))
           (seqZ 0 (num_fake_funcs ctx)) fake_seed;;
     mret tt
   else mret tt);;
  mret {| all_block_jmp_pcs := jmp_pcs; all_block_starts := starts;
          fake_func_jmp_pcs := fake_pcs |}.

Definition luaO_generateDispatcher : M CFFContext unit :=
  generateDispatcher_log;; mret tt.

(** ** Nested dispatcher *)

Definition NESTED_GROUP_SIZE : Z := 4.

Definition partitionBlocksIntoGroups : M CFFContext unit :=
  ctx ← getM;
  if num_blocks ctx =? 0 then mret tt else
  let n := num_blocks ctx in
  let num_groups_ := Z.quot (n + NESTED_GROUP_SIZE - 1) NESTED_GROUP_SIZE in
  let num_groups_ := if num_groups_ <? 2 then 2 else num_groups_ in
  modifyM (set_num_groups num_groups_);;
  ctx_alloc;;
  let blocks_per_group := Z.quot (n + num_groups_ - 1) num_groups_ in
  let starts :=
    (fun g => if n <? g * blocks_per_group then n else g * blocks_per_group)
      <$> seqZ 0 num_groups_ in
  modifyM (set_group_starts (starts ++ [n])).

Definition findBlockGroup (ctx : CFFContext) (block_idx : Z) : Z :=
  let gs := group_starts ctx in
  match List.find (fun g => (at_ 0 gs g <=? block_idx) && (block_idx <? at_ 0 gs (g + 1)))
                  (seqZ 0 (num_groups ctx)) with
  | Some g => g
  | None => 0
  end.

Definition group_of_block (ctx : CFFContext) (b : Z) : Z :=
  if 0 <=? b then findBlockGroup ctx b else 0.

(** The inner-state seed of the nested mode. *)
Definition inner_seed (ctx : CFFContext) : Z := Z.lxor (seed ctx) 0x12345678.

(** The inner dispatcher of group [g]: patches the outer jump to it, then
    one rung per block of the group and the jump back to the outer
    dispatcher. *)
Definition emit_inner_dispatcher (group_jmp_pcs : list Z)
    (st : list Z * list Z) (g : Z) : M CFFContext (list Z * list Z) :=
  let '(inner_dispatcher_pcs, block_jmp_pcs) := st in
  ctx ← getM;
  let inner_pc := new_code_size ctx in
  let inner_dispatcher_pcs := upd inner_dispatcher_pcs g inner_pc in
  let offset := inner_pc - at_ 0 group_jmp_pcs g - 1 in
  patch_sJ (at_ 0 group_jmp_pcs g) offset;;
  let group_start := at_ 0 (group_starts ctx) g in
  let group_end := at_ 0 (group_starts ctx) (g + 1) in
  block_jmp_pcs ←
    foldM (fun block_jmp_pcs i =>
             let inner_state := state_id (at_ dummy_block (blocks ctx) i) in
             let inner_state := encode_if ctx inner_state (inner_seed ctx) in
             jmp_pc ← emit_state_compare (state_reg ctx) inner_state;
             mret (upd block_jmp_pcs i jmp_pc))
          (seqZ group_start (group_end - group_start)) block_jmp_pcs;
  emit_jmp_to (outer_dispatcher_pc ctx);;
  mret (inner_dispatcher_pcs, block_jmp_pcs).

(** Block [i] in nested mode: the jump to it is patched first; the
    epilogues set both state registers. *)
Definition emit_nested_block (block_jmp_pcs : list Z) (block_starts : list Z)
    (i : Z) : M CFFContext (list Z) :=
  ctx ← getM;
  let block := at_ dummy_block (blocks ctx) i in
  let block_starts := upd block_starts i (new_code_size ctx) in
  let offset := at_ 0 block_starts i - at_ 0 block_jmp_pcs i - 1 in
  patch_sJ (at_ 0 block_jmp_pcs i) offset;;
  let code_ := code (ctx_f ctx) in
  let '(last_pc, last_op, has_cond_test, cond_test_pc, copy_end) :=
    block_shape code_ block in
  copy_range (start_pc block) copy_end;;
  (if negb (is_exit block =? 0) then
     if copy_end <? end_pc block then copy_range copy_end (end_pc block)
     else mret tt
   else if has_cond_test then
     emit_ (at_ dummy_inst code_ cond_test_pc);;
     let orig_jmp := at_ dummy_inst code_ last_pc in
     let orig_jmp_target := luaO_getJumpTarget orig_jmp last_pc in
     let else_block := findBlockStartingAt ctx orig_jmp_target in
     let then_block := findBlockStartingAt ctx (last_pc + 1) in
     let then_block := if then_block <? 0 then fall_through block else then_block in
     let then_group := encode_if ctx (group_of_block ctx then_block) (seed ctx) in
     let else_group := encode_if ctx (group_of_block ctx else_block) (seed ctx) in
     let then_inner := encode_if ctx (state_of_block ctx then_block) (inner_seed ctx) in
     let else_inner := encode_if ctx (state_of_block ctx else_block) (inner_seed ctx) in
     emit_ (CREATE_sJ OP_JMP (3 + OFFSET_sJ) 0);;
     emit_ (LOADI_ (outer_state_reg ctx) then_group);;
     emit_ (LOADI_ (state_reg ctx) then_inner);;
     emit_jmp_to (outer_dispatcher_pc ctx);;
     emit_ (LOADI_ (outer_state_reg ctx) else_group);;
     emit_ (LOADI_ (state_reg ctx) else_inner);;
     emit_jmp_to (outer_dispatcher_pc ctx)
   else
     let next_block :=
       if 0 <=? original_target block then original_target block
       else fall_through block in
     if 0 <=? next_block then
       let next_group := encode_if ctx (findBlockGroup ctx next_block) (seed ctx) in
       let next_inner :=
         encode_if ctx (state_id (at_ dummy_block (blocks ctx) next_block))
                   (inner_seed ctx) in
       emit_ (LOADI_ (outer_state_reg ctx) next_group);;
       emit_ (LOADI_ (state_reg ctx) next_inner);;
       emit_jmp_to (outer_dispatcher_pc ctx)
     else mret tt);;
  mret block_starts.

Definition luaO_generateNestedDispatcher : M CFFContext unit :=
  ctx ← getM;
  if num_blocks ctx =? 0 then mret tt else
  partitionBlocksIntoGroups;;
  ctx ← getM;
  let entry_block :=
    let k := find_index_from (fun b => negb (is_entry b =? 0)) (blocks ctx) 0 in
    if k <? 0 then 0 else k in
  let entry_group := findBlockGroup ctx entry_block in
  let entry_inner_state := state_id (at_ dummy_block (blocks ctx) entry_block) in
  let initial_outer := encode_if ctx entry_group (seed ctx) in
  let initial_inner := encode_if ctx entry_inner_state (inner_seed ctx) in
  emit_ (LOADI_ (outer_state_reg ctx) initial_outer);;
  emit_ (LOADI_ (state_reg ctx) initial_inner);;
  ctx ← getM;
  modifyM (set_outer_dispatcher_pc (new_code_size ctx));;
  ctx_alloc;; ctx_alloc;;
  let groups := seqZ 0 (num_groups ctx) in
  group_jmp_pcs ←
    foldM (fun pcs g =>
             let outer_state := encode_if ctx g (seed ctx) in
             jmp_pc ← emit_state_compare (outer_state_reg ctx) outer_state;
             mret (upd pcs g jmp_pc))
          groups (replicate (Z.to_nat (num_groups ctx)) 0);
  ctx ← getM;
  emit_jmp_to (outer_dispatcher_pc ctx);;
  ctx_alloc;; ctx_alloc;;
  let zeros_g := replicate (Z.to_nat (num_groups ctx)) 0 in
  let zeros_b := replicate (Z.to_nat (num_blocks ctx)) 0 in
  '(_, block_jmp_pcs) ←
    foldM (emit_inner_dispatcher group_jmp_pcs) groups (zeros_g, zeros_b);
  foldM (emit_nested_block block_jmp_pcs) (seqZ 0 (num_blocks ctx)) zeros_b;;
  mret tt.

(** [luaO_createNOP] *)
Definition luaO_createNOP (sd : Z) : Instruction :=
  let r := NEXT_RAND sd in
  let fake_a := Z.shiftr r 16 mod 256 in
  let r := NEXT_RAND r in
  let fake_b := Z.shiftr r 16 mod 256 in
  let r := NEXT_RAND r in
  let fake_c := Z.shiftr r 16 mod 256 in
  CREATE_ABCk OP_NOP fake_a fake_b fake_c 0.

(** ** VM protection layer *)

Definition VM_OP_NOP : Z := 0.
Definition VM_OP_HALT : Z := 46.
Definition VM_OP_COUNT : Z := 47.
Definition VM_CODE_INITIAL_CAPACITY : Z := 128.

(** [VM_MAKE_INST]: the operands are converted to [uint64_t], shifted
    and or-ed together. *)
Definition VM_MAKE_INST (op a b c flags : Z) : Z :=
  Z.lor (Z.lor (Z.lor (Z.lor (shl64 (uint64 op) 56) (shl64 (uint64 a) 40))
                      (shl64 (uint64 b) 24))
               (shl64 (uint64 c) 8))
        (uint64 flags).

Definition VM_GET_OP (inst : Z) : Z := Z.land (Z.shiftr inst 56) 0xFF.
Definition VM_GET_A (inst : Z) : Z := Z.land (Z.shiftr inst 40) 0xFFFF.
Definition VM_GET_B (inst : Z) : Z := Z.land (Z.shiftr inst 24) 0xFFFF.
Definition VM_GET_C (inst : Z) : Z := Z.land (Z.shiftr inst 8) 0xFFFF.
Definition VM_GET_FLAGS (inst : Z) : Z := Z.land inst 0xFF.

Record VMProtectContext : Type := {
  vmc_L : lua_State;
  vmc_f : Proto;
  vm_code : list Z;
  vm_code_capacity : Z;
  encrypt_key : Z;
  opcode_map : list Z;
  reverse_map : list Z;
  vmc_seed : Z
}.

Definition set_vmc_L (v : lua_State) (x : VMProtectContext) : VMProtectContext :=
  {| vmc_L := v; vmc_f := vmc_f x; vm_code := vm_code x;
     vm_code_capacity := vm_code_capacity x; encrypt_key := encrypt_key x;
     opcode_map := opcode_map x; reverse_map := reverse_map x;
     vmc_seed := vmc_seed x |}.
Definition set_vm_code (v : list Z) (x : VMProtectContext) : VMProtectContext :=
  {| vmc_L := vmc_L x; vmc_f := vmc_f x; vm_code := v;
     vm_code_capacity := vm_code_capacity x; encrypt_key := encrypt_key x;
     opcode_map := opcode_map x; reverse_map := reverse_map x;
     vmc_seed := vmc_seed x |}.
Definition set_vm_code_capacity (v : Z) (x : VMProtectContext) : VMProtectContext :=
  {| vmc_L := vmc_L x; vmc_f := vmc_f x; vm_code := vm_code x;
     vm_code_capacity := v; encrypt_key := encrypt_key x;
     opcode_map := opcode_map x; reverse_map := reverse_map x;
     vmc_seed := vmc_seed x |}.

Definition vm_code_size (ctx : VMProtectContext) : Z := Z.of_nat (length (vm_code ctx)).

Definition vmc_alloc : M VMProtectContext unit := fun ctx =>
  match luaM_malloc_ (vmc_L ctx) with
  | Some L' => (Some tt, set_vmc_L L' ctx)
  | None => (None, ctx)
  end.

(** The random opcode map: [opcode_map[i] = r % VM_OP_COUNT] along the
    generator started at [seed ^ 0xDEADBEEF]. *)
Fixpoint random_opcode_map (n : nat) (r : Z) : list Z :=
  match n with
  | O => []
  | S n' => let r := NEXT_RAND r in (r mod VM_OP_COUNT) :: random_opcode_map n' r
  end.

(** [reverse_map[opcode_map[i]] = i] for [i] upwards: a later opcode
    overwrites an earlier one mapped to the same VM opcode. *)
Fixpoint build_reverse_map (rev : list Z) (i : Z) (omap : list Z) : list Z :=
  match omap with
  | [] => rev
  | vm_op :: rest =>
    let rev := if (0 <=? vm_op) && (vm_op <? VM_OP_COUNT) then upd rev vm_op i else rev in
    build_reverse_map rev (i + 1) rest
  end.

(** The key [luaO_initVMContext] derives from the seed: two draws of
    the generator, the first in the high half. *)
Definition vm_encrypt_key (sd : Z) : Z :=
  let r := NEXT_RAND sd in
  let key := shl64 r 32 in
  let r := NEXT_RAND r in
  Z.lor key r.

(** [luaO_initVMContext]: three allocations; the second and third are
    both requested before either is checked. *)
Definition luaO_initVMContext (L : lua_State) (f : Proto) (sd : Z)
  : option VMProtectContext * lua_State :=
  match luaM_malloc_ L with
  | None => (None, L)
  | Some L1 =>
    let key := vm_encrypt_key sd in
    match luaM_malloc_ L1 with
    | None => (None, L1)
    | Some L2 =>
      match luaM_malloc_ L2 with
      | None => (None, L2)
      | Some L3 =>
        let omap := random_opcode_map (Z.to_nat NUM_OPCODES) (Z.lxor sd 0xDEADBEEF) in
        let rev := build_reverse_map (replicate (Z.to_nat VM_OP_COUNT) (-1)) 0 omap in
        (Some {| vmc_L := L3; vmc_f := f; vm_code := []; vm_code_capacity := 0;
                 encrypt_key := key; opcode_map := omap; reverse_map := rev;
                 vmc_seed := sd |}, L3)
      end
    end
  end.

Definition luaO_freeVMContext (ctx : VMProtectContext) : lua_State := vmc_L ctx.

Definition ensureVMCodeCapacity (needed : Z) : M VMProtectContext unit :=
  ctx ← getM;
  let required := vm_code_size ctx + needed in
  if required <=? vm_code_capacity ctx then mret tt else
  let new_capacity :=
    if vm_code_capacity ctx =? 0 then VM_CODE_INITIAL_CAPACITY
    else vm_code_capacity ctx in
  let new_capacity := double_until (Z.to_nat required) required new_capacity in
  vmc_alloc;;
  modifyM (set_vm_code_capacity new_capacity).

Definition emitVMInstruction (inst : Z) : M VMProtectContext Z :=
  ensureVMCodeCapacity 1;;
  ctx ← getM;
  let pc := vm_code_size ctx in
  modifyM (set_vm_code (vm_code ctx ++ [inst]));;
  mret pc.

(** [convertLuaInstToVM] *)
Definition convertLuaInstToVM (inst : Instruction) (pc : Z) : M VMProtectContext unit :=
  ctx ← getM;
  let lua_op := GET_OPCODE inst in
  let vm_op := at_ 0 (opcode_map ctx) (Z.of_nat (opcode_index lua_op)) in
  let vm_op := if vm_op <? 0 then VM_OP_NOP else vm_op in
  let a := GETARG_A inst in
  let '(a, b, c, flags) :=
    match getOpMode lua_op with
    | iABC => (a, GETARG_B inst, GETARG_C inst, GETARG_k inst)
    | iABx => (a, GETARG_Bx inst, 0, 0)
    | iAsBx => (a, GETARG_sBx inst, 0, 0)
    | iAx => (GETARG_Ax inst, 0, 0, 0)
    | isJ => (GETARG_sJ inst, 0, 0, 0)
    end in
  let vm_inst := VM_MAKE_INST vm_op a b c flags in
  let encrypted := encryptVMInstruction vm_inst (encrypt_key ctx) pc in
  emitVMInstruction encrypted;; mret tt.

Fixpoint convert_from (pc : Z) (insts : list Instruction) : M VMProtectContext unit :=
  match insts with
  | [] => mret tt
  | inst :: rest => convertLuaInstToVM inst pc;; convert_from (pc + 1) rest
  end.

(** [luaO_convertToVM]: every instruction, then the encrypted [HALT]. *)
Definition luaO_convertToVM : M VMProtectContext unit :=
  ctx ← getM;
  let f := vmc_f ctx in
  convert_from 0 (code f);;
  let halt := VM_MAKE_INST VM_OP_HALT 0 0 0 0 in
  let encrypted_halt := encryptVMInstruction halt (encrypt_key ctx) (sizecode f) in
  emitVMInstruction encrypted_halt;; mret tt.

(** [luaO_registerVMCode]: three allocations, then the node is pushed on
    the VM code list and recorded in the function. The reverse map is
    copied over [NUM_OPCODES] cells. *)
Definition luaO_registerVMCode (L : lua_State) (p : Proto) (code_ : list Z)
    (key : Z) (reverse_map_ : list Z) (sd : Z)
  : option VMCodeTable * lua_State * Proto :=
  match luaM_malloc_ L with
  | None => (None, L, p)
  | Some L1 =>
    match luaM_malloc_ L1 with
    | None => (None, L1, p)
    | Some L2 =>
      match luaM_malloc_ L2 with
      | None => (None, L2, p)
      | Some L3 =>
        let size := Z.of_nat (length code_) in
        let vt := {| vt_proto := proto_addr p; vt_code := code_; vt_size := size;
                     vt_capacity := size; vt_encrypt_key := key;
                     vt_reverse_map := take (Z.to_nat NUM_OPCODES) reverse_map_;
                     vt_seed := sd |} in
        (Some vt, set_vm_code_list (vt :: vm_code_list L3) L3,
         set_vm_code_table (Some vt) p)
      end
    end
  end.

(** [luaO_findVMCode]: the function's own pointer first, then the list. *)
Definition luaO_findVMCode (L : lua_State) (p : Proto) : option VMCodeTable * Proto :=
  match vm_code_table p with
  | Some vt => (Some vt, p)
  | None =>
    match List.find (fun vt => Nat.eqb (vt_proto vt) (proto_addr p)) (vm_code_list L) with
    | Some vt => (Some vt, set_vm_code_table (Some vt) p)
    | None => (None, p)
    end
  end.

Definition decryptVMInst (encrypted key pc : Z) : Z :=
  let decrypted := encrypted in
  let modified_key := Z.lxor key (uint64 (uint64 pc * GOLDEN)) in
  let decrypted := Z.lxor decrypted modified_key in
  let rotate_amount := Z.rem pc 64 in
  let decrypted :=
    Z.lor (shr64 decrypted rotate_amount) (shl64 decrypted (64 - rotate_amount)) in
  Z.lxor decrypted key.

Definition luaO_executeVM (L : lua_State) (f : Proto) : Z := 0.

(** [luaO_vmProtect]: status, state and function afterwards. *)
Definition luaO_vmProtect (L : lua_State) (f : Proto) (sd : Z) : Z * lua_State * Proto :=
  if sizecode f <? 4 then (0, L, f) else
  match luaO_initVMContext L f sd with
  | (None, L') => (-1, L', f)
  | (Some ctx, _) =>
    match luaO_convertToVM ctx with
    | (None, ctx) => (-1, luaO_freeVMContext ctx, f)
    | (Some _, ctx) =>
      let f := set_difierline_mode (Z.lor (difierline_mode f) OBFUSCATE_VM_PROTECT) f in
      let f :=
        set_difierline_data
          (Z.lor (Z.land (difierline_data f) 0xFFFFFFFF00000000)
                 (Z.land (encrypt_key ctx) 0xFFFFFFFF)) f in
      (0, luaO_freeVMContext ctx, f)
    end
  end.

(** ** The transform *)

(** [luaO_flatten]: status, state and function afterwards. The log file
    is not modelled. The replacement code array is allocated with the
    host's raising allocator, which does not return on failure. *)
Definition luaO_flatten (L : lua_State) (f : Proto) (flags sd : Z)
  : Z * lua_State * Proto :=
  if negb (has_flag flags OBFUSCATE_CFF) then
    if has_flag flags OBFUSCATE_VM_PROTECT
    then luaO_vmProtect L f (Z.lxor sd 0xFEDCBA98)
    else (0, L, f)
  else if sizecode f <? 4 then (0, L, f)
  else if existsb (fun inst => isLoopControl (GET_OPCODE inst)) (code f) then (0, L, f)
  else
    match initContext L f flags sd with
    | (None, L') => (-1, L', f)
    | (Some ctx, _) =>
      match luaO_identifyBlocks ctx with
      | (None, ctx) => (-1, freeContext ctx, f)
      | (Some _, ctx) =>
        if num_blocks ctx <? 2 then (0, freeContext ctx, f) else
        let ctx :=
          if has_flag flags OBFUSCATE_BLOCK_SHUFFLE then luaO_shuffleBlocks ctx else ctx in
        let gen_result :=
          if has_flag flags OBFUSCATE_NESTED_DISPATCHER
          then luaO_generateNestedDispatcher ctx
          else luaO_generateDispatcher ctx in
        match gen_result with
        | (None, ctx) => (-1, freeContext ctx, f)
        | (Some _, ctx) =>
          let f := set_code (new_code ctx) f in
          let max_state_reg := state_reg ctx in
          let max_state_reg :=
            if has_flag flags OBFUSCATE_NESTED_DISPATCHER
               && (max_state_reg <? outer_state_reg ctx)
            then outer_state_reg ctx else max_state_reg in
          let max_state_reg :=
            if has_flag flags OBFUSCATE_OPAQUE_PREDICATES
               && (max_state_reg <? opaque_reg2 ctx)
            then opaque_reg2 ctx else max_state_reg in
          let max_state_reg :=
            if has_flag flags OBFUSCATE_FUNC_INTERLEAVE
               && (max_state_reg <? func_id_reg ctx)
            then func_id_reg ctx else max_state_reg in
          let f :=
            if maxstacksize f <=? max_state_reg
            then set_maxstacksize (max_state_reg + 1) f else f in
          let mode := Z.lor (difierline_mode f) OBFUSCATE_CFF in
          let mode :=
            if has_flag flags OBFUSCATE_NESTED_DISPATCHER
            then Z.lor mode OBFUSCATE_NESTED_DISPATCHER else mode in
          let mode :=
            if has_flag flags OBFUSCATE_OPAQUE_PREDICATES
            then Z.lor mode OBFUSCATE_OPAQUE_PREDICATES else mode in
          let mode :=
            if has_flag flags OBFUSCATE_FUNC_INTERLEAVE
            then Z.lor mode OBFUSCATE_FUNC_INTERLEAVE else mode in
          let f := set_difierline_mode mode f in
          let f := set_difierline_magicnum CFF_MAGIC f in
          let f :=
            set_difierline_data
              (Z.lor (shl64 (uint64 (num_blocks ctx)) 32) (seed ctx)) f in
          let L := freeContext ctx in
          if has_flag flags OBFUSCATE_VM_PROTECT then
            match luaO_vmProtect L f (Z.lxor sd 0xFEDCBA98) with
            | (st, L, f) => if st =? 0 then (0, L, f) else (-1, L, f)
            end
          else (0, L, f)
        end
      end
    end.

End Engine.

(** ** Metadata blob *)

(** Bytes are integers in [0, 256); an [int] occupies four of them, least
    significant first; [size_t] is 64 bits wide. *)
Definition SIZEOF_INT : Z := 4.
Definition SIZEOF_BasicBlock : Z := 32.
Definition HEADER_SIZE : Z := SIZEOF_INT * 4 + SIZEOF_INT.

Definition le_bytes32 (x : Z) : list Z :=
  [x mod 256; (x / 2 ^ 8) mod 256; (x / 2 ^ 16) mod 256; (x / 2 ^ 24) mod 256].

Definition le_word32 (b0 b1 b2 b3 : Z) : Z :=
  b0 + 2 ^ 8 * b1 + 2 ^ 16 * b2 + 2 ^ 24 * b3.

(** The [unsigned int] and the [int] stored at byte offset [off]. *)
Definition read_uint (buffer : list Z) (off : Z) : Z :=
  le_word32 (at_ 0 buffer off) (at_ 0 buffer (off + 1))
            (at_ 0 buffer (off + 2)) (at_ 0 buffer (off + 3)).

Definition read_int (buffer : list Z) (off : Z) : Z := int32 (read_uint buffer off).

(** The image of a [BasicBlock] in memory: its eight [int] fields. *)
Definition block_bytes (b : BasicBlock) : list Z :=
  le_bytes32 (start_pc b) ++ le_bytes32 (end_pc b) ++ le_bytes32 (state_id b)
  ++ le_bytes32 (original_target b) ++ le_bytes32 (fall_through b)
  ++ le_bytes32 (cond_target b) ++ le_bytes32 (is_entry b) ++ le_bytes32 (is_exit b).

Definition metadata_needed (ctx : CFFContext) : Z :=
  uint64 (HEADER_SIZE + uint64 (SIZEOF_BasicBlock * uint64 (num_blocks ctx))).

(** [luaO_serializeMetadata]: [buffer] is [None] for a null pointer; the
    result is the status, the buffer and [*size] afterwards. *)
Definition luaO_serializeMetadata (ctx : CFFContext) (buffer : option (list Z))
    (size : Z) : Z * option (list Z) * Z :=
  let needed := metadata_needed ctx in
  match buffer with
  | None => (0, None, needed)
  | Some buf =>
    if size <? needed then (-1, Some buf, needed) else
    let image :=
      le_bytes32 CFF_MAGIC ++ le_bytes32 CFF_VERSION
      ++ le_bytes32 (num_blocks ctx) ++ le_bytes32 (state_reg ctx)
      ++ le_bytes32 (seed ctx)
      ++ concat (block_bytes <$> blocks ctx) in
    (0, Some (image ++ drop (length image) buf), needed)
  end.

Definition set_md_header (nb sr sd : Z) (m : CFFMetadata) : CFFMetadata :=
  {| md_enabled := md_enabled m; md_num_blocks := nb; md_state_reg := sr;
     md_dispatcher_pc := md_dispatcher_pc m; md_block_mapping := md_block_mapping m;
     md_original_size := md_original_size m; md_seed := sd |}.

Definition set_md_block_mapping (v : option (list Z)) (m : CFFMetadata) : CFFMetadata :=
  {| md_enabled := md_enabled m; md_num_blocks := md_num_blocks m;
     md_state_reg := md_state_reg m; md_dispatcher_pc := md_dispatcher_pc m;
     md_block_mapping := v; md_original_size := md_original_size m;
     md_seed := md_seed m |}.

Definition set_md_enabled (v : Z) (m : CFFMetadata) : CFFMetadata :=
  {| md_enabled := v; md_num_blocks := md_num_blocks m;
     md_state_reg := md_state_reg m; md_dispatcher_pc := md_dispatcher_pc m;
     md_block_mapping := md_block_mapping m; md_original_size := md_original_size m;
     md_seed := md_seed m |}.

(** [luaM_malloc_] on a request of [size] bytes, for a size that comes
    from the data: the host's allocator answers a request of zero bytes
    with a null pointer, and any other one as the oracle allows. *)
Definition luaM_malloc_bytes (L : lua_State) (size : Z) : option lua_State :=
  if size =? 0 then None else luaM_malloc_ L.

(** [luaO_deserializeMetadata]: status, state and [*metadata] afterwards.
    The three header fields are stored before the size implied by the
    header is compared with [size]; the block mapping is requested with
    [sizeof(int) * num_blocks] bytes, computed in [size_t]. *)
Definition luaO_deserializeMetadata (L : lua_State) (buffer : list Z) (size : Z)
    (metadata : CFFMetadata) : Z * lua_State * CFFMetadata :=
  if size <? HEADER_SIZE then (-1, L, metadata) else
  let magic := read_int buffer 0 in
  if negb (magic =? CFF_MAGIC) then (-1, L, metadata) else
  let version := read_int buffer 4 in
  if negb (version =? CFF_VERSION) then (-1, L, metadata) else
  let metadata :=
    set_md_header (read_int buffer 8) (read_int buffer 12) (read_uint buffer 16)
                  metadata in
  let expected_size :=
    uint64 (HEADER_SIZE + uint64 (SIZEOF_BasicBlock * uint64 (md_num_blocks metadata))) in
  if size <? expected_size then (-1, L, metadata) else
  match luaM_malloc_bytes L (uint64 (SIZEOF_INT * uint64 (md_num_blocks metadata))) with
  | None => (-1, L, set_md_block_mapping None metadata)
  | Some L' =>
    let mapping :=
      (fun i => read_int buffer (HEADER_SIZE + SIZEOF_BasicBlock * i))
        <$> seqZ 0 (md_num_blocks metadata) in
    let metadata := set_md_block_mapping (Some mapping) metadata in
    (0, L', set_md_enabled 1 metadata)
  end.

(** [luaO_freeMetadata] *)
Definition luaO_freeMetadata (metadata : CFFMetadata) : CFFMetadata :=
  set_md_enabled 0 (set_md_block_mapping None metadata).

(** [luaO_unflatten] with no metadata supplied ([metadata == NULL]) or
    with some. *)
Definition luaO_unflatten (f : Proto) (metadata : option CFFMetadata) : Z * Proto :=
  if negb (has_flag (difierline_mode f) OBFUSCATE_CFF) then (0, f) else
  match metadata with
  | None =>
    if negb (difierline_magicnum f =? CFF_MAGIC) then (-1, f)
    else (0, set_difierline_mode
               (Z.land (difierline_mode f) (Z.lnot OBFUSCATE_CFF)) f)
  | Some _ => (0, f)
  end.

(** ** Execution of an instruction stream *)

Inductive Value : Set := VNil | VBool (b : bool) | VInt (n : Z).

Record Frame : Type := { pc : Z; regs : list Value }.

Inductive Outcome : Type :=
  | Running (fr : Frame)
  | Returned (results : list Value)
  | Stuck.

Definition truthy (v : Value) : bool :=
  match v with VNil | VBool false => false | _ => true end.

Section Execution.
Context `{Encoding}.

Definition goto (fr : Frame) (target : Z) : Outcome :=
  Running {| pc := target; regs := regs fr |}.

Definition assign (fr : Frame) (r : Z) (v : Value) : Outcome :=
  Running {| pc := pc fr + 1; regs := upd (regs fr) r v |}.

(** [if (cond ~= k) then pc++] *)
Definition cond_skip (fr : Frame) (cond : bool) (k : Z) : Outcome :=
  if bool_decide ((if cond then 1 else 0) = k)
  then goto fr (pc fr + 1) else goto fr (pc fr + 2).

(** Modelled from the spec: the interpreter that executes an instruction
    stream (the host's [lvm.c]) is missing from the sources. The spec and
    the generator's comments fix what the generated code relies on: a
    load of an immediate sets a register ([LOADI]); a jump is relative to
    the instruction after it ([JMP], as in [luaO_getJumpTarget]); a
    conditional test skips the next instruction when its outcome differs
    from [k] ([EQI], [LT], [TEST]: "if (cond ~= k) then pc++"); a
    return-class instruction ends the function with its results. The
    two boolean loads are those of the host's opcode list:
    [LOADTRUE] sets a register to true, [LFALSESKIP] sets it to false
    and skips the next instruction. Every other opcode is outside the
    fragment. *)
Definition step (code_ : list Instruction) (fr : Frame) : Outcome :=
  if (pc fr <? 0) || (Z.of_nat (length code_) <=? pc fr) then Stuck else
  let i := at_ dummy_inst code_ (pc fr) in
  let R := fun r => at_ VNil (regs fr) r in
  match GET_OPCODE i with
  | OP_LOADI => assign fr (GETARG_A i) (VInt (GETARG_sBx i))
  | OP_LOADTRUE => assign fr (GETARG_A i) (VBool true)
  | OP_LFALSESKIP =>
    Running {| pc := pc fr + 2; regs := upd (regs fr) (GETARG_A i) (VBool false) |}
  | OP_JMP => goto fr (pc fr + 1 + GETARG_sJ i)
  | OP_EQI =>
    match R (GETARG_A i) with
    | VInt n => cond_skip fr (n =? sC2int (GETARG_B i)) (GETARG_k i)
    | _ => cond_skip fr false (GETARG_k i)
    end
  | OP_LT =>
    match R (GETARG_A i), R (GETARG_B i) with
    | VInt a, VInt b => cond_skip fr (a <? b) (GETARG_k i)
    | _, _ => Stuck
    end
  | OP_TEST => cond_skip fr (truthy (R (GETARG_A i))) (GETARG_k i)
  | OP_RETURN0 => Returned []
  | OP_RETURN1 => Returned [R (GETARG_A i)]
  | _ => Stuck
  end.

(** At most [fuel] steps. *)
Fixpoint run (fuel : nat) (code_ : list Instruction) (fr : Frame) : Outcome :=
  match fuel with
  | O => Running fr
  | S n =>
    match step code_ fr with
    | Running fr' => run n code_ fr'
    | o => o
    end
  end.

(** A call: execution starts at offset [0] with the arguments in the
    first registers of a frame of [maxstacksize] registers. *)
Definition call (fuel : nat) (f : Proto) (args : list Value) : Outcome :=
  let n := Z.to_nat (maxstacksize f) in
  run fuel (code f) {| pc := 0; regs := take n (args ++ replicate n VNil) |}.

End Execution.

(** ** Worked inputs *)

(** The excess constants and modes of the reference encoding, to run
    the definitions on concrete words. *)
Definition reference_encoding : Encoding :=
  {| OFFSET_sBx := 65535; OFFSET_sJ := 16777215; OFFSET_sC := 127;
     getOpMode := fun op =>
       match op with
       | OP_JMP => isJ
       | OP_LOADI | OP_LOADF => iAsBx
       | OP_LOADK | OP_FORLOOP | OP_FORPREP | OP_TFORPREP | OP_TFORLOOP
       | OP_CLOSURE => iABx
       | OP_EXTRAARG => iAx
       | _ => iABC
       end |}.

Definition fresh_proto (c : list Instruction) (stack : Z) : Proto :=
  {| proto_addr := 1%nat; code := c; maxstacksize := stack;
     difierline_mode := 0; difierline_magicnum := 0; difierline_data := 0;
     vm_code_table := None |}.

Definition ample_state : lua_State := {| allocs := 64; vm_code_list := [] |}.

(** [function (a, b) local x = a < b; return x end] as the host's
    compiler lays it out. *)
Definition less_than_code : list Instruction :=
  [ I_ABCk OP_LT 0 1 0 1;
    I_sJ OP_JMP (1 + 16777215) 0;
    I_ABCk OP_LFALSESKIP 2 0 0 0;
    I_ABCk OP_LOADTRUE 2 0 0 0;
    I_ABCk OP_RETURN1 2 2 0 0;
    I_ABCk OP_RETURN0 0 1 0 0 ].

Definition less_than : Proto := fresh_proto less_than_code 3.

(** A two-way branch on [R0] whose jump is itself the target of a jump
    further down. *)
Definition branch_code : list Instruction :=
  [ I_ABCk OP_TEST 0 0 0 0;
    I_sJ OP_JMP (1 + 16777215) 0;
    I_ABCk OP_RETURN0 0 1 0 0;
    I_ABCk OP_RETURN1 0 2 0 0;
    I_sJ OP_JMP (-4 + 16777215) 0 ].

Definition branch : Proto := fresh_proto branch_code 2.

(** The context [luaO_flatten] works in for [less_than], before and
    after block identification. *)
Definition less_than_ctx : CFFContext :=
  new_context ample_state less_than OBFUSCATE_CFF 42.

Definition less_than_blocks : CFFContext :=
  Eval vm_compute in snd (@luaO_identifyBlocks reference_encoding less_than_ctx).

(** A straight-line function of five instructions. *)
Definition straight_code : list Instruction :=
  [ I_ABx OP_LOADI 0 (1 + 65535);
    I_ABx OP_LOADI 1 (2 + 65535);
    I_ABCk OP_ADD 2 0 1 0;
    I_ABCk OP_MMBIN 0 1 6 0;
    I_ABCk OP_RETURN1 2 2 0 0 ].

Definition straight : Proto := fresh_proto straight_code 3.

Definition blank_metadata : CFFMetadata :=
  {| md_enabled := 0; md_num_blocks := 0; md_state_reg := 0; md_dispatcher_pc := 0;
     md_block_mapping := None; md_original_size := 0; md_seed := 0 |}.

(** A valid header announcing one block, with no block record after it. *)
Definition truncated_blob : list Z :=
  le_bytes32 CFF_MAGIC ++ le_bytes32 CFF_VERSION ++ le_bytes32 1
  ++ le_bytes32 7 ++ le_bytes32 9.

(** The blob of [less_than_ctx], a context that holds no block yet: the
    header, and no block record. *)
Definition block_less_blob : list Z :=
  le_bytes32 CFF_MAGIC ++ le_bytes32 CFF_VERSION ++ le_bytes32 0
  ++ le_bytes32 3 ++ le_bytes32 42.

(** The same header with its magic number spoiled. *)
Definition bad_magic_blob : list Z :=
  le_bytes32 0 ++ le_bytes32 CFF_VERSION ++ le_bytes32 1
  ++ le_bytes32 7 ++ le_bytes32 9.

(** [less_than] with bogus blocks requested, after block identification. *)
Definition less_than_bogus_blocks : CFFContext :=
  Eval vm_compute in
    snd (@luaO_identifyBlocks reference_encoding
           (new_context ample_state less_than
              (Z.lor OBFUSCATE_CFF OBFUSCATE_BOGUS_BLOCKS) 42)).

(** [less_than] and [branch] after [luaO_flatten] with the CFF flag alone. *)
Definition flattened_less_than : Proto :=
  Eval vm_compute in
    snd (@luaO_flatten reference_encoding ample_state less_than OBFUSCATE_CFF 42).

Definition flattened_branch : Proto :=
  Eval vm_compute in
    snd (@luaO_flatten reference_encoding ample_state branch OBFUSCATE_CFF 42).

(** Four returns in a row: four exit blocks and no jump, so that its
    analysis and its dispatcher do not depend on the encoding. *)
Definition four_returns : Proto :=
  fresh_proto [ I_ABCk OP_RETURN0 0 1 0 0; I_ABCk OP_RETURN0 0 1 0 0;
                I_ABCk OP_RETURN0 0 1 0 0; I_ABCk OP_RETURN0 0 1 0 0 ] 2.

(** ** Vocabulary of the properties *)

(** [bs] tiles the half-open range [[lo, hi)]: each block is non-empty,
    starts where the one before it ends, the first at [lo], the last
    ending at [hi]. *)
Fixpoint chained (lo : Z) (bs : list BasicBlock) (hi : Z) : Prop :=
  match bs with
  | [] => lo = hi
  | b :: bs' => start_pc b = lo /\ lo < end_pc b /\ chained (end_pc b) bs' hi
  end.

(** The fields of a block fixed when it is created. *)
Definition extent (b : BasicBlock) : Z * Z * Z * Z :=
  (start_pc b, end_pc b, state_id b, is_entry b).

(** The blocks carry their indices as state ids. *)
Definition indexed (bs : list BasicBlock) : Prop :=
  state_id <$> bs = seqZ 0 (Z.of_nat (length bs)).

(** Whether the jump at offset [pc] of [code_] lands inside [code_]. *)
Definition jump_lands_inside `{Encoding} (code_ : list Instruction) (pc : Z) : bool :=
  let target := luaO_getJumpTarget (at_ dummy_inst code_ pc) pc in
  (0 <=? target) && (target <? Z.of_nat (length code_)).

Definition is_running (o : Outcome) : bool :=
  match o with Running _ => true | _ => false end.

(** The size a blob's header implies: the header and one record per
    announced block, in [size_t] arithmetic. *)
Definition implied_size (buffer : list Z) : Z :=
  uint64 (HEADER_SIZE + uint64 (SIZEOF_BasicBlock * uint64 (read_int buffer 8))).

Definition bad_magic (buffer : list Z) : Prop := read_int buffer 0 <> CFF_MAGIC.
Definition bad_version (buffer : list Z) : Prop := read_int buffer 4 <> CFF_VERSION.

(** What no step of the VM conversion touches: the VM code list, the
    key and the function. *)
Definition vm_same (ctx ctx' : VMProtectContext) : Prop :=
  vm_code_list (vmc_L ctx') = vm_code_list (vmc_L ctx)
  /\ encrypt_key ctx' = encrypt_key ctx
  /\ vmc_f ctx' = vmc_f ctx.

(** ** Notions the properties are stated with *)

(** Everything of a block but its state id. *)
Definition placement (b : BasicBlock) : Z * Z * Z * Z * Z * Z * Z :=
  (start_pc b, end_pc b, original_target b, fall_through b, cond_target b,
   is_entry b, is_exit b).

(** [m] keeps [P]: whatever its outcome, it leads from a state with [P]
    to a state with [P]. *)
Definition keeps {S A : Type} (P : S -> Prop) (m : M S A) : Prop :=
  forall s o s', P s -> m s = (o, s') -> P s'.

(** What the analysis fixed and code generation reads: the function, the
    blocks, the registers, the seed and the flags. *)
Definition analysis (ctx : CFFContext)
  : Proto * list BasicBlock * (Z * Z * Z * Z * Z) * Z * Z :=
  (ctx_f ctx, blocks ctx,
   (state_reg ctx, outer_state_reg ctx, opaque_reg1 ctx, opaque_reg2 ctx,
    func_id_reg ctx),
   seed ctx, obfuscate_flags ctx).

(** The code buffer holds the code emitted so far. *)
Definition within_capacity (ctx : CFFContext) : Prop :=
  0 <= new_code_capacity ctx /\ new_code_size ctx <= new_code_capacity ctx.

(** From [ctx] to [ctx'] code was only added: the analysis is the same,
    no memory was given back to the oracle, the VM code list is the
    same, and the opcodes emitted so far are still there, in place. *)
Definition only_appends (ctx ctx' : CFFContext) : Prop :=
  analysis ctx' = analysis ctx
  /\ vm_code_list (ctx_L ctx') = vm_code_list (ctx_L ctx)
  /\ (allocs (ctx_L ctx') <= allocs (ctx_L ctx))%nat
  /\ (GET_OPCODE <$> new_code ctx) `prefix_of` (GET_OPCODE <$> new_code ctx').

(** [less_than] after [luaO_generateNestedDispatcher]. *)
Definition less_than_nested : CFFContext :=
  Eval vm_compute in
    snd (@luaO_generateNestedDispatcher reference_encoding less_than_blocks).

(** A block as [addBlock] makes it: no successor, not an exit. *)
Definition fresh (b : BasicBlock) : Prop :=
  original_target b = -1 /\ fall_through b = -1 /\ cond_target b = -1 /\ is_exit b = 0.

(** Block [i] as the third pass of [luaO_identifyBlocks] leaves it when
    it runs on [ctx]. *)
Definition analyzed `{Encoding} (ctx : CFFContext) (i : Z) : BasicBlock :=
  at_ dummy_block (blocks (analyze_exit ctx i)) i.

(** The offsets an instruction at [pc] makes leaders. *)
Definition leads `{Encoding} (cs : Z) (pc : Z) (inst : Instruction) (t : Z) : Prop :=
  let op := GET_OPCODE inst in
  0 <= t < cs
  /\ (luaO_isJumpInstruction op = true /\ t = luaO_getJumpTarget inst pc
      \/ luaO_isJumpInstruction op = true /\ op <> OP_JMP /\ t = pc + 1
      \/ isConditionalTest op = true /\ t = pc + 2
      \/ isReturnInstruction op = true /\ t = pc + 1).

(** * Properties *)

(** ** Encoder *)

Lemma encodeState_closed_form (state seed : Z) :
  0 <= state < 30000 ->
  luaO_encodeState state seed = (state * 7919 + uint32 seed mod 30000) mod 30000.
Proof.
  intros Hs. unfold luaO_encodeState, int32, uint32.
  assert (Ho : 0 <= (seed mod 2 ^ 32) mod 30000 < 30000) by (apply Z.mod_pos_bound; lia).
  rewrite (Z.mod_small (state * 7919 + 2 ^ 31)) by lia.
  rewrite (Z.mod_small ((seed mod 2 ^ 32) mod 30000 + 2 ^ 31)) by lia.
  replace (state * 7919 + 2 ^ 31 - 2 ^ 31) with (state * 7919) by lia.
  replace ((seed mod 2 ^ 32) mod 30000 + 2 ^ 31 - 2 ^ 31)
    with ((seed mod 2 ^ 32) mod 30000) by lia.
  rewrite (Z.rem_mod_nonneg (state * 7919)) by lia.
  assert (Hm : 0 <= (state * 7919) mod 30000 < 30000) by (apply Z.mod_pos_bound; lia).
  rewrite Z.rem_mod_nonneg by lia.
  rewrite Zplus_mod_idemp_l.
  assert (He : 0 <= (state * 7919 + (seed mod 2 ^ 32) mod 30000) mod 30000 < 30000)
    by (apply Z.mod_pos_bound; lia).
  destruct (Z.ltb_spec ((state * 7919 + (seed mod 2 ^ 32) mod 30000) mod 30000) 0); lia.
Qed.

Lemma affine_mod_cancel (a b o : Z) :
  0 <= a < 30000 -> 0 <= b < 30000 ->
  (a * 7919 + o) mod 30000 = (b * 7919 + o) mod 30000 -> a = b.
Proof.
  intros Ha Hb Heq.
  assert (Hdiv : (30000 | (a - b) * 7919)).
  { apply Z.mod_divide; [lia|].
    replace ((a - b) * 7919) with ((a * 7919 + o) - (b * 7919 + o)) by ring.
    rewrite Zminus_mod, Heq, Z.sub_diag. reflexivity. }
  destruct Hdiv as [q Hq]. lia.
Qed.

(** C2. For a fixed seed the encoder is
    [(state * 7919 + seed mod 30000) mod 30000], lands in [0, 30000), and
    is a bijection of that range: two states with the same code are the
    same state, and every value of the range is the code of a state. *)
Theorem C2_encodeState_bijective (seed s1 s2 : Z) :
  0 <= s1 < 30000 -> 0 <= s2 < 30000 ->
  luaO_encodeState s1 seed = (s1 * 7919 + uint32 seed mod 30000) mod 30000
  /\ 0 <= luaO_encodeState s1 seed < 30000
  /\ (luaO_encodeState s1 seed = luaO_encodeState s2 seed -> s1 = s2)
  /\ (exists state, 0 <= state < 30000 /\ luaO_encodeState state seed = s1).
Proof.
  intros H1 H2. repeat split.
  - apply encodeState_closed_form, H1.
  - rewrite encodeState_closed_form by exact H1. apply Z.mod_pos_bound. lia.
  - rewrite encodeState_closed_form by exact H1. apply Z.mod_pos_bound. lia.
  - rewrite !encodeState_closed_form by assumption.
    apply affine_mod_cancel; assumption.
  - exists (((s1 - uint32 seed mod 30000) * 7679) mod 30000).
    assert (Hr : 0 <= ((s1 - uint32 seed mod 30000) * 7679) mod 30000 < 30000)
      by (apply Z.mod_pos_bound; lia).
    split; [exact Hr|].
    rewrite encodeState_closed_form by exact Hr.
    rewrite <- Zplus_mod_idemp_l, Zmult_mod_idemp_l, Zplus_mod_idemp_l.
    replace ((s1 - uint32 seed mod 30000) * 7679 * 7919 + uint32 seed mod 30000)
      with (s1 + (s1 - uint32 seed mod 30000) * 2027 * 30000) by ring.
    rewrite Z_mod_plus_full. apply Z.mod_small. exact H1.
Qed.

Lemma C2_encodeState_witness :
  (0 <= 17 < 30000 /\ 0 <= 29999 < 30000)
  /\ luaO_encodeState 17 305419896 = 4519
  /\ (luaO_encodeState 17 305419896 = luaO_encodeState 29999 305419896 -> 17 = 29999).
Proof.
  split; [lia|].
  destruct (C2_encodeState_bijective 305419896 17 29999 ltac:(lia) ltac:(lia))
    as (Hf & _ & Hinj & _).
  split; [rewrite Hf; reflexivity | exact Hinj].
Defined.

(** ** Cipher *)

Lemma testbit_uint64 (a i : Z) :
  0 <= i -> Z.testbit (uint64 a) i = (i <? 64) && Z.testbit a i.
Proof.
  intros Hi. unfold uint64. destruct (Z.ltb_spec i 64).
  - rewrite Z.mod_pow2_bits_low by lia. reflexivity.
  - rewrite Z.mod_pow2_bits_high by lia. reflexivity.
Qed.

Lemma testbit_above64 (x i : Z) :
  is_uint64 x -> 64 <= i -> Z.testbit x i = false.
Proof.
  intros Hx Hi. rewrite <- (Z.mod_small x (2 ^ 64)) by exact Hx.
  apply Z.mod_pow2_bits_high. lia.
Qed.

Lemma uint64_fixpoint (x : Z) :
  (forall i, 64 <= i -> Z.testbit x i = false) -> 0 <= x -> is_uint64 x.
Proof.
  intros Hhigh Hx. unfold is_uint64. split; [exact Hx|].
  destruct (Z.eq_dec x 0) as [->|Hne]; [lia|].
  assert (Hlog : Z.log2 x < 64).
  { destruct (Z.lt_ge_cases (Z.log2 x) 64) as [Hlt|Hge]; [exact Hlt|].
    pose proof (Z.bit_log2 x ltac:(lia)) as Hb.
    rewrite Hhigh in Hb by exact Hge. discriminate. }
  apply Z.log2_lt_pow2; lia.
Qed.

Lemma lxor_uint64 (a b : Z) : is_uint64 a -> is_uint64 b -> is_uint64 (Z.lxor a b).
Proof.
  intros Ha Hb. apply uint64_fixpoint.
  - intros i Hi. rewrite Z.lxor_spec, !testbit_above64 by assumption. reflexivity.
  - apply Z.lxor_nonneg. unfold is_uint64 in *. lia.
Qed.

Lemma testbit_rotl (x r i : Z) :
  is_uint64 x -> 0 <= r < 64 -> 0 <= i ->
  Z.testbit (Z.lor (shl64 x r) (shr64 x (64 - r))) i =
    if i <? 64 then (if r <=? i then Z.testbit x (i - r) else Z.testbit x (i + 64 - r))
    else false.
Proof.
  intros Hx Hr Hi. unfold shl64, shr64.
  rewrite Z.lor_spec, testbit_uint64, Z.shiftl_spec, Z.shiftr_spec by lia.
  replace (i + (64 - r)) with (i + 64 - r) by lia.
  destruct (Z.ltb_spec i 64) as [Hlt|Hge]; cbn [andb].
  - destruct (Z.leb_spec r i) as [Hri|Hri].
    + rewrite (testbit_above64 x (i + 64 - r)) by (assumption || lia).
      apply orb_false_r.
    + rewrite (Z.testbit_neg_r x (i - r)) by lia. reflexivity.
  - apply testbit_above64; [assumption | lia].
Qed.

Lemma rotl_uint64 (x r : Z) :
  is_uint64 x -> 0 <= r < 64 -> is_uint64 (Z.lor (shl64 x r) (shr64 x (64 - r))).
Proof.
  intros Hx Hr. apply uint64_fixpoint.
  - intros i Hi. rewrite testbit_rotl by (assumption || lia).
    destruct (Z.ltb_spec i 64); [lia | reflexivity].
  - apply Z.lor_nonneg. split.
    + unfold shl64, uint64. apply Z.mod_pos_bound. lia.
    + unfold shr64. apply Z.shiftr_nonneg. unfold is_uint64 in Hx. lia.
Qed.

(** Rotating right undoes rotating left by the same amount. *)
Lemma rotr_rotl (x r : Z) :
  is_uint64 x -> 0 <= r < 64 ->
  let y := Z.lor (shl64 x r) (shr64 x (64 - r)) in
  Z.lor (shr64 y r) (shl64 y (64 - r)) = x.
Proof.
  intros Hx Hr y. apply Z.bits_inj'. intros i Hi.
  unfold shr64 at 1. unfold shl64 at 1.
  rewrite Z.lor_spec, Z.shiftr_spec, testbit_uint64 by exact Hi.
  rewrite Z.shiftl_spec by exact Hi.
  subst y.
  rewrite (testbit_rotl x r (i + r)) by (assumption || lia).
  destruct (Z.ltb_spec i 64) as [Hlt|Hge]; cbn [andb].
  - destruct (Z.ltb_spec (i + r) 64) as [Hs|Hs].
    + destruct (Z.leb_spec r (i + r)); [|lia].
      replace (i + r - r) with i by lia.
      destruct (Z.lt_ge_cases (i - (64 - r)) 0) as [Hn|Hn].
      * rewrite (Z.testbit_neg_r _ (i - (64 - r))) by lia. apply orb_false_r.
      * rewrite testbit_rotl by (assumption || lia).
        destruct (Z.ltb_spec (i - (64 - r)) 64); [|lia].
        destruct (Z.leb_spec r (i - (64 - r))); [lia|].
        replace (i - (64 - r) + 64 - r) with i by lia.
        apply orb_diag.
    + rewrite testbit_rotl by (assumption || lia).
      destruct (Z.ltb_spec (i - (64 - r)) 64); [|lia].
      destruct (Z.leb_spec r (i - (64 - r))); [lia|].
      replace (i - (64 - r) + 64 - r) with i by lia. reflexivity.
  - destruct (Z.ltb_spec (i + r) 64); [lia|].
    rewrite orb_false_r. symmetry. apply testbit_above64; assumption.
Qed.

(** C10. For every 64-bit instruction word, every 64-bit key and every
    instruction offset [pc] (a non-negative [int]), decrypting the
    encrypted word with the same key and offset gives the word back. *)
Theorem C10_decrypt_encrypt (inst key pc : Z) :
  is_uint64 inst -> is_uint64 key -> 0 <= pc < 2 ^ 31 ->
  decryptVMInstruction (encryptVMInstruction inst key pc) key pc = inst.
Proof.
  intros Hi Hk Hpc. unfold decryptVMInstruction, encryptVMInstruction. cbv zeta.
  set (mk := Z.lxor key (uint64 (uint64 pc * GOLDEN))).
  rewrite Z.lxor_assoc, Z.lxor_nilpotent, Z.lxor_0_r.
  assert (Hr : 0 <= Z.rem pc 64 < 64).
  { rewrite Z.rem_mod_nonneg by lia. apply Z.mod_pos_bound. lia. }
  rewrite (rotr_rotl (Z.lxor inst key) (Z.rem pc 64) (lxor_uint64 _ _ Hi Hk) Hr).
  rewrite Z.lxor_assoc, Z.lxor_nilpotent. apply Z.lxor_0_r.
Qed.

Lemma C10_decrypt_encrypt_witness :
  (is_uint64 0x0123456789ABCDEF /\ is_uint64 0xFEDCBA9876543210 /\ 0 <= 77 < 2 ^ 31)
  /\ decryptVMInstruction
       (encryptVMInstruction 0x0123456789ABCDEF 0xFEDCBA9876543210 77)
       0xFEDCBA9876543210 77 = 0x0123456789ABCDEF.
Proof.
  assert (H1 : is_uint64 0x0123456789ABCDEF) by (unfold is_uint64; lia).
  assert (H2 : is_uint64 0xFEDCBA9876543210) by (unfold is_uint64; lia).
  assert (H3 : 0 <= 77 < 2 ^ 31) by lia.
  split; [auto|].
  exact (C10_decrypt_encrypt _ _ _ H1 H2 H3).
Defined.

(** ** Arrays *)

Lemma at_lookup {A} (d : A) (l : list A) (i : Z) (x : A) :
  0 <= i -> l !! Z.to_nat i = Some x -> at_ d l i = x.
Proof.
  intros Hi Hl. unfold at_. destruct (Z.ltb_spec i 0); [lia|]. by rewrite Hl.
Qed.

Lemma upd_insert {A} (l : list A) (i : Z) (v : A) :
  0 <= i -> upd l i v = <[Z.to_nat i := v]> l.
Proof. intros Hi. unfold upd. destruct (Z.ltb_spec i 0); [lia|done]. Qed.

Lemma length_upd {A} (l : list A) (i : Z) (v : A) : length (upd l i v) = length l.
Proof. unfold upd. destruct (i <? 0); [done|apply length_insert]. Qed.

(** ** Shuffler *)

Lemma set_state_id_same (b : BasicBlock) : set_state_id (state_id b) b = b.
Proof. by destruct b. Qed.

Lemma shuffle_step_inv (sd : Z) (bs : list BasicBlock) (i : Z) :
  2 <= i < Z.of_nat (length bs) ->
  let bs' := snd (shuffle_step (sd, bs) i) in
  length bs' = length bs
  /\ state_id <$> bs' ≡ₚ state_id <$> bs
  /\ bs' !! 0%nat = bs !! 0%nat.
Proof.
  intros Hi. unfold shuffle_step. cbn [snd].
  set (s := NEXT_RAND sd). set (j := 1 + s mod i).
  assert (Hj : 1 <= j <= i).
  { pose proof (Z.mod_pos_bound s i ltac:(lia)). lia. }
  destruct (lookup_lt_is_Some_2 bs (Z.to_nat i) ltac:(lia)) as [bi Hbi].
  destruct (lookup_lt_is_Some_2 bs (Z.to_nat j) ltac:(lia)) as [bj Hbj].
  rewrite (at_lookup _ bs i bi), (at_lookup _ bs j bj) by (done || lia).
  rewrite (upd_insert bs i) by lia.
  destruct (decide (i = j)) as [Heq|Hne].
  - subst j. rewrite <- Heq in *. simplify_eq.
    rewrite set_state_id_same, list_insert_id by done.
    rewrite (at_lookup _ bs i bi) by (done || lia).
    rewrite upd_insert by lia.
    rewrite set_state_id_same, list_insert_id by done. done.
  - assert (Hnat : Z.to_nat i ≠ Z.to_nat j) by lia.
    rewrite (at_lookup _ _ j bj)
      by (lia || by rewrite list_lookup_insert_ne).
    rewrite upd_insert by lia.
    split; [by rewrite !length_insert|]. split.
    + rewrite !list_fmap_insert. cbn.
      apply Permutation_insert_swap; by rewrite list_lookup_fmap, ?Hbi, ?Hbj.
    + rewrite !list_lookup_insert_ne by lia. done.
Qed.

Lemma shuffle_fold_inv (idx : list Z) (sd : Z) (bs : list BasicBlock) :
  Forall (fun i => 2 <= i < Z.of_nat (length bs)) idx ->
  let bs' := snd (foldl shuffle_step (sd, bs) idx) in
  length bs' = length bs
  /\ state_id <$> bs' ≡ₚ state_id <$> bs
  /\ bs' !! 0%nat = bs !! 0%nat.
Proof.
  revert sd bs. induction idx as [|i idx IH]; intros sd bs Hall; [done|].
  apply Forall_cons in Hall as [Hi Hall]. cbn [foldl].
  destruct (shuffle_step (sd, bs) i) as [sd1 bs1] eqn:Hstep.
  destruct (shuffle_step_inv sd bs i Hi) as (Hlen & Hperm & H0).
  rewrite Hstep in Hlen, Hperm, H0. cbn [snd] in *.
  destruct (IH sd1 bs1) as (Hlen' & Hperm' & H0').
  { by rewrite Hlen. }
  split; [congruence|]. split; [by etrans|congruence].
Qed.

(** C6. When the [state_id]s of [n] blocks are their indices, they are a
    permutation of [0 .. n-1] before and after [luaO_shuffleBlocks]; the
    block at index [0] is left as it is; and for [n <= 2] nothing at all
    changes. *)
Theorem C6_shuffle_keeps_states (ctx : CFFContext) :
  state_id <$> blocks ctx = seqZ 0 (num_blocks ctx) ->
  state_id <$> blocks ctx ≡ₚ seqZ 0 (num_blocks ctx)
  /\ state_id <$> blocks (luaO_shuffleBlocks ctx) ≡ₚ seqZ 0 (num_blocks ctx)
  /\ num_blocks (luaO_shuffleBlocks ctx) = num_blocks ctx
  /\ blocks (luaO_shuffleBlocks ctx) !! 0%nat = blocks ctx !! 0%nat
  /\ (num_blocks ctx <= 2 -> luaO_shuffleBlocks ctx = ctx).
Proof.
  intros Hinit. split; [by rewrite Hinit|].
  unfold luaO_shuffleBlocks.
  destruct (Z.leb_spec (num_blocks ctx) 2) as [Hle|Hgt].
  { repeat split; try done. by rewrite Hinit. }
  pose proof (shuffle_fold_inv (reverse (seqZ 2 (num_blocks ctx - 2)))
                (seed ctx) (blocks ctx)) as Hinv.
  destruct (foldl shuffle_step (seed ctx, blocks ctx)
              (reverse (seqZ 2 (num_blocks ctx - 2)))) as [sd bs].
  cbn [snd] in Hinv. destruct Hinv as (Hlen & Hperm & H0).
  { apply Forall_reverse, Forall_seqZ. unfold num_blocks in *. lia. }
  unfold num_blocks. cbn. repeat split.
  - by rewrite Hperm, Hinit.
  - by rewrite Hlen.
  - done.
  - unfold num_blocks in Hgt. lia.
Qed.

(** ** State and failure *)

Lemma bind_Some {S A B} (m : M S A) (k : A -> M S B) (s s' : S) (r : B) :
  mbind k m s = (Some r, s') ->
  exists a s1, m s = (Some a, s1) /\ k a s1 = (Some r, s').
Proof.
  unfold mbind, M_bind. destruct (m s) as [[a|] s1]; [eauto|discriminate].
Qed.

Lemma ret_Some {S A} (a r : A) (s s' : S) :
  mret (M := M S) a s = (Some r, s') -> r = a /\ s' = s.
Proof. unfold mret, M_ret. intros Heq. by simplify_eq. Qed.

Lemma get_Some {S} (s s' r : S) : getM s = (Some r, s') -> r = s /\ s' = s.
Proof. unfold getM. intros Heq. by simplify_eq. Qed.

Lemma modify_Some {S} (g : S -> S) (s s' : S) (r : unit) :
  modifyM g s = (Some r, s') -> s' = g s.
Proof. unfold modifyM. intros Heq. by simplify_eq. Qed.

Lemma ctx_alloc_Some (ctx ctx' : CFFContext) (r : unit) :
  ctx_alloc ctx = (Some r, ctx') ->
  exists L', luaM_malloc_ (ctx_L ctx) = Some L' /\ ctx' = set_ctx_L L' ctx.
Proof.
  unfold ctx_alloc. destruct (luaM_malloc_ (ctx_L ctx)) as [L'|]; intros Heq;
    simplify_eq. eauto.
Qed.

(** ** Block analyzer *)

Lemma addBlock_spec (s e : Z) (ctx ctx' : CFFContext) (idx : Z) :
  addBlock s e ctx = (Some idx, ctx') ->
  idx = num_blocks ctx
  /\ ctx_f ctx' = ctx_f ctx
  /\ blocks ctx' =
       blocks ctx ++
       [{| start_pc := s; end_pc := e; state_id := num_blocks ctx;
           original_target := -1; fall_through := -1; cond_target := -1;
           is_entry := (if s =? 0 then 1 else 0); is_exit := 0 |}].
Proof.
  unfold addBlock, mbind, M_bind, mret, M_ret, getM, modifyM, ctx_alloc.
  destruct (block_capacity ctx <=? num_blocks ctx).
  - destruct (luaM_malloc_ (ctx_L ctx)); cbn; intros Heq; by simplify_eq.
  - cbn. intros Heq. by simplify_eq.
Qed.

Lemma split_step_spec (cs : Z) (il : list bool) (s k r : Z) (ctx ctx' : CFFContext) :
  s < k -> k <= cs ->
  split_step cs il s k ctx = (Some r, ctx') ->
  ctx_f ctx' = ctx_f ctx
  /\ s <= r < k + 1
  /\ (k = cs -> r = cs)
  /\ exists new,
       blocks ctx' = blocks ctx ++ new
       /\ Forall (fun b => is_entry b = if start_pc b =? 0 then 1 else 0) new
       /\ forall hi tl, chained r tl hi -> chained s (new ++ tl) hi.
Proof.
  intros Hs Hk. unfold split_step.
  destruct ((k =? cs) || at_ false il k) eqn:Hc.
  - intros Hrun. apply bind_Some in Hrun as (idx & ctx1 & Hadd & Hret).
    apply ret_Some in Hret as [-> ->].
    apply addBlock_spec in Hadd as (_ & Hf & Hb).
    split; [done|]. split; [lia|]. split; [done|].
    eexists. split; [exact Hb|]. split; [by apply Forall_singleton|].
    intros hi tl Hch. cbn. split_and!; [done|lia|done].
  - intros Hret. apply ret_Some in Hret as [-> ->].
    apply orb_false_iff in Hc as [Hne _]. apply Z.eqb_neq in Hne.
    split; [done|]. split; [lia|]. split; [done|].
    exists []. split; [by rewrite app_nil_r|]. split; [done|].
    intros hi tl Hch. done.
Qed.

Lemma split_fold_spec (cs : Z) (il : list bool) (m : nat) :
  forall (k s : Z) (ctx ctx' : CFFContext) (r : Z),
    s < k -> k + Z.of_nat m = cs ->
    foldM (split_step cs il) (seqZ k (Z.of_nat (S m))) s ctx = (Some r, ctx') ->
    ctx_f ctx' = ctx_f ctx
    /\ exists new,
         blocks ctx' = blocks ctx ++ new
         /\ chained s new cs
         /\ Forall (fun b => is_entry b = if start_pc b =? 0 then 1 else 0) new.
Proof.
  induction m as [|m IH]; intros k s ctx ctx' r Hs Hk.
  - change (Z.of_nat 1) with 1. rewrite seqZ_cons, seqZ_nil by lia.
    cbn [foldM]. intros Hrun.
    apply bind_Some in Hrun as (r1 & ctx1 & Hstep & Hret).
    apply ret_Some in Hret as [-> ->].
    apply split_step_spec in Hstep as (Hf & _ & Hr & new & Hb & Hen & Hch); [|lia..].
    split; [done|]. exists new. split; [done|]. split; [|done].
    rewrite <- (app_nil_r new). apply Hch. cbn. apply Hr. lia.
  - rewrite seqZ_cons by lia.
    replace (Z.pred (Z.of_nat (S (S m)))) with (Z.of_nat (S m)) by lia.
    cbn [foldM]. intros Hrun.
    apply bind_Some in Hrun as (r1 & ctx1 & Hstep & Hrest).
    apply split_step_spec in Hstep as (Hf & Hr1 & _ & new & Hb & Hen & Hch); [|lia..].
    apply IH in Hrest as (Hf' & new' & Hb' & Hch' & Hen'); [|lia..].
    split; [congruence|]. exists (new ++ new').
    split; [by rewrite Hb', Hb, <- app_assoc|].
    split; [by apply Hch|]. by apply Forall_app.
Qed.

Lemma fmap_upd_same {A B} (g : A -> B) (d : A) (l : list A) (i : Z) (x : A) :
  g x = g (at_ d l i) -> g <$> upd l i x = g <$> l.
Proof.
  unfold upd, at_. destruct (i <? 0); [done|]. intros Hg.
  rewrite list_fmap_insert.
  destruct (l !! Z.to_nat i) as [y|] eqn:Hl; cbn in Hg.
  - apply list_insert_id. by rewrite list_lookup_fmap, Hl, Hg.
  - apply list_insert_ge. rewrite length_fmap. by apply lookup_ge_None.
Qed.

Section Analyzer.
Context `{Encoding}.

Lemma analyze_exit_extent (ctx : CFFContext) (i : Z) :
  ctx_f (analyze_exit ctx i) = ctx_f ctx
  /\ extent <$> blocks (analyze_exit ctx i) = extent <$> blocks ctx.
Proof.
  unfold analyze_exit. cbv zeta.
  destruct ((end_pc (at_ dummy_block (blocks ctx) i) - 1 <? 0)
            || (Z.of_nat (length (code (ctx_f ctx)))
                <=? end_pc (at_ dummy_block (blocks ctx) i) - 1)); [done|].
  split; [done|]. cbn [blocks set_blocks].
  apply (fmap_upd_same extent dummy_block).
  destruct (at_ dummy_block (blocks ctx) i); cbn.
  repeat case_match; reflexivity.
Qed.

Lemma analyze_fold_extent (idx : list Z) (ctx : CFFContext) :
  ctx_f (foldl analyze_exit ctx idx) = ctx_f ctx
  /\ extent <$> blocks (foldl analyze_exit ctx idx) = extent <$> blocks ctx.
Proof.
  revert ctx. induction idx as [|i idx IH]; intros ctx; [done|].
  cbn [foldl]. destruct (IH (analyze_exit ctx i)) as [-> ->].
  apply analyze_exit_extent.
Qed.

Lemma chained_extent (bs bs' : list BasicBlock) :
  extent <$> bs = extent <$> bs' ->
  forall lo hi, chained lo bs hi -> chained lo bs' hi.
Proof.
  revert bs'. induction bs as [|b bs IH]; intros [|b' bs'] Heq lo hi;
    try discriminate; [done|].
  cbn in Heq. injection Heq as Hs He _ _ Hrest.
  cbn. rewrite <- Hs, <- He. intros (? & ? & ?). eauto.
Qed.

Lemma chained_lookup (bs : list BasicBlock) :
  forall lo hi (i : nat) (b : BasicBlock),
    chained lo bs hi -> bs !! i = Some b ->
    lo <= start_pc b /\ (i <> 0%nat -> lo < start_pc b)
    /\ (i = 0%nat -> start_pc b = lo)
    /\ start_pc b < end_pc b /\ end_pc b <= hi.
Proof.
  induction bs as [|b0 bs IH]; intros lo hi i b Hch Hl; [done|].
  cbn in Hch. destruct Hch as (Hs & Hlt & Hch).
  assert (Hhi : end_pc b0 <= hi).
  { destruct bs as [|b1 bs]; cbn in Hch; [lia|].
    destruct (IH _ _ 0%nat b1 Hch eq_refl) as (? & _ & _ & ? & ?). lia. }
  destruct i as [|i]; cbn in Hl.
  - simplify_eq. split_and!; (done || lia).
  - destruct (IH _ _ i b Hch Hl) as (? & _ & _ & ? & ?).
    split_and!; (done || lia).
Qed.

Lemma chained_consecutive (bs : list BasicBlock) :
  forall lo hi (i : nat) (b b' : BasicBlock),
    chained lo bs hi -> bs !! i = Some b -> bs !! S i = Some b' ->
    end_pc b = start_pc b'.
Proof.
  induction bs as [|b0 bs IH]; intros lo hi i b b' Hch Hl Hl'; [done|].
  cbn in Hch. destruct Hch as (Hs & Hlt & Hch).
  destruct i as [|i]; cbn in Hl, Hl'.
  - simplify_eq. destruct bs as [|b1 bs]; [done|]. cbn in *.
    simplify_eq. by destruct Hch as [-> _].
  - eauto.
Qed.

Lemma chained_last (bs : list BasicBlock) :
  forall lo hi, chained lo bs hi -> bs <> [] ->
    exists bl, last bs = Some bl /\ end_pc bl = hi.
Proof.
  induction bs as [|b0 bs IH]; intros lo hi Hch Hne; [done|].
  cbn in Hch. destruct Hch as (Hs & Hlt & Hch).
  destruct bs as [|b1 bs].
  - cbn in Hch. exists b0. by cbn.
  - destruct (IH _ _ Hch ltac:(done)) as (bl & Hl & He).
    exists bl. split; [|done]. by rewrite last_cons, Hl.
Qed.

(** What [luaO_identifyBlocks] leaves in a context that had no block. *)
Lemma identifyBlocks_chained (ctx ctx' : CFFContext) (r : unit) :
  blocks ctx = [] ->
  luaO_identifyBlocks ctx = (Some r, ctx') ->
  ctx_f ctx' = ctx_f ctx
  /\ 0 < sizecode (ctx_f ctx)
  /\ chained 0 (blocks ctx') (sizecode (ctx_f ctx))
  /\ Forall (fun b => is_entry b = if start_pc b =? 0 then 1 else 0) (blocks ctx').
Proof.
  intros Hnil. unfold luaO_identifyBlocks. intros Hrun.
  apply bind_Some in Hrun as (c0 & c0' & Hget & Hrun).
  apply get_Some in Hget as [-> ->].
  fold (sizecode (ctx_f ctx)) in Hrun.
  destruct (Z.leb_spec (sizecode (ctx_f ctx)) 0) as [|Hpos]; [discriminate|].
  apply bind_Some in Hrun as (u & c1 & Halloc & Hrun).
  apply ctx_alloc_Some in Halloc as (L' & _ & ->).
  apply bind_Some in Hrun as (r2 & c2 & Hfold & Hrun).
  apply bind_Some in Hrun as (c3 & c3' & Hget & Hrun).
  apply get_Some in Hget as [-> ->].
  apply modify_Some in Hrun. subst ctx'.
  replace (sizecode (ctx_f ctx)) with (Z.of_nat (S (Z.to_nat (sizecode (ctx_f ctx) - 1))))
    in Hfold at 2 by lia.
  apply split_fold_spec in Hfold as (Hf & new & Hb & Hch & Hen); [|lia..].
  cbn [blocks set_ctx_L] in Hb. rewrite Hnil in Hb. cbn in Hb.
  destruct (analyze_fold_extent (seqZ 0 (num_blocks c2)) c2) as [Hf3 He3].
  split; [by rewrite Hf3, Hf|]. split; [done|]. split.
  - apply (chained_extent (blocks c2)); [done|]. by rewrite Hb.
  - rewrite <- Hb in Hen. clear -Hen He3.
    revert Hen He3. generalize (blocks (foldl analyze_exit c2 (seqZ 0 (num_blocks c2)))).
    induction (blocks c2) as [|b bs IH]; intros [|b' bs'] Hen Heq;
      try discriminate; [done|].
    apply Forall_cons in Hen as [Hb Hen]. cbn in Heq.
    injection Heq as Hs _ _ Hi Hrest.
    apply Forall_cons. split; [by rewrite Hi, Hs|]. by apply IH.
Qed.

End Analyzer.

Section AnalyzerClaim.
Context `{Encoding}.

(** C5. After [luaO_identifyBlocks] succeeds on a fresh context for an
    instruction array of length [codeLength], the blocks tile
    [[0, codeLength)]: the first starts at [0], each ends where the next
    starts, the last ends at [codeLength], none is empty; and a block
    has [is_entry] set exactly when it is the first one, which is
    exactly when it starts at offset [0]. *)
Theorem C5_blocks_partition_code (ctx ctx' : CFFContext) :
  blocks ctx = [] ->
  luaO_identifyBlocks ctx = (Some tt, ctx') ->
  (exists b0, blocks ctx' !! 0%nat = Some b0 /\ start_pc b0 = 0)
  /\ (forall (i : nat) b b',
        blocks ctx' !! i = Some b -> blocks ctx' !! S i = Some b' ->
        end_pc b = start_pc b')
  /\ (exists bl, last (blocks ctx') = Some bl /\ end_pc bl = sizecode (ctx_f ctx))
  /\ (forall (i : nat) b,
        blocks ctx' !! i = Some b ->
        0 <= start_pc b < end_pc b /\ end_pc b <= sizecode (ctx_f ctx))
  /\ (forall (i : nat) b,
        blocks ctx' !! i = Some b ->
        (is_entry b <> 0 <-> i = 0%nat) /\ (is_entry b <> 0 <-> start_pc b = 0)).
Proof.
  intros Hnil Hrun.
  destruct (identifyBlocks_chained ctx ctx' tt Hnil Hrun) as (Hf & Hpos & Hch & Hen).
  assert (Hne : blocks ctx' <> []).
  { intros Heq. rewrite Heq in Hch. cbn in Hch. lia. }
  split_and!.
  - destruct (blocks ctx') as [|b0 bs] eqn:Hb; [done|].
    exists b0. split; [done|]. by destruct Hch.
  - intros i b b'. apply (chained_consecutive _ _ _ _ _ _ Hch).
  - by apply (chained_last _ 0).
  - intros i b Hl.
    destruct (chained_lookup _ _ _ _ _ Hch Hl) as (? & _ & _ & ? & ?). lia.
  - intros i b Hl.
    destruct (chained_lookup _ _ _ _ _ Hch Hl) as (Hlo & Hpos' & Hzero & _ & _).
    rewrite Forall_lookup in Hen. specialize (Hen i b Hl). cbn in Hen.
    destruct (Z.eqb_spec (start_pc b) 0) as [Hs|Hs]; rewrite Hen.
    + split; (split; [intros _|intros _; lia]); [|done].
      destruct (decide (i = 0%nat)); [done|]. specialize (Hpos' ltac:(done)). lia.
    + split; (split; [done|]); [|done].
      intros ->. by specialize (Hzero eq_refl).
Qed.

End AnalyzerClaim.

Lemma C5_blocks_partition_witness :
  (blocks less_than_ctx = []
   /\ @luaO_identifyBlocks reference_encoding less_than_ctx
      = (Some tt, less_than_blocks))
  /\ (exists bl, last (blocks less_than_blocks) = Some bl /\ end_pc bl = 6)
  /\ (start_pc <$> blocks less_than_blocks = [0; 2; 3; 5]).
Proof.
  assert (H1 : blocks less_than_ctx = []) by reflexivity.
  assert (H2 : @luaO_identifyBlocks reference_encoding less_than_ctx
               = (Some tt, less_than_blocks)) by (vm_compute; reflexivity).
  split; [exact (conj H1 H2)|].
  destruct (@C5_blocks_partition_code reference_encoding _ _ H1 H2)
    as (_ & _ & Hlast & _).
  split; [exact Hlast | reflexivity].
Defined.

Lemma foldM_preserves {S A B} (P : S -> Prop) (body : B -> A -> M S B) (l : list A) :
  (forall b x s r s', P s -> body b x s = (Some r, s') -> P s') ->
  forall b s r s', P s -> foldM body l b s = (Some r, s') -> P s'.
Proof.
  intros Hbody. induction l as [|x l IH]; intros b s r s' HP; cbn [foldM].
  - intros Hret. apply ret_Some in Hret as [_ ->]. done.
  - intros Hrun. apply bind_Some in Hrun as (b1 & s1 & Hstep & Hrest).
    eapply IH; [|exact Hrest]. eapply Hbody; [exact HP|exact Hstep].
Qed.

Lemma addBlock_indexed (s e idx : Z) (ctx ctx' : CFFContext) :
  indexed (blocks ctx) -> addBlock s e ctx = (Some idx, ctx') -> indexed (blocks ctx').
Proof.
  unfold indexed. intros Hidx Hadd.
  apply addBlock_spec in Hadd as (_ & _ & ->).
  rewrite fmap_app, length_app, Nat.add_1_r, seqZ_S, Hidx. cbn.
  unfold num_blocks. done.
Qed.

Section AnalyzerIds.
Context `{Encoding}.

(** After [luaO_identifyBlocks] the state id of every block is its
    index, as the shuffler and the dispatcher expect. *)
Lemma identifyBlocks_state_ids (ctx ctx' : CFFContext) (r : unit) :
  blocks ctx = [] ->
  luaO_identifyBlocks ctx = (Some r, ctx') ->
  state_id <$> blocks ctx' = seqZ 0 (num_blocks ctx').
Proof.
  intros Hnil. unfold luaO_identifyBlocks. intros Hrun.
  apply bind_Some in Hrun as (c0 & c0' & Hget & Hrun).
  apply get_Some in Hget as [-> ->].
  destruct (Z.of_nat (length (code (ctx_f ctx))) <=? 0); [discriminate|].
  apply bind_Some in Hrun as (u & c1 & Halloc & Hrun).
  apply ctx_alloc_Some in Halloc as (L' & _ & ->).
  apply bind_Some in Hrun as (r2 & c2 & Hfold & Hrun).
  apply bind_Some in Hrun as (c3 & c3' & Hget & Hrun).
  apply get_Some in Hget as [-> ->].
  apply modify_Some in Hrun. subst ctx'.
  assert (Hidx : indexed (blocks c2)).
  { eapply (foldM_preserves (fun c => indexed (blocks c))); [| |exact Hfold].
    - intros b x s r' s' HP. unfold split_step.
      destruct ((x =? _) || at_ false _ x).
      + intros Hstep. apply bind_Some in Hstep as (idx & s1 & Hadd & Hret).
        apply ret_Some in Hret as [_ ->]. by eapply addBlock_indexed.
      + intros Hret. apply ret_Some in Hret as [_ ->]. done.
    - cbn. rewrite Hnil. done. }
  destruct (analyze_fold_extent (seqZ 0 (num_blocks c2)) c2) as [_ He].
  assert (Hids : state_id <$> blocks (foldl analyze_exit c2 (seqZ 0 (num_blocks c2)))
                 = state_id <$> blocks c2).
  { change state_id with ((fun e : Z * Z * Z * Z => e.1.2) ∘ extent).
    by rewrite !list_fmap_compose, He. }
  rewrite Hids. unfold num_blocks at 1.
  apply (f_equal length) in Hids. rewrite !length_fmap in Hids.
  rewrite Hids. exact Hidx.
Qed.

End AnalyzerIds.

Lemma C6_shuffle_witness :
  (state_id <$> blocks less_than_blocks = seqZ 0 (num_blocks less_than_blocks))
  /\ state_id <$> blocks (luaO_shuffleBlocks less_than_blocks) ≡ₚ seqZ 0 4
  /\ state_id <$> blocks (luaO_shuffleBlocks less_than_blocks) = [0; 3; 1; 2].
Proof.
  assert (H1 : state_id <$> blocks less_than_blocks
               = seqZ 0 (num_blocks less_than_blocks)) by reflexivity.
  split; [exact H1|].
  destruct (C6_shuffle_keeps_states less_than_blocks H1) as (_ & Hperm & _).
  split; [exact Hperm | reflexivity].
Defined.

(** ** Eligibility *)

Section Eligibility.
Context `{Encoding}.

(** C3. With the CFF flag set, a function of fewer than 4 instructions,
    or containing a loop-control opcode, or whose analysis yields fewer
    than 2 basic blocks, comes back from [luaO_flatten] with status [0]
    and with every field as it was. *)
Theorem C3_eligibility_skip (L : lua_State) (f : Proto) (flags sd : Z) :
  has_flag flags OBFUSCATE_CFF = true ->
  (sizecode f < 4
   \/ (exists inst, inst ∈ code f /\ isLoopControl (GET_OPCODE inst) = true)
   \/ (exists ctx L1 ctx',
         initContext L f flags sd = (Some ctx, L1)
         /\ luaO_identifyBlocks ctx = (Some tt, ctx')
         /\ num_blocks ctx' < 2)) ->
  exists L', luaO_flatten L f flags sd = (0, L', f).
Proof.
  intros Hcff Hskip. unfold luaO_flatten. rewrite Hcff. cbn [negb].
  destruct (Z.ltb_spec (sizecode f) 4) as [|Hlen]; [by eexists|].
  destruct (existsb (fun inst => isLoopControl (GET_OPCODE inst)) (code f)) eqn:Hloop;
    [by eexists|].
  destruct Hskip as [Hshort|[(inst & Hin & Hop)|(ctx & L1 & ctx' & Hinit & Hid & Hnb)]].
  - lia.
  - assert (Hex : existsb (fun inst => isLoopControl (GET_OPCODE inst)) (code f) = true).
    { apply existsb_exists. exists inst. split; [by apply list_elem_of_In|done]. }
    congruence.
  - rewrite Hinit, Hid.
    destruct (Z.ltb_spec (num_blocks ctx') 2); [by eexists|lia].
Qed.

End Eligibility.

Lemma C3_eligibility_witness :
  (has_flag OBFUSCATE_CFF OBFUSCATE_CFF = true
   /\ (sizecode straight < 4
       \/ (exists inst, inst ∈ code straight /\ isLoopControl (GET_OPCODE inst) = true)
       \/ (exists ctx L1 ctx',
             initContext ample_state straight OBFUSCATE_CFF 42 = (Some ctx, L1)
             /\ @luaO_identifyBlocks reference_encoding ctx = (Some tt, ctx')
             /\ num_blocks ctx' < 2)))
  /\ exists L', @luaO_flatten reference_encoding ample_state straight OBFUSCATE_CFF 42
                = (0, L', straight).
Proof.
  assert (H1 : has_flag OBFUSCATE_CFF OBFUSCATE_CFF = true) by reflexivity.
  assert (H2 : sizecode straight < 4
       \/ (exists inst, inst ∈ code straight /\ isLoopControl (GET_OPCODE inst) = true)
       \/ (exists ctx L1 ctx',
             initContext ample_state straight OBFUSCATE_CFF 42 = (Some ctx, L1)
             /\ @luaO_identifyBlocks reference_encoding ctx = (Some tt, ctx')
             /\ num_blocks ctx' < 2)).
  { right. right. eexists _, _, _. split; [reflexivity|].
    split; [vm_compute; reflexivity|]. vm_compute. reflexivity. }
  split; [exact (conj H1 H2)|].
  exact (@C3_eligibility_skip reference_encoding _ _ _ _ H1 H2).
Defined.

(** ** Metadata codec *)

Lemma le_word32_bytes (x : Z) :
  le_word32 (x mod 256) ((x / 2 ^ 8) mod 256) ((x / 2 ^ 16) mod 256)
            ((x / 2 ^ 24) mod 256) = x mod 2 ^ 32.
Proof.
  unfold le_word32.
  change (2 ^ 8) with 256. change (2 ^ 16) with (256 * 256).
  change (2 ^ 24) with (256 * 256 * 256). change (2 ^ 32) with (256 * 256 * 256 * 256).
  rewrite <- !Z.div_div by lia.
  Z.div_mod_to_equations. lia.
Qed.

Lemma int32_uint32 (x : Z) : is_int32 x -> int32 (x mod 2 ^ 32) = x.
Proof.
  intros Hx. unfold int32. rewrite Zplus_mod_idemp_l.
  unfold is_int32 in Hx. rewrite Z.mod_small by lia. lia.
Qed.

Lemma uint32_small (x : Z) : is_uint32 x -> x mod 2 ^ 32 = x.
Proof. intros Hx. by apply Z.mod_small. Qed.

(** Reading back the five header words of an image. *)
Lemma read_header (a b c d e : Z) (rest : list Z) :
  let image :=
    le_bytes32 a ++ le_bytes32 b ++ le_bytes32 c ++ le_bytes32 d ++ le_bytes32 e
    ++ rest in
  read_uint image 0 = a mod 2 ^ 32
  /\ read_uint image 4 = b mod 2 ^ 32
  /\ read_uint image 8 = c mod 2 ^ 32
  /\ read_uint image 12 = d mod 2 ^ 32
  /\ read_uint image 16 = e mod 2 ^ 32.
Proof.
  cbv zeta. unfold read_uint, le_bytes32. cbn [app].
  split_and!; apply le_word32_bytes.
Qed.

Lemma metadata_needed_small (ctx : CFFContext) :
  is_int32 (num_blocks ctx) ->
  metadata_needed ctx = 20 + 32 * num_blocks ctx.
Proof.
  intros Hn. unfold metadata_needed, uint64, HEADER_SIZE, SIZEOF_INT, SIZEOF_BasicBlock.
  unfold is_int32 in Hn. assert (0 <= num_blocks ctx) by (unfold num_blocks; lia).
  rewrite (Z.mod_small (num_blocks ctx)) by lia.
  rewrite (Z.mod_small (32 * num_blocks ctx)) by lia.
  rewrite Z.mod_small by lia. lia.
Qed.

(** The block mapping of a context that holds a block is requested with
    a size that is not zero. *)
Lemma mapping_request_nonzero (n : Z) :
  0 < n -> is_int32 n -> (uint64 (SIZEOF_INT * uint64 n) =? 0) = false.
Proof.
  intros Hpos Hn. unfold is_int32 in Hn. unfold uint64, SIZEOF_INT.
  rewrite (Z.mod_small n) by lia. rewrite Z.mod_small by lia.
  apply Z.eqb_neq. lia.
Qed.




(** C9, as the code has it. A buffer shorter than the header, with a bad
    magic number, with an unsupported version, or shorter than the size
    its header implies is refused with status [-1]: no block mapping is
    allocated, and [enabled], [block_mapping], [dispatcher_pc] and
    [original_size] keep their values. In the first three cases the
    whole metadata structure is unmodified; in the last one the header's
    block count, state register and seed have been stored in it. *)
Theorem C9_deserialize_rejects (L : lua_State) (buffer : list Z) (size : Z)
    (metadata : CFFMetadata) :
  size < HEADER_SIZE \/ bad_magic buffer \/ bad_version buffer
  \/ size < implied_size buffer ->
  exists metadata',
    luaO_deserializeMetadata L buffer size metadata = (-1, L, metadata')
    /\ md_enabled metadata' = md_enabled metadata
    /\ md_block_mapping metadata' = md_block_mapping metadata
    /\ md_dispatcher_pc metadata' = md_dispatcher_pc metadata
    /\ md_original_size metadata' = md_original_size metadata
    /\ (size < HEADER_SIZE \/ bad_magic buffer \/ bad_version buffer ->
        metadata' = metadata)
    /\ (HEADER_SIZE <= size -> ~ bad_magic buffer -> ~ bad_version buffer ->
        metadata' = set_md_header (read_int buffer 8) (read_int buffer 12)
                                  (read_uint buffer 16) metadata).
Proof.
  intros Hbad. unfold luaO_deserializeMetadata.
  destruct (Z.ltb_spec size HEADER_SIZE) as [Hshort|Hlong].
  { exists metadata. split_and!; (done || lia). }
  destruct (Z.eqb_spec (read_int buffer 0) CFF_MAGIC) as [Hm|Hm]; cbn [negb];
    [|exists metadata; split_and!; done].
  destruct (Z.eqb_spec (read_int buffer 4) CFF_VERSION) as [Hv|Hv]; cbn [negb];
    [|exists metadata; split_and!; done].
  destruct Hbad as [?|[?|[?|Htrunc]]]; [lia|done|done|].
  cbn [md_num_blocks set_md_header]. fold (implied_size buffer).
  destruct (Z.ltb_spec size (implied_size buffer)) as [_|?]; [|lia].
  eexists. split; [reflexivity|]. split_and!; try done.
  intros [?|[?|?]]; [lia|done|done].
Qed.

Lemma C9_deserialize_rejects_witness :
  (20 < HEADER_SIZE \/ bad_magic bad_magic_blob \/ bad_version bad_magic_blob
   \/ 20 < implied_size bad_magic_blob)
  /\ luaO_deserializeMetadata ample_state bad_magic_blob 20 blank_metadata
     = (-1, ample_state, blank_metadata).
Proof.
  assert (H1 : 20 < HEADER_SIZE \/ bad_magic bad_magic_blob \/ bad_version bad_magic_blob
               \/ 20 < implied_size bad_magic_blob).
  { right. left. vm_compute. discriminate. }
  split; [exact H1|].
  destruct (C9_deserialize_rejects ample_state bad_magic_blob 20 blank_metadata H1)
    as (md' & Hrun & _ & _ & _ & _ & Hsame & _).
  rewrite Hrun, Hsame; [reflexivity|]. right. left. vm_compute. discriminate.
Defined.

(** C9 as stated fails: a blob with a valid header announcing one block
    and no block record is refused, yet the metadata structure has
    received the header's block count, state register and seed. *)
Lemma C9_truncated_blob_modifies_metadata :
  Z.of_nat (length truncated_blob) < implied_size truncated_blob
  /\ luaO_deserializeMetadata ample_state truncated_blob 20 blank_metadata
     = (-1, ample_state,
        {| md_enabled := 0; md_num_blocks := 1; md_state_reg := 7;
           md_dispatcher_pc := 0; md_block_mapping := None;
           md_original_size := 0; md_seed := 9 |})
  /\ snd (luaO_deserializeMetadata ample_state truncated_blob 20 blank_metadata)
     <> blank_metadata.
Proof.
  split; [reflexivity|]. split; [reflexivity|].
  vm_compute. discriminate.
Qed.

(** ** VM protection layer *)

Lemma malloc_keeps_list (L L' : lua_State) :
  luaM_malloc_ L = Some L' -> vm_code_list L' = vm_code_list L.
Proof.
  unfold luaM_malloc_. destruct (allocs L); intros Heq; by simplify_eq.
Qed.

Lemma vm_same_refl ctx : vm_same ctx ctx.
Proof. done. Qed.

Lemma vm_same_trans c1 c2 c3 : vm_same c1 c2 -> vm_same c2 c3 -> vm_same c1 c3.
Proof. unfold vm_same. intros (? & ? & ?) (? & ? & ?). split_and!; congruence. Qed.

Lemma emitVMInstruction_same (inst : Z) (ctx ctx' : VMProtectContext) (o : option Z) :
  emitVMInstruction inst ctx = (o, ctx') -> vm_same ctx ctx'.
Proof.
  unfold emitVMInstruction, ensureVMCodeCapacity, mbind, M_bind, mret, M_ret,
    getM, modifyM, vmc_alloc.
  destruct (vm_code_size ctx + 1 <=? vm_code_capacity ctx); cbn.
  - intros Heq. by simplify_eq.
  - destruct (luaM_malloc_ (vmc_L ctx)) as [L'|] eqn:Hm; cbn; intros Heq;
      simplify_eq; [|done].
    split_and!; [|done..]. cbn. by apply malloc_keeps_list.
Qed.

Section VMLayer.
Context `{Encoding}.

Lemma convertLuaInstToVM_same inst pc ctx ctx' (o : option unit) :
  convertLuaInstToVM inst pc ctx = (o, ctx') -> vm_same ctx ctx'.
Proof.
  unfold convertLuaInstToVM. unfold mbind at 1, M_bind at 1, getM.
  destruct (getOpMode (GET_OPCODE inst)); cbv zeta;
    unfold mbind, M_bind, mret, M_ret;
    match goal with
    | |- context [emitVMInstruction ?i ctx] =>
      destruct (emitVMInstruction i ctx) as [[r|] c1] eqn:He;
        apply emitVMInstruction_same in He; cbn; intros Heq; by simplify_eq
    end.
Qed.

Lemma convert_from_same insts : forall pc ctx ctx' (o : option unit),
  convert_from pc insts ctx = (o, ctx') -> vm_same ctx ctx'.
Proof.
  induction insts as [|inst insts IH]; intros pc ctx ctx' o; cbn [convert_from].
  - unfold mret, M_ret. intros Heq. by simplify_eq.
  - unfold mbind, M_bind.
    destruct (convertLuaInstToVM inst pc ctx) as [[r|] c1] eqn:Hc;
      apply convertLuaInstToVM_same in Hc.
    + intros Hrest. apply IH in Hrest. by eapply vm_same_trans.
    + intros Heq. by simplify_eq.
Qed.

Lemma luaO_convertToVM_same ctx ctx' (o : option unit) :
  luaO_convertToVM ctx = (o, ctx') -> vm_same ctx ctx'.
Proof.
  unfold luaO_convertToVM. unfold mbind at 1, M_bind at 1, getM.
  unfold mbind at 1, M_bind at 1.
  destruct (convert_from 0 (code (vmc_f ctx)) ctx) as [[r|] c1] eqn:Hc;
    apply convert_from_same in Hc.
  - unfold mbind, M_bind, mret, M_ret.
    match goal with
    | |- context [emitVMInstruction ?i c1] =>
      destruct (emitVMInstruction i c1) as [[r'|] c2] eqn:He;
        apply emitVMInstruction_same in He; cbn; intros Heq; simplify_eq;
        by eapply vm_same_trans
    end.
  - intros Heq. by simplify_eq.
Qed.

Lemma initVMContext_Some L f sd ctx L' :
  luaO_initVMContext L f sd = (Some ctx, L') ->
  vm_code_list (vmc_L ctx) = vm_code_list L
  /\ encrypt_key ctx = vm_encrypt_key sd.
Proof.
  unfold luaO_initVMContext.
  destruct (luaM_malloc_ L) as [L1|] eqn:H1; [|discriminate].
  destruct (luaM_malloc_ L1) as [L2|] eqn:H2; [|discriminate].
  destruct (luaM_malloc_ L2) as [L3|] eqn:H3; [|discriminate].
  intros Heq. simplify_eq. cbn. split; [|done].
  apply malloc_keeps_list in H1, H2, H3. congruence.
Qed.

Lemma protect_flag_set (m : Z) :
  has_flag (Z.lor m OBFUSCATE_VM_PROTECT) OBFUSCATE_VM_PROTECT = true.
Proof.
  unfold has_flag. apply negb_true_iff, Z.eqb_neq. intros Hz.
  assert (Hb : Z.testbit (Z.land (Z.lor m OBFUSCATE_VM_PROTECT) OBFUSCATE_VM_PROTECT) 7
               = true).
  { rewrite Z.land_spec, Z.lor_spec.
    change (Z.testbit OBFUSCATE_VM_PROTECT 7) with true. by rewrite orb_true_r. }
  rewrite Hz in Hb. by rewrite Z.bits_0 in Hb.
Qed.

Lemma low_half_of_data (d k : Z) :
  Z.land (Z.lor (Z.land d 0xFFFFFFFF00000000) (Z.land k 0xFFFFFFFF)) 0xFFFFFFFF
  = Z.land k 0xFFFFFFFF.
Proof.
  change 0xFFFFFFFF00000000 with (Z.shiftl (Z.ones 32) 32).
  change 0xFFFFFFFF with (Z.ones 32).
  apply Z.bits_inj'. intros i Hi.
  rewrite !Z.land_spec, Z.lor_spec, !Z.land_spec, Z.shiftl_spec by done.
  destruct (Z.lt_ge_cases i 32) as [Hlt|Hge].
  - rewrite (Z.testbit_neg_r _ (i - 32)) by lia.
    rewrite Z.ones_spec_low by lia. by rewrite andb_false_r, andb_true_r.
  - rewrite (Z.ones_spec_high 32 i) by lia. by rewrite !andb_false_r.
Qed.

(** C7, as the code has it. When [luaO_vmProtect] succeeds on a function
    of at least 4 instructions, the VM code list is what it was and the
    function has no code table attached by the call: a lookup finds what
    it found before. The function keeps its instructions; its mode has
    the VM-protect bit; the low half of its data word is the low half of
    the key derived from the seed. *)
Theorem C7_vmProtect_registers_nothing (L L' : lua_State) (f f' : Proto) (sd : Z) :
  4 <= sizecode f ->
  luaO_vmProtect L f sd = (0, L', f') ->
  vm_code_list L' = vm_code_list L
  /\ vm_code_table f' = vm_code_table f
  /\ fst (luaO_findVMCode L' f') = fst (luaO_findVMCode L f)
  /\ code f' = code f
  /\ has_flag (difierline_mode f') OBFUSCATE_VM_PROTECT = true
  /\ Z.land (difierline_data f') 0xFFFFFFFF = Z.land (vm_encrypt_key sd) 0xFFFFFFFF.
Proof.
  intros Hlen. unfold luaO_vmProtect.
  destruct (Z.ltb_spec (sizecode f) 4) as [|_]; [lia|].
  destruct (luaO_initVMContext L f sd) as [[ctx|] L1] eqn:Hinit;
    [|intros Heq; simplify_eq].
  apply initVMContext_Some in Hinit as [Hlist Hkey].
  destruct (luaO_convertToVM ctx) as [[r|] ctx1] eqn:Hconv;
    [|intros Heq; simplify_eq].
  apply luaO_convertToVM_same in Hconv as (Hlist1 & Hkey1 & _).
  intros Heq. simplify_eq. unfold luaO_freeVMContext.
  assert (Hl : vm_code_list (vmc_L ctx1) = vm_code_list L) by congruence.
  split_and!.
  - done.
  - done.
  - unfold luaO_findVMCode. cbn. rewrite Hl.
    destruct (vm_code_table f); [done|].
    by destruct (List.find _ (vm_code_list L)).
  - done.
  - cbn. apply protect_flag_set.
  - cbn. rewrite low_half_of_data. congruence.
Qed.

End VMLayer.

Lemma C7_vmProtect_witness :
  (4 <= sizecode less_than
   /\ @luaO_vmProtect reference_encoding ample_state less_than 7
      = (0, set_allocs 60 ample_state,
         set_difierline_data (Z.land (vm_encrypt_key 7) 0xFFFFFFFF)
           (set_difierline_mode OBFUSCATE_VM_PROTECT less_than)))
  /\ vm_code_list (set_allocs 60 ample_state) = vm_code_list ample_state.
Proof.
  assert (H1 : 4 <= sizecode less_than) by (vm_compute; discriminate).
  assert (H2 : @luaO_vmProtect reference_encoding ample_state less_than 7
      = (0, set_allocs 60 ample_state,
         set_difierline_data (Z.land (vm_encrypt_key 7) 0xFFFFFFFF)
           (set_difierline_mode OBFUSCATE_VM_PROTECT less_than)))
    by (vm_compute; reflexivity).
  split; [exact (conj H1 H2)|].
  exact (proj1 (@C7_vmProtect_registers_nothing reference_encoding _ _ _ _ _ H1 H2)).
Defined.

(** C7 as stated fails: after a successful [luaO_vmProtect] on a
    six-instruction function the VM code list is still empty and a
    lookup of the function finds no entry. *)
Lemma C7_side_table_stays_empty :
  4 <= sizecode less_than
  /\ fst (fst (@luaO_vmProtect reference_encoding ample_state less_than 7)) = 0
  /\ vm_code_list (snd (fst (@luaO_vmProtect reference_encoding ample_state less_than 7)))
     = []
  /\ fst (luaO_findVMCode
            (snd (fst (@luaO_vmProtect reference_encoding ample_state less_than 7)))
            (snd (@luaO_vmProtect reference_encoding ample_state less_than 7)))
     = None.
Proof.
  split; [vm_compute; discriminate|]. split_and!; vm_compute; reflexivity.
Qed.

(** ** Dispatcher generation *)

(** C4 on the code: with bogus blocks enabled, generation succeeds on
    the four-block function [less_than]; twelve placeholder jumps are
    recorded; the four of the real blocks are patched to offsets inside
    the final array, and the eight of the bogus states still hold the
    placeholder [CREATE_sJ(OP_JMP, 0, 0)], which points before the start
    of the array. [luaO_flatten] installs that array in the function. *)
Theorem C4_bogus_jumps_keep_placeholder :
  @luaO_identifyBlocks reference_encoding
    (new_context ample_state less_than (Z.lor OBFUSCATE_CFF OBFUSCATE_BOGUS_BLOCKS) 42)
  = (Some tt, less_than_bogus_blocks)
  /\ exists log ctx',
       @generateDispatcher_log reference_encoding less_than_bogus_blocks
       = (Some log, ctx')
       /\ all_block_jmp_pcs log = [2; 4; 6; 8; 10; 12; 14; 16; 18; 20; 22; 24]
       /\ new_code_size ctx' = 38
       /\ @jump_lands_inside reference_encoding (new_code ctx')
            <$> take 4 (all_block_jmp_pcs log) = [true; true; true; true]
       /\ at_ dummy_inst (new_code ctx') <$> drop 4 (all_block_jmp_pcs log)
          = replicate 8 (CREATE_sJ OP_JMP 0 0)
       /\ @jump_lands_inside reference_encoding (new_code ctx')
            <$> drop 4 (all_block_jmp_pcs log) = replicate 8 false
       /\ code (snd (@luaO_flatten reference_encoding ample_state less_than
                       (Z.lor OBFUSCATE_CFF OBFUSCATE_BOGUS_BLOCKS) 42))
          = new_code ctx'.
Proof.
  split; [vm_compute; reflexivity|].
  eexists _, _. split; [vm_compute; reflexivity|].
  split_and!; vm_compute; reflexivity.
Qed.

(** The same under any encoding, on a function without jumps: the eight
    jumps recorded for the bogus states keep the raw jump field [0]. *)
Lemma bogus_placeholders_any_encoding `{Encoding} :
  exists ctx log ctx',
    luaO_identifyBlocks
      (new_context ample_state four_returns
         (Z.lor OBFUSCATE_CFF OBFUSCATE_BOGUS_BLOCKS) 42) = (Some tt, ctx)
    /\ generateDispatcher_log ctx = (Some log, ctx')
    /\ length (all_block_jmp_pcs log) = 12%nat
    /\ at_ dummy_inst (new_code ctx') <$> drop 4 (all_block_jmp_pcs log)
       = replicate 8 (CREATE_sJ OP_JMP 0 0).
Proof.
  eexists _, _, _. split; [vm_compute; reflexivity|].
  split; [vm_compute; reflexivity|].
  split; vm_compute; reflexivity.
Qed.

(** ** Execution *)

Section Runs.
Context `{Encoding}.

Lemma is_running_spec (o : Outcome) : is_running o = true <-> exists fr, o = Running fr.
Proof.
  destruct o; cbn; split; try done; try (intros [? ?]; done). eauto.
Qed.

Lemma run_add (a b : nat) (code_ : list Instruction) (fr : Frame) :
  run (a + b) code_ fr =
    match run a code_ fr with
    | Running fr' => run b code_ fr'
    | o => o
    end.
Proof.
  revert fr. induction a as [|a IH]; intros fr; cbn [run Nat.add]; [done|].
  destruct (step code_ fr); [apply IH|done..].
Qed.

(** A frame that comes back to itself never leaves the loop. *)
Lemma cycle_runs_forever (code_ : list Instruction) (fr0 : Frame) (p : nat) :
  (0 < p)%nat ->
  run p code_ fr0 = Running fr0 ->
  (forall k, (k < p)%nat -> is_running (run k code_ fr0) = true) ->
  forall fuel, is_running (run fuel code_ fr0) = true.
Proof.
  intros Hp Hcycle Hprefix fuel.
  induction fuel as [fuel IH] using lt_wf_ind.
  destruct (Nat.lt_ge_cases fuel p) as [Hlt|Hge]; [by apply Hprefix|].
  replace fuel with (p + (fuel - p))%nat by lia.
  rewrite run_add, Hcycle. apply IH. lia.
Qed.

(** A run that reaches such a frame never returns. *)
Lemma reaches_cycle_never_returns (code_ : list Instruction) (fr fr0 : Frame)
    (n p : nat) :
  run n code_ fr = Running fr0 ->
  (forall k, (k < n)%nat -> is_running (run k code_ fr) = true) ->
  (0 < p)%nat ->
  run p code_ fr0 = Running fr0 ->
  (forall k, (k < p)%nat -> is_running (run k code_ fr0) = true) ->
  forall fuel, is_running (run fuel code_ fr) = true.
Proof.
  intros Hreach Hpre Hp Hcycle Hprefix fuel.
  destruct (Nat.lt_ge_cases fuel n) as [Hlt|Hge]; [by apply Hpre|].
  replace fuel with (n + (fuel - n))%nat by lia.
  rewrite run_add, Hreach. by apply cycle_runs_forever with p.
Qed.

End Runs.

Lemma below_forallb (P : nat -> bool) (n : nat) :
  forallb P (seq 0 n) = true -> forall k, (k < n)%nat -> P k = true.
Proof.
  intros Hall k Hk. rewrite forallb_forall in Hall. apply Hall.
  apply in_seq. lia.
Qed.

(** [luaO_flatten] with the CFF flag succeeds on
    [function (a, b) local x = a < b; return x end]; the original
    returns [false] for the arguments [(2, 1)], and the flattened
    function never returns for them: the [LFALSESKIP] that ends its
    block skips the load of the next state, so the dispatcher selects
    the same block again. *)
Lemma flattened_less_than_diverges :
  @luaO_flatten reference_encoding ample_state less_than OBFUSCATE_CFF 42
    = (0, set_allocs 58 ample_state, flattened_less_than)
  /\ @call reference_encoding 4 less_than [VInt 2; VInt 1] = Returned [VBool false]
  /\ forall fuel,
       exists fr,
         @call reference_encoding fuel flattened_less_than [VInt 2; VInt 1] = Running fr.
Proof.
  split; [vm_compute; reflexivity|]. split; [vm_compute; reflexivity|].
  intros fuel. apply is_running_spec. unfold call.
  apply (@reaches_cycle_never_returns reference_encoding _ _
           {| pc := 18; regs := [VInt 2; VInt 1; VBool false; VInt 1] |} 10 5).
  - vm_compute. reflexivity.
  - apply below_forallb. vm_compute. reflexivity.
  - lia.
  - vm_compute. reflexivity.
  - apply below_forallb. vm_compute. reflexivity.
Qed.

(** The same defect on a two-way branch whose jump is a block of its
    own: the test that ends the first block skips the load of the next
    state when [R0] is true, where the original returns. *)
Lemma flattened_branch_diverges :
  @luaO_flatten reference_encoding ample_state branch OBFUSCATE_CFF 42
    = (0, set_allocs 58 ample_state, flattened_branch)
  /\ @call reference_encoding 4 branch [VBool true] = Returned []
  /\ forall fuel,
       exists fr,
         @call reference_encoding fuel flattened_branch [VBool true] = Running fr.
Proof.
  split; [vm_compute; reflexivity|]. split; [vm_compute; reflexivity|].
  intros fuel. apply is_running_spec. unfold call.
  apply (@reaches_cycle_never_returns reference_encoding _ _
           {| pc := 1; regs := [VBool true; VNil; VInt 0] |} 1 4).
  - vm_compute. reflexivity.
  - apply below_forallb. vm_compute. reflexivity.
  - lia.
  - vm_compute. reflexivity.
  - apply below_forallb. vm_compute. reflexivity.
Qed.

(** C1 on the code: two eligible functions that [luaO_flatten] with the
    CFF flag transforms successfully and that return on an input for
    which their flattened form runs forever. In both, a block ends in an
    instruction that skips the next one ([LFALSESKIP], or a conditional
    test whose jump starts a block of its own), and in the flattened
    code the instruction skipped is the load of the successor's state. *)
Theorem C1_flattening_changes_behaviour :
  (@luaO_flatten reference_encoding ample_state less_than OBFUSCATE_CFF 42
     = (0, set_allocs 58 ample_state, flattened_less_than)
   /\ @call reference_encoding 4 less_than [VInt 2; VInt 1] = Returned [VBool false]
   /\ forall fuel,
        exists fr,
          @call reference_encoding fuel flattened_less_than [VInt 2; VInt 1]
          = Running fr)
  /\ (@luaO_flatten reference_encoding ample_state branch OBFUSCATE_CFF 42
        = (0, set_allocs 58 ample_state, flattened_branch)
      /\ @call reference_encoding 4 branch [VBool true] = Returned []
      /\ forall fuel,
           exists fr,
             @call reference_encoding fuel flattened_branch [VBool true] = Running fr).
Proof. exact (conj flattened_less_than_diverges flattened_branch_diverges). Qed.

(** ** Opcode classes *)

(** X1. The block terminators are exactly the jumps, the conditional
    tests, the returns and [TFORCALL]; the three classes are pairwise
    disjoint; and the only jump opcode outside the loop-control opcodes
    that [luaO_flatten] refuses is [JMP]. *)
Theorem terminator_classes (op : OpCode) :
  luaO_isBlockTerminator op
  = luaO_isJumpInstruction op || isConditionalTest op || isReturnInstruction op
    || bool_decide (op = OP_TFORCALL)
  /\ luaO_isJumpInstruction op && isConditionalTest op = false
  /\ luaO_isJumpInstruction op && isReturnInstruction op = false
  /\ isConditionalTest op && isReturnInstruction op = false
  /\ isLoopControl op
     = luaO_isJumpInstruction op && negb (bool_decide (op = OP_JMP))
       || bool_decide (op = OP_TFORCALL).
Proof. destruct op; repeat split; reflexivity. Qed.

Section JumpTargets.
Context `{Encoding}.


End JumpTargets.

(** ** State encoding on arbitrary inputs *)

Lemma rem_range (x : Z) : - 30000 < Z.rem x 30000 < 30000.
Proof.
  pose proof (Z.rem_bound_abs x 30000 ltac:(lia)). lia.
Qed.

(** X3. Whatever the state and the seed, [luaO_encodeState] answers a
    value of [[0, 30000)], which fits the immediate of [EQI]; and two
    states [30000] apart are encoded alike, so the encoding tells apart
    at most [30000] states. *)
Theorem encodeState_range_and_period (state seed : Z) :
  0 <= luaO_encodeState state seed < 30000
  /\ (0 <= state <= 241181 ->
      luaO_encodeState (state + 30000) seed = luaO_encodeState state seed).
Proof.
  split.
  - unfold luaO_encodeState. cbv zeta.
    set (x := Z.rem (int32 (state * 7919)) 30000 + int32 (uint32 seed mod 30000)).
    pose proof (rem_range x). destruct (Z.rem x 30000 <? 0) eqn:E; lia.
  - intros Hs. unfold luaO_encodeState. cbv zeta.
    assert (Hi : forall s, 0 <= s <= 271181 -> int32 (s * 7919) = s * 7919).
    { intros s Hs'. unfold int32. rewrite Z.mod_small; lia. }
    rewrite (Hi state), (Hi (state + 30000)) by lia.
    rewrite (Z.rem_mod_nonneg ((state + 30000) * 7919)) by lia.
    rewrite (Z.rem_mod_nonneg (state * 7919)) by lia.
    replace ((state + 30000) * 7919) with (state * 7919 + 7919 * 30000) by lia.
    by rewrite Z.mod_add by lia.
Qed.

(** ** Decoy instructions *)

(** X4. A [NOP] made by [luaO_createNOP] has the opcode [NOP], operands
    [A], [B] and [C] in [[0, 256)] and a clear [k] bit, for every seed. *)
Theorem createNOP_fields (sd : Z) :
  GET_OPCODE (luaO_createNOP sd) = OP_NOP
  /\ 0 <= GETARG_A (luaO_createNOP sd) < 256
  /\ 0 <= GETARG_B (luaO_createNOP sd) < 256
  /\ 0 <= GETARG_C (luaO_createNOP sd) < 256
  /\ GETARG_k (luaO_createNOP sd) = 0.
Proof.
  unfold luaO_createNOP, CREATE_ABCk. simpl.
  repeat split; try apply Z.mod_pos_bound; lia.
Qed.

Lemma NEXT_RAND_uint32 (sd : Z) : is_uint32 (NEXT_RAND sd).
Proof. unfold NEXT_RAND, uint32, is_uint32. apply Z.mod_pos_bound. lia. Qed.

Lemma int32_small (x : Z) : 0 <= x < 2 ^ 31 -> int32 x = x.
Proof. intros Hx. unfold int32. rewrite Z.mod_small; lia. Qed.

Section Bogus.
Context `{Encoding}.

(** X5. When the function has registers of its own
    ([0 < state_reg < 2^31]), an instruction made by
    [generateBogusInstruction] is a [LOADI], an [ADDI] or a [MOVE] whose
    destination, and whose source for [ADDI] and [MOVE], lies below the
    state register: it never writes the dispatcher's state. The seed it
    hands back is an [unsigned int]. *)
Theorem bogus_instruction_below_state_reg (ctx : CFFContext) (sd : Z) :
  0 < state_reg ctx < 2 ^ 31 ->
  let inst := fst (generateBogusInstruction ctx sd) in
  (GET_OPCODE inst = OP_LOADI \/ GET_OPCODE inst = OP_ADDI \/ GET_OPCODE inst = OP_MOVE)
  /\ 0 <= GETARG_A inst < state_reg ctx
  /\ (GET_OPCODE inst = OP_ADDI -> GETARG_B inst = GETARG_A inst)
  /\ (GET_OPCODE inst = OP_MOVE -> 0 <= GETARG_B inst < state_reg ctx)
  /\ is_uint32 (snd (generateBogusInstruction ctx sd)).
Proof.
  intros Hreg.
  assert (Hu : uint32 (state_reg ctx) = state_reg ctx).
  { unfold uint32. apply Z.mod_small. lia. }
  assert (Hr : forall s, 0 <= int32 (s mod uint32 (state_reg ctx)) < state_reg ctx).
  { intros s. rewrite Hu.
    pose proof (Z.mod_pos_bound s (state_reg ctx) ltac:(lia)).
    rewrite int32_small; lia. }
  assert (Hc : forall s, (if int32 (s mod uint32 (state_reg ctx)) <? 0 then 0
                          else int32 (s mod uint32 (state_reg ctx)))
                         = int32 (s mod uint32 (state_reg ctx))).
  { intros s. specialize (Hr s). destruct (_ <? 0) eqn:E; lia. }
  unfold generateBogusInstruction. cbv zeta. rewrite !Hc.
  repeat case_match; simpl; split_and!;
    try (by auto); try apply Hr; try apply NEXT_RAND_uint32; try discriminate.
Qed.

End Bogus.

(** [less_than] has three registers below the state register. *)
Lemma bogus_instruction_witness :
  0 < state_reg less_than_blocks < 2 ^ 31
  /\ 0 <= GETARG_A (fst (@generateBogusInstruction reference_encoding less_than_blocks 7))
     < state_reg less_than_blocks.
Proof.
  assert (Hreg : 0 < state_reg less_than_blocks < 2 ^ 31)
    by (vm_compute; split; reflexivity).
  split; [exact Hreg|].
  pose proof (@bogus_instruction_below_state_reg reference_encoding less_than_blocks 7 Hreg)
    as Hb.
  cbv zeta in Hb. exact (proj1 (proj2 Hb)).
Defined.

(** ** Shuffling leaves the blocks in place *)

Lemma shuffle_step_placement (st : Z * list BasicBlock) (i : Z) :
  placement <$> snd (shuffle_step st i) = placement <$> snd st.
Proof.
  destruct st as [sd bs]. unfold shuffle_step. cbv zeta. simpl.
  set (j := 1 + NEXT_RAND sd mod i).
  rewrite (fmap_upd_same placement dummy_block); [|reflexivity].
  rewrite (fmap_upd_same placement dummy_block); reflexivity.
Qed.

Lemma shuffle_fold_placement (idx : list Z) (st : Z * list BasicBlock) :
  placement <$> snd (foldl shuffle_step st idx) = placement <$> snd st.
Proof.
  revert st. induction idx as [|i idx IH]; intros st; [done|].
  simpl. rewrite IH. apply shuffle_step_placement.
Qed.

(** X6. [luaO_shuffleBlocks] changes nothing of the context but the state
    ids of the blocks and the seed: every block keeps its extent, its
    successors and its entry and exit marks, and no code is emitted. *)
Theorem shuffle_only_renumbers (ctx : CFFContext) :
  placement <$> blocks (luaO_shuffleBlocks ctx) = placement <$> blocks ctx
  /\ luaO_shuffleBlocks ctx
     = set_seed (seed (luaO_shuffleBlocks ctx))
         (set_blocks (blocks (luaO_shuffleBlocks ctx)) ctx).
Proof.
  unfold luaO_shuffleBlocks.
  destruct (num_blocks ctx <=? 2); [by destruct ctx|].
  pose proof (shuffle_fold_placement (reverse (seqZ 2 (num_blocks ctx - 2)))
                (seed ctx, blocks ctx)) as Hp.
  destruct (foldl shuffle_step _ _) as [sd bs]. simpl in Hp.
  split; [exact Hp|]. by destruct ctx.
Qed.

(** ** Undoing the transform *)

Lemma clear_bit0 (m : Z) :
  Z.land (Z.land m (Z.lnot 1)) 1 = 0
  /\ forall bit, 1 <= bit -> Z.testbit (Z.land m (Z.lnot 1)) bit = Z.testbit m bit.
Proof.
  split.
  - rewrite <- Z.land_assoc. replace (Z.land (Z.lnot 1) 1) with 0 by reflexivity.
    apply Z.land_0_r.
  - intros bit Hbit. rewrite Z.land_spec, Z.lnot_spec by lia.
    replace (Z.testbit 1 bit) with false; [apply andb_true_r|].
    symmetry. change 1 with (2 ^ 0). apply Z.pow2_bits_false. lia.
Qed.

(** X7. [luaO_unflatten] never changes the code or the frame size of the
    function, so it does not restore the original control flow. It only
    fails ([-1]) on a function marked as flattened whose magic number is
    wrong when no metadata is supplied, leaving it untouched; without
    metadata it otherwise clears the CFF bit of the mode and no other
    bit; with metadata supplied it changes nothing at all. *)
Theorem unflatten_only_clears_the_mark (f : Proto) (metadata : option CFFMetadata) :
  let st := fst (luaO_unflatten f metadata) in
  let f' := snd (luaO_unflatten f metadata) in
  code f' = code f
  /\ maxstacksize f' = maxstacksize f
  /\ (st = 0 \/ st = -1)
  /\ (st = -1 <->
      has_flag (difierline_mode f) OBFUSCATE_CFF = true /\ metadata = None
      /\ difierline_magicnum f <> CFF_MAGIC)
  /\ (st = -1 -> f' = f)
  /\ (is_Some metadata -> f' = f)
  /\ (st = 0 -> metadata = None ->
      has_flag (difierline_mode f') OBFUSCATE_CFF = false)
  /\ (forall bit, 1 <= bit ->
      Z.testbit (difierline_mode f') bit = Z.testbit (difierline_mode f) bit).
Proof.
  unfold luaO_unflatten.
  destruct (has_flag (difierline_mode f) OBFUSCATE_CFF) eqn:Hflag; simpl;
    [destruct metadata as [md|]; simpl;
     [|destruct (difierline_magicnum f =? CFF_MAGIC) eqn:Hm; simpl;
       [apply Z.eqb_eq in Hm|apply Z.eqb_neq in Hm]]|];
    try destruct (clear_bit0 (difierline_mode f)) as [Hc Hb];
    split_and!; auto; try done;
    try (split; [done|]; intros (? & ? & ?); done);
    try (intros [? ?]; done);
    try (intros _ _; unfold has_flag, OBFUSCATE_CFF; by rewrite Hc).
Qed.

(** ** Packing of VM words *)

Lemma testbit_small (x n i : Z) : 0 <= x < 2 ^ n -> n <= i -> Z.testbit x i = false.
Proof.
  intros Hx Hi. destruct (Z.eq_dec x 0) as [->|Hne]; [apply Z.bits_0|].
  apply Z.bits_above_log2; [lia|].
  assert (0 <= n) by (destruct (Z.le_gt_cases 0 n); [done|];
                      rewrite Z.pow_neg_r in Hx; lia).
  assert (Z.log2 x < n) by (apply Z.log2_lt_pow2; lia). lia.
Qed.

Lemma lor_disjoint (hi lo n : Z) :
  0 <= n -> 0 <= lo < 2 ^ n -> Z.lor (hi * 2 ^ n) lo = hi * 2 ^ n + lo.
Proof.
  intros Hn Hlo.
  assert (Hland : Z.land (hi * 2 ^ n) lo = 0).
  { apply Z.bits_inj'. intros i Hi. rewrite Z.land_spec, Z.bits_0.
    destruct (Z.lt_ge_cases i n).
    - by rewrite Z.mul_pow2_bits_low.
    - rewrite (testbit_small lo n i) by lia. apply andb_false_r. }
  rewrite <- Z.lxor_lor by done. symmetry. by apply Z.add_nocarry_lxor.
Qed.

Lemma uint64_small (x : Z) : 0 <= x < 2 ^ 64 -> uint64 x = x.
Proof. intros Hx. unfold uint64. by apply Z.mod_small. Qed.

Lemma VM_MAKE_INST_sum (op a b c flags : Z) :
  0 <= op < 256 -> 0 <= a < 65536 -> 0 <= b < 65536 -> 0 <= c < 65536 ->
  0 <= flags < 256 ->
  VM_MAKE_INST op a b c flags
  = op * 2 ^ 56 + a * 2 ^ 40 + b * 2 ^ 24 + c * 2 ^ 8 + flags.
Proof.
  intros Hop Ha Hb Hc Hf. unfold VM_MAKE_INST, shl64.
  rewrite (uint64_small op), (uint64_small a), (uint64_small b), (uint64_small c),
    (uint64_small flags) by lia.
  rewrite !Z.shiftl_mul_pow2 by lia.
  rewrite !uint64_small by lia.
  rewrite (lor_disjoint op (a * 2 ^ 40) 56) by lia.
  replace (op * 2 ^ 56 + a * 2 ^ 40) with ((op * 2 ^ 16 + a) * 2 ^ 40) by lia.
  rewrite (lor_disjoint _ (b * 2 ^ 24) 40) by lia.
  replace ((op * 2 ^ 16 + a) * 2 ^ 40 + b * 2 ^ 24)
    with ((op * 2 ^ 32 + a * 2 ^ 16 + b) * 2 ^ 24) by lia.
  rewrite (lor_disjoint _ (c * 2 ^ 8) 24) by lia.
  replace ((op * 2 ^ 32 + a * 2 ^ 16 + b) * 2 ^ 24 + c * 2 ^ 8)
    with ((op * 2 ^ 48 + a * 2 ^ 32 + b * 2 ^ 16 + c) * 2 ^ 8) by lia.
  rewrite (lor_disjoint _ flags 8) by lia. lia.
Qed.

(** X8. A VM word packed by [VM_MAKE_INST] from an opcode and flags of
    eight bits and operands of sixteen bits is a 64-bit word from which
    [VM_GET_OP], [VM_GET_A], [VM_GET_B], [VM_GET_C] and [VM_GET_FLAGS]
    read the five fields back. *)
Theorem VM_fields_roundtrip (op a b c flags : Z) :
  0 <= op < 256 -> 0 <= a < 65536 -> 0 <= b < 65536 -> 0 <= c < 65536 ->
  0 <= flags < 256 ->
  is_uint64 (VM_MAKE_INST op a b c flags)
  /\ VM_GET_OP (VM_MAKE_INST op a b c flags) = op
  /\ VM_GET_A (VM_MAKE_INST op a b c flags) = a
  /\ VM_GET_B (VM_MAKE_INST op a b c flags) = b
  /\ VM_GET_C (VM_MAKE_INST op a b c flags) = c
  /\ VM_GET_FLAGS (VM_MAKE_INST op a b c flags) = flags.
Proof.
  intros Hop Ha Hb Hc Hf. rewrite VM_MAKE_INST_sum by done.
  unfold VM_GET_OP, VM_GET_A, VM_GET_B, VM_GET_C, VM_GET_FLAGS, is_uint64.
  change 0xFF with (Z.ones 8). change 0xFFFF with (Z.ones 16).
  rewrite !Z.land_ones, !Z.shiftr_div_pow2 by lia.
  change (2 ^ 64) with 18446744073709551616.
  change (2 ^ 56) with 72057594037927936. change (2 ^ 40) with 1099511627776.
  change (2 ^ 24) with 16777216. change (2 ^ 16) with 65536.
  change (2 ^ 8) with 256.
  split_and!; try lia; Z.div_mod_to_equations; lia.
Qed.

(** A [HALT] (VM opcode [46]), packed and read back. *)
Lemma VM_fields_roundtrip_witness :
  (0 <= 46 < 256 /\ 0 <= 1 < 65536 /\ 0 <= 65535 < 65536 /\ 0 <= 2 < 65536
   /\ 0 <= 1 < 256)
  /\ VM_MAKE_INST 46 1 65535 2 1 = 0x2E0001FFFF000201
  /\ VM_GET_OP (VM_MAKE_INST 46 1 65535 2 1) = 46
  /\ VM_GET_B (VM_MAKE_INST 46 1 65535 2 1) = 65535.
Proof.
  assert (H1 : 0 <= 46 < 256) by lia. assert (H2 : 0 <= 1 < 65536) by lia.
  assert (H3 : 0 <= 65535 < 65536) by lia. assert (H4 : 0 <= 2 < 65536) by lia.
  assert (H5 : 0 <= 1 < 256) by lia.
  split; [exact (conj H1 (conj H2 (conj H3 (conj H4 H5))))|].
  destruct (VM_fields_roundtrip 46 1 65535 2 1 H1 H2 H3 H4 H5) as (_ & Hop & _ & Hb & _).
  split; [reflexivity|]. split; [exact Hop|exact Hb].
Defined.

(** X9. The packing is lossy for a negative first operand, such as the
    offset of a backward jump: its sign bits run over the opcode field,
    which then reads [255] whatever the opcode was. *)
Theorem VM_negative_operand_hides_opcode (op a b c flags : Z) :
  -65536 <= a < 0 ->
  VM_GET_OP (VM_MAKE_INST op a b c flags) = 255.
Proof.
  intros Ha. unfold VM_GET_OP, VM_MAKE_INST.
  apply Z.bits_inj'. intros i Hi.
  rewrite Z.land_spec, Z.shiftr_spec by lia.
  destruct (Z.lt_ge_cases i 8) as [Hlt|Hge].
  - replace (Z.testbit 255 i) with true
      by (symmetry; change 255 with (Z.ones 8); apply Z.ones_spec_low; lia).
    rewrite andb_true_r, !Z.lor_spec.
    assert (HA : Z.testbit (shl64 (uint64 a) 40) (i + 56) = true).
    { unfold shl64. rewrite testbit_uint64 by lia.
      rewrite Z.shiftl_spec by lia. rewrite testbit_uint64 by lia.
      replace (i + 56 <? 64) with true by (symmetry; apply Z.ltb_lt; lia).
      replace (i + 56 - 40 <? 64) with true by (symmetry; apply Z.ltb_lt; lia).
      simpl. replace a with (- (- a)) by lia. rewrite Z.bits_opp by lia.
      rewrite (testbit_small (Z.pred (- a)) 16) by lia. done. }
    rewrite HA. by rewrite orb_true_r.
  - replace (Z.testbit 255 i) with false; [apply andb_false_r|].
    symmetry. apply (testbit_small 255 8); lia.
Qed.

(** A [JMP] three instructions back, with the VM opcode [18]. *)
Lemma VM_negative_operand_witness :
  -65536 <= -4 < 0 /\ VM_GET_OP (VM_MAKE_INST 18 (-4) 0 0 0) = 255.
Proof.
  assert (Ha : -65536 <= -4 < 0) by lia.
  split; [exact Ha|]. exact (VM_negative_operand_hides_opcode 18 (-4) 0 0 0 Ha).
Defined.

(** ** Invariants of code generation *)

Lemma keeps_ret {S A} (P : S -> Prop) (a : A) : keeps P (mret a).
Proof. intros s o s' HP Heq. cbv in Heq. by simplify_eq. Qed.

Lemma keeps_fail {S A} (P : S -> Prop) : keeps P (@failM S A).
Proof. intros s o s' HP Heq. cbv in Heq. by simplify_eq. Qed.

Lemma keeps_get {S} (P : S -> Prop) : keeps P getM.
Proof. intros s o s' HP Heq. cbv in Heq. by simplify_eq. Qed.

Lemma keeps_modify {S} (P : S -> Prop) (g : S -> S) :
  (forall s, P s -> P (g s)) -> keeps P (modifyM g).
Proof. intros Hg s o s' HP Heq. unfold modifyM in Heq. simplify_eq. by apply Hg. Qed.

Lemma keeps_bind {S A B} (P : S -> Prop) (m : M S A) (k : A -> M S B) :
  keeps P m -> (forall a, keeps P (k a)) -> keeps P (mbind k m).
Proof.
  intros Hm Hk s o s' HP Heq. unfold mbind, M_bind in Heq.
  destruct (m s) as [[a|] s1] eqn:Hms.
  - eapply Hk; [|exact Heq]. by eapply Hm.
  - simplify_eq. by eapply Hm.
Qed.

Lemma keeps_foldM {S A B} (P : S -> Prop) (body : B -> A -> M S B) (l : list A) :
  (forall b x, keeps P (body b x)) -> forall b, keeps P (foldM body l b).
Proof.
  intros Hbody. induction l as [|x l IH]; intros b; simpl.
  - apply keeps_ret.
  - apply keeps_bind; [apply Hbody|apply IH].
Qed.

Lemma keeps_forM {S A} (P : S -> Prop) (l : list A) (body : A -> M S unit) :
  (forall x, keeps P (body x)) -> keeps P (forM l body).
Proof. intros Hbody. unfold forM. apply keeps_foldM. intros _ x. apply Hbody. Qed.

(** One step of a proof that a generator keeps an invariant: through
    binds, loops and branches, down to the hypotheses on the primitives. *)
Ltac keeps_step :=
  match goal with
  | |- keeps _ (mret _) => apply keeps_ret
  | |- keeps _ failM => apply keeps_fail
  | |- keeps _ getM => apply keeps_get
  | H : forall x, keeps ?P (?f x) |- keeps ?P (?f _) => apply H
  | H : forall x y, keeps ?P (?f x y) |- keeps ?P (?f _ _) => apply H
  | H : forall x y z, keeps ?P (?f x y z) |- keeps ?P (?f _ _ _) => apply H
  | H : keeps ?P ?m |- keeps ?P ?m => exact H
  | |- keeps _ (mbind _ _) => apply keeps_bind; [|intros ?]
  | |- keeps _ (foldM _ _ _) => apply keeps_foldM; intros ? ?
  | |- keeps _ (forM _ _) => apply keeps_forM; intros ?
  | |- keeps _ (modifyM _) => apply keeps_modify; intros ? ?
  | |- keeps _ (if ?c then _ else _) => destruct c
  | |- keeps _ (match ?x with _ => _ end) => destruct x
  | |- keeps _ (let _ := _ in _) => cbv zeta
  end.

Create HintDb keeps.

Section Generators.
Context `{Encoding}.
Variable P : CFFContext -> Prop.
Hypothesis P_alloc : keeps P ctx_alloc.
Hypothesis P_emit : forall inst, keeps P (emitInstruction inst).
Hypothesis P_patch : forall pc offset, keeps P (patch_sJ pc offset).
Hypothesis P_dispatcher_pc : forall v s, P s -> P (set_dispatcher_pc v s).
Hypothesis P_outer_dispatcher_pc : forall v s, P s -> P (set_outer_dispatcher_pc v s).
Hypothesis P_num_fake_funcs : forall v s, P s -> P (set_num_fake_funcs v s).
Hypothesis P_num_groups : forall v s, P s -> P (set_num_groups v s).
Hypothesis P_group_starts : forall v s, P s -> P (set_group_starts v s).

Lemma keeps_emit_ inst : keeps P (emit_ inst).
Proof. unfold emit_. repeat keeps_step. Qed.

Lemma keeps_emit_jmp_to target : keeps P (emit_jmp_to target).
Proof. unfold emit_jmp_to. repeat keeps_step. apply keeps_emit_. Qed.

#[local] Hint Resolve keeps_emit_ keeps_emit_jmp_to : keeps.

Ltac keeps_all := repeat first [solve [auto 2 with keeps] | keeps_step].

Lemma keeps_emit_bogus_insts n sd : keeps P (emit_bogus_insts n sd).
Proof. unfold emit_bogus_insts. keeps_all. Qed.

#[local] Hint Resolve keeps_emit_bogus_insts : keeps.

Lemma keeps_emitBogusBlock st sd : keeps P (emitBogusBlock st sd).
Proof. unfold emitBogusBlock. keeps_all. Qed.

Lemma keeps_emitAlwaysTruePredicate sd : keeps P (emitAlwaysTruePredicate sd).
Proof. unfold emitAlwaysTruePredicate. keeps_all. Qed.

Lemma keeps_emitAlwaysFalsePredicate sd : keeps P (emitAlwaysFalsePredicate sd).
Proof. unfold emitAlwaysFalsePredicate. keeps_all. Qed.

#[local] Hint Resolve keeps_emitAlwaysTruePredicate keeps_emitAlwaysFalsePredicate : keeps.

Lemma keeps_emitOpaquePredicate type sd : keeps P (luaO_emitOpaquePredicate type sd).
Proof. unfold luaO_emitOpaquePredicate. keeps_all. Qed.

#[local] Hint Resolve keeps_emitOpaquePredicate : keeps.

Lemma keeps_emitFakeFunctionBlock func_type block_idx sd :
  keeps P (emitFakeFunctionBlock func_type block_idx sd).
Proof. unfold emitFakeFunctionBlock. keeps_all. Qed.

Lemma keeps_emitFakeFunction func_id : keeps P (emitFakeFunction func_id).
Proof. unfold emitFakeFunction. keeps_all. Qed.

#[local] Hint Resolve keeps_emitFakeFunctionBlock keeps_emitFakeFunction : keeps.

Lemma keeps_emitFakeFunctionBlocks func_id sd entry_jmp_pc :
  keeps P (emitFakeFunctionBlocks func_id sd entry_jmp_pc).
Proof. unfold emitFakeFunctionBlocks. keeps_all. Qed.

#[local] Hint Resolve keeps_emitFakeFunctionBlocks : keeps.

Lemma keeps_emit_state_compare reg state : keeps P (emit_state_compare reg state).
Proof. unfold emit_state_compare. keeps_all. Qed.

#[local] Hint Resolve keeps_emit_state_compare : keeps.

Lemma keeps_emit_opaque_guard sd : keeps P (emit_opaque_guard sd).
Proof. unfold emit_opaque_guard. keeps_all. Qed.

#[local] Hint Resolve keeps_emit_opaque_guard : keeps.

Lemma keeps_emit_real_compare st i : keeps P (emit_real_compare st i).
Proof. unfold emit_real_compare. keeps_all. Qed.

Lemma keeps_emit_bogus_compare bogus_states pcs i :
  keeps P (emit_bogus_compare bogus_states pcs i).
Proof. unfold emit_bogus_compare. keeps_all. Qed.

Lemma keeps_copy_range lo hi : keeps P (copy_range lo hi).
Proof. unfold copy_range. keeps_all. Qed.

#[local] Hint Resolve keeps_emit_real_compare keeps_emit_bogus_compare
  keeps_copy_range : keeps.

Lemma keeps_emit_block starts i : keeps P (emit_block starts i).
Proof. unfold emit_block. keeps_all. Qed.

Lemma keeps_backpatch pcs starts i : keeps P (backpatch pcs starts i).
Proof. unfold backpatch. keeps_all. Qed.

#[local] Hint Resolve keeps_emit_block keeps_backpatch : keeps.

Lemma keeps_generateDispatcher_log : keeps P generateDispatcher_log.
Proof. unfold generateDispatcher_log. keeps_all. Qed.

Lemma keeps_generateDispatcher : keeps P luaO_generateDispatcher.
Proof.
  unfold luaO_generateDispatcher. apply keeps_bind; [|intros ?; apply keeps_ret].
  apply keeps_generateDispatcher_log.
Qed.

Lemma keeps_partitionBlocksIntoGroups : keeps P partitionBlocksIntoGroups.
Proof. unfold partitionBlocksIntoGroups. keeps_all. Qed.

#[local] Hint Resolve keeps_partitionBlocksIntoGroups : keeps.

Lemma keeps_emit_inner_dispatcher pcs st g : keeps P (emit_inner_dispatcher pcs st g).
Proof. unfold emit_inner_dispatcher. keeps_all. Qed.

Lemma keeps_emit_nested_block pcs starts i : keeps P (emit_nested_block pcs starts i).
Proof. unfold emit_nested_block. keeps_all. Qed.

#[local] Hint Resolve keeps_emit_inner_dispatcher keeps_emit_nested_block : keeps.

Lemma keeps_generateNestedDispatcher : keeps P luaO_generateNestedDispatcher.
Proof. unfold luaO_generateNestedDispatcher. keeps_all. Qed.

End Generators.

(** ** The code buffer *)

Lemma double_until_ge (fuel : nat) : forall required cap,
  1 <= cap -> required <= cap * 2 ^ Z.of_nat fuel ->
  required <= double_until fuel required cap.
Proof.
  induction fuel as [|n IH]; intros required cap Hcap Hreq; simpl double_until.
  - simpl in Hreq. lia.
  - destruct (cap <? required) eqn:E; [|lia].
    apply IH; [lia|]. rewrite Nat2Z.inj_succ, Z.pow_succ_r in Hreq; lia.
Qed.

Lemma double_until_bounds (fuel : nat) : forall required cap,
  1 <= cap ->
  cap <= double_until fuel required cap
  /\ (double_until fuel required cap = cap
      \/ double_until fuel required cap < 2 * required).
Proof.
  induction fuel as [|n IH]; intros required cap Hcap; simpl double_until.
  - lia.
  - destruct (cap <? required) eqn:E; [|lia]. apply Z.ltb_lt in E.
    destruct (IH required (cap * 2) ltac:(lia)) as [Hle [Heq|Hlt]]; lia.
Qed.

Lemma double_until_enough (required cap : Z) :
  1 <= cap -> required <= double_until (Z.to_nat required) required cap.
Proof.
  intros Hcap. destruct (Z.le_gt_cases required 0) as [Hneg|Hpos].
  - pose proof (double_until_bounds (Z.to_nat required) required cap Hcap). lia.
  - apply double_until_ge; [done|]. rewrite Z2Nat.id by lia.
    pose proof (Z.pow_gt_lin_r 2 required ltac:(lia) ltac:(lia)). nia.
Qed.

(** What [ensureCodeCapacity] and [emitInstruction] leave alone. *)
Lemma ensureCodeCapacity_inv (needed : Z) (ctx ctx' : CFFContext) (o : option unit) :
  ensureCodeCapacity needed ctx = (o, ctx') ->
  new_code ctx' = new_code ctx /\ analysis ctx' = analysis ctx
  /\ dispatcher_pc ctx' = dispatcher_pc ctx
  /\ vm_code_list (ctx_L ctx') = vm_code_list (ctx_L ctx)
  /\ (allocs (ctx_L ctx') <= allocs (ctx_L ctx))%nat
  /\ match o with
     | Some _ =>
       new_code_capacity ctx' = new_code_capacity ctx
       /\ new_code_size ctx + needed <= new_code_capacity ctx
       \/ new_code_capacity ctx < new_code_size ctx + needed
          /\ allocs (ctx_L ctx) = S (allocs (ctx_L ctx'))
          /\ new_code_capacity ctx'
             = double_until (Z.to_nat (new_code_size ctx + needed))
                 (new_code_size ctx + needed)
                 (if new_code_capacity ctx =? 0 then INITIAL_CODE_CAPACITY
                  else new_code_capacity ctx)
     | None =>
       ctx' = ctx /\ allocs (ctx_L ctx) = 0%nat
       /\ new_code_capacity ctx < new_code_size ctx + needed
     end.
Proof.
  unfold ensureCodeCapacity, mbind, M_bind, getM, mret, M_ret, modifyM, ctx_alloc,
    luaM_malloc_.
  destruct (new_code_size ctx + needed <=? new_code_capacity ctx) eqn:E.
  - intros Heq. simplify_eq. apply Z.leb_le in E. split_and!; auto.
  - apply Z.leb_gt in E. destruct (allocs (ctx_L ctx)) as [|n] eqn:Ha.
    + intros Heq. simplify_eq. split_and!; auto; lia.
    + intros Heq. simplify_eq. simpl. split_and!; auto; lia.
Qed.

Lemma emitInstruction_inv (inst : Instruction) (ctx ctx' : CFFContext) (o : option Z) :
  emitInstruction inst ctx = (o, ctx') ->
  analysis ctx' = analysis ctx
  /\ (within_capacity ctx -> within_capacity ctx')
  /\ dispatcher_pc ctx' = dispatcher_pc ctx
  /\ vm_code_list (ctx_L ctx') = vm_code_list (ctx_L ctx)
  /\ (allocs (ctx_L ctx') <= allocs (ctx_L ctx))%nat
  /\ match o with
     | Some pc => pc = new_code_size ctx /\ new_code ctx' = new_code ctx ++ [inst]
     | None =>
       ctx' = ctx /\ allocs (ctx_L ctx) = 0%nat
       /\ new_code_capacity ctx < new_code_size ctx + 1
     end.
Proof.
  unfold emitInstruction. unfold mbind at 1, M_bind at 1.
  destruct (ensureCodeCapacity 1 ctx) as [[[]|] s1] eqn:He;
    apply ensureCodeCapacity_inv in He as (Hc & Han & Hd & Hv & Ha & Ho).
  - unfold mbind, M_bind, getM, modifyM, mret, M_ret. intros Heq. simplify_eq. simpl.
    split_and!; auto.
    + unfold analysis. simpl. congruence.
    + unfold within_capacity, new_code_size in *. simpl. rewrite length_app, Hc. simpl.
      intros [Hcap Hsize].
      destruct Ho as [[-> ?]|(Hlt & _ & ->)]; [lia|].
      match goal with |- context [double_until ?n ?r ?c] =>
        pose proof (double_until_enough r c) as Hd1;
        pose proof (double_until_bounds n r c) as Hd2 end.
      destruct (new_code_capacity ctx =? 0) eqn:E; unfold INITIAL_CODE_CAPACITY in *; lia.
    + unfold new_code_size. by rewrite Hc.
    + by rewrite Hc.
  - intros Heq. simplify_eq. destruct Ho as (-> & ? & ?). split_and!; auto.
Qed.

(** X10. On a context whose buffer holds its code, [emitInstruction]
    either appends the instruction, answering the offset it now occupies
    (the code size before the call), leaving every instruction emitted
    earlier in place and the code within the buffer, or fails without
    touching the context; it fails only when the buffer is full and the
    allocator refuses to grow it. *)
Theorem emitInstruction_appends (inst : Instruction) (ctx ctx' : CFFContext)
    (o : option Z) :
  within_capacity ctx ->
  emitInstruction inst ctx = (o, ctx') ->
  match o with
  | Some pc =>
    pc = new_code_size ctx
    /\ new_code ctx' = new_code ctx ++ [inst]
    /\ at_ dummy_inst (new_code ctx') pc = inst
    /\ (forall j, 0 <= j < pc ->
        at_ dummy_inst (new_code ctx') j = at_ dummy_inst (new_code ctx) j)
    /\ new_code_size ctx' <= new_code_capacity ctx'
    /\ analysis ctx' = analysis ctx
  | None =>
    ctx' = ctx /\ allocs (ctx_L ctx) = 0%nat
    /\ new_code_capacity ctx < new_code_size ctx + 1
  end.
Proof.
  intros Hcap Heq. apply emitInstruction_inv in Heq as (Han & Hin & _ & _ & _ & Ho).
  destruct o as [pc|]; [|done]. destruct Ho as [-> Hc].
  split_and!; auto.
  - rewrite Hc. apply at_lookup; [unfold new_code_size; lia|].
    unfold new_code_size. rewrite Nat2Z.id, lookup_app_r, Nat.sub_diag by lia. done.
  - intros j Hj. rewrite Hc. unfold at_, new_code_size in *.
    destruct (j <? 0); [done|]. rewrite lookup_app_l by lia. done.
  - apply Hin, Hcap.
Qed.

(** The first instruction of a dispatcher, emitted for [less_than]. *)
Lemma emitInstruction_appends_witness :
  exists ctx',
    (within_capacity less_than_blocks
     /\ @emitInstruction (I_ABx OP_LOADI 3 65535) less_than_blocks = (Some 0, ctx'))
    /\ new_code ctx' = [I_ABx OP_LOADI 3 65535]
    /\ at_ dummy_inst (new_code ctx') 0 = I_ABx OP_LOADI 3 65535.
Proof.
  assert (Hcap : within_capacity less_than_blocks) by (vm_compute; split; discriminate).
  eexists.
  assert (Heq : @emitInstruction (I_ABx OP_LOADI 3 65535) less_than_blocks
                = (Some 0, _)) by (vm_compute; reflexivity).
  split; [exact (conj Hcap Heq)|].
  pose proof (emitInstruction_appends _ _ _ _ Hcap Heq) as (_ & Hc & Hat & _).
  split; [exact Hc|exact Hat].
Defined.

(** ** What code generation keeps *)

Lemma length_upd_code (l : list Instruction) (i : Z) (v : Instruction) :
  Z.of_nat (length (upd l i v)) = Z.of_nat (length l).
Proof. by rewrite length_upd. Qed.

Section GeneratorInvariants.
Context `{Encoding}.

Lemma opcode_SETARG_sJ (i : Instruction) (j : Z) :
  GET_OPCODE (SETARG_sJ i j) = GET_OPCODE i.
Proof. by destruct i. Qed.

Lemma within_capacity_generators (ctx ctx' : CFFContext) (o : option unit) :
  within_capacity ctx ->
  luaO_generateDispatcher ctx = (o, ctx')
  \/ luaO_generateNestedDispatcher ctx = (o, ctx') ->
  within_capacity ctx'.
Proof.
  assert (Halloc : keeps within_capacity ctx_alloc).
  { intros s o' s' HP Heq. unfold ctx_alloc in Heq.
    destruct (luaM_malloc_ (ctx_L s)); by simplify_eq. }
  assert (Hemit : forall inst, keeps within_capacity (emitInstruction inst)).
  { intros inst s o' s' HP Heq. apply emitInstruction_inv in Heq. by apply Heq. }
  assert (Hpatch : forall pc offset, keeps within_capacity (patch_sJ pc offset)).
  { intros pc offset s o' s' HP Heq. unfold patch_sJ, modifyM in Heq. simplify_eq.
    unfold within_capacity, new_code_size in *. simpl. by rewrite length_upd. }
  intros HP [Heq|Heq].
  - eapply (keeps_generateDispatcher within_capacity); eauto.
  - eapply (keeps_generateNestedDispatcher within_capacity); eauto.
Qed.

Lemma only_appends_generators (ctx ctx' : CFFContext) (o : option unit) :
  luaO_generateDispatcher ctx = (o, ctx')
  \/ luaO_generateNestedDispatcher ctx = (o, ctx') ->
  only_appends ctx ctx'.
Proof.
  set (P := only_appends ctx).
  assert (Halloc : keeps P ctx_alloc).
  { intros s o' s' HP Heq. unfold ctx_alloc, luaM_malloc_ in Heq.
    destruct (allocs (ctx_L s)) eqn:E; simplify_eq; [exact HP|].
    destruct HP as (? & ? & ? & ?).
    unfold P, only_appends. simpl. split_and!; auto. lia. }
  assert (Hemit : forall inst, keeps P (emitInstruction inst)).
  { intros inst s o' s' (Ha & Hv & Hn & Hp) Heq.
    apply emitInstruction_inv in Heq as (Ha' & _ & _ & Hv' & Hn' & Ho).
    unfold P, only_appends. split_and!; try congruence; try lia.
    destruct o' as [pc|].
    - destruct Ho as [_ ->]. rewrite fmap_app. by apply prefix_app_r.
    - by destruct Ho as [-> _]. }
  assert (Hpatch : forall pc offset, keeps P (patch_sJ pc offset)).
  { intros pc offset s o' s' (Ha & Hv & Hn & Hp) Heq.
    unfold patch_sJ, modifyM in Heq. simplify_eq.
    unfold P, only_appends. split_and!;
      [unfold analysis; simpl; congruence|exact Hv|exact Hn|].
    change (GET_OPCODE <$> new_code ctx `prefix_of`
            GET_OPCODE <$> upd (new_code s) pc
                             (SETARG_sJ (at_ dummy_inst (new_code s) pc) offset)).
    rewrite (fmap_upd_same GET_OPCODE dummy_inst); [done|]. apply opcode_SETARG_sJ. }
  assert (HP : P ctx) by (unfold P, only_appends; auto).
  intros [Heq|Heq].
  - eapply (keeps_generateDispatcher P); eauto; intros ? ? HPs; exact HPs.
  - eapply (keeps_generateNestedDispatcher P); eauto; intros ? ? HPs; exact HPs.
Qed.


End GeneratorInvariants.


(** ** Looking blocks up *)

Lemma find_index_from_fmap {A B} (g : A -> B) (q : B -> bool) (l : list A) :
  forall k, find_index_from (fun x => q (g x)) l k = find_index_from q (g <$> l) k.
Proof.
  induction l as [|x l IH]; intros k; simpl; [done|].
  destruct (q (g x)); [done|]. apply IH.
Qed.

Lemma find_index_from_result {A} (p : A -> bool) (l : list A) :
  forall k r, 0 <= k -> find_index_from p l k = r ->
    r = -1 /\ Forall (fun x => p x = false) l
    \/ exists (i : nat) x,
         r = k + Z.of_nat i /\ l !! i = Some x /\ p x = true
         /\ forall (j : nat) y, (j < i)%nat -> l !! j = Some y -> p y = false.
Proof.
  induction l as [|x l IH]; intros k r Hk; simpl.
  - intros <-. by left.
  - destruct (p x) eqn:Hp.
    + intros <-. right. exists 0%nat, x. split_and!; [lia|done|done|]. intros; lia.
    + intros Hr. apply IH in Hr; [|lia].
      destruct Hr as [[-> Hall]|(i & y & -> & Hi & Hy & Hfirst)].
      * left. split; [done|]. by constructor.
      * right. exists (S i), y. split_and!; [lia|done|done|].
        intros [|j] z Hj Hz; simpl in Hz; [by simplify_eq|]. eapply Hfirst; [|done]. lia.
Qed.

Lemma chained_find_start (bs : list BasicBlock) :
  forall lo hi k (i : nat) b,
    chained lo bs hi -> bs !! i = Some b ->
    find_index_from (fun x => start_pc x =? start_pc b) bs k = k + Z.of_nat i.
Proof.
  induction bs as [|b0 bs IH]; intros lo hi k i b Hch Hi; [done|].
  destruct Hch as (Hs & Hlt & Hch). simpl.
  destruct i as [|i]; simpl in Hi.
  - simplify_eq. rewrite Z.eqb_refl. lia.
  - pose proof (chained_lookup bs _ _ i b Hch Hi) as (Hge & _).
    replace (start_pc b0 =? start_pc b) with false by (symmetry; apply Z.eqb_neq; lia).
    rewrite (IH _ _ (k + 1) i b Hch Hi). lia.
Qed.

Lemma chained_find_pc (bs : list BasicBlock) :
  forall lo hi k pc,
    chained lo bs hi -> lo <= pc < hi ->
    exists (i : nat) b,
      find_index_from (fun x => (start_pc x <=? pc) && (pc <? end_pc x)) bs k
      = k + Z.of_nat i
      /\ bs !! i = Some b /\ start_pc b <= pc < end_pc b.
Proof.
  induction bs as [|b0 bs IH]; intros lo hi k pc Hch Hpc.
  - simpl in Hch. lia.
  - destruct Hch as (Hs & Hlt & Hch). simpl.
    destruct (Z.lt_ge_cases pc (end_pc b0)) as [Hin|Hout].
    + exists 0%nat, b0.
      replace ((start_pc b0 <=? pc) && (pc <? end_pc b0)) with true
        by (symmetry; apply andb_true_iff; split; [apply Z.leb_le|apply Z.ltb_lt]; lia).
      split_and!; [lia|done|lia|lia].
    + replace ((start_pc b0 <=? pc) && (pc <? end_pc b0)) with false
        by (symmetry; apply andb_false_iff; right; apply Z.ltb_ge; lia).
      destruct (IH _ _ (k + 1) pc Hch ltac:(lia)) as (i & b & Hf & Hi & Hb).
      exists (S i), b. split_and!; [lia|done|lia|lia].
Qed.

Lemma chained_find_outside (bs : list BasicBlock) :
  forall lo hi k pc,
    chained lo bs hi -> pc < lo \/ hi <= pc ->
    find_index_from (fun x => (start_pc x <=? pc) && (pc <? end_pc x)) bs k = -1.
Proof.
  induction bs as [|b0 bs IH]; intros lo hi k pc Hch Hpc; [done|].
  destruct Hch as (Hs & Hlt & Hch). simpl.
  assert (end_pc b0 <= hi).
  { destruct bs as [|b1 bs']; [simpl in Hch; lia|].
    pose proof (chained_lookup (b1 :: bs') _ _ 0%nat b1 Hch eq_refl). lia. }
  replace ((start_pc b0 <=? pc) && (pc <? end_pc b0)) with false.
  - apply (IH _ _ (k + 1) pc Hch). lia.
  - symmetry. apply andb_false_iff.
    destruct Hpc; [left; apply Z.leb_gt|right; apply Z.ltb_ge]; lia.
Qed.

Section Lookup.
Context `{Encoding}.

(** X12. After [luaO_identifyBlocks], [findBlockByPC] finds for every
    offset of the code the one block that holds it, and answers [-1]
    for every offset outside the code. *)
Theorem findBlockByPC_finds_the_block (ctx ctx' : CFFContext) (pc : Z) :
  blocks ctx = [] ->
  luaO_identifyBlocks ctx = (Some tt, ctx') ->
  (0 <= pc < sizecode (ctx_f ctx) ->
   exists (i : nat) b,
     findBlockByPC ctx' pc = Z.of_nat i
     /\ blocks ctx' !! i = Some b /\ start_pc b <= pc < end_pc b)
  /\ (pc < 0 \/ sizecode (ctx_f ctx) <= pc -> findBlockByPC ctx' pc = -1).
Proof.
  intros Hb Hrun. apply identifyBlocks_chained in Hrun as (_ & _ & Hch & _); [|done].
  split.
  - intros Hpc. destruct (chained_find_pc _ _ _ 0 pc Hch Hpc) as (i & b & Hf & Hi & Hin).
    exists i, b. unfold findBlockByPC. rewrite Hf. split_and!; [lia|done|lia|lia].
  - intros Hpc. unfold findBlockByPC.
    by apply (chained_find_outside _ 0 (sizecode (ctx_f ctx))).
Qed.

(** X13. After [luaO_identifyBlocks], [findBlockStartingAt] answers the
    index of a block for the offset the block starts at; for any offset
    and any context its answer is [-1], when no block starts there, or
    the index of the first block that does. *)
Theorem findBlockStartingAt_inverts_start_pc (ctx ctx' : CFFContext) :
  blocks ctx = [] ->
  luaO_identifyBlocks ctx = (Some tt, ctx') ->
  (forall (i : nat) b,
     blocks ctx' !! i = Some b -> findBlockStartingAt ctx' (start_pc b) = Z.of_nat i)
  /\ (forall pc,
        findBlockStartingAt ctx' pc = -1
        /\ Forall (fun b => start_pc b <> pc) (blocks ctx')
        \/ exists (i : nat) b,
             findBlockStartingAt ctx' pc = Z.of_nat i
             /\ blocks ctx' !! i = Some b /\ start_pc b = pc).
Proof.
  intros Hb Hrun. apply identifyBlocks_chained in Hrun as (_ & _ & Hch & _); [|done].
  split.
  - intros i b Hi. unfold findBlockStartingAt.
    rewrite (chained_find_start _ _ _ 0 i b Hch Hi). lia.
  - intros pc. unfold findBlockStartingAt.
    destruct (find_index_from_result (fun b => start_pc b =? pc) (blocks ctx') 0 _
                ltac:(lia) eq_refl) as [[Hr Hall]|(i & b & Hr & Hi & Hp & _)].
    + left. split; [done|]. eapply Forall_impl; [exact Hall|].
      intros b Hne. simpl in Hne. by apply Z.eqb_neq.
    + right. exists i, b. split_and!; [lia|done|]. by apply Z.eqb_eq.
Qed.

End Lookup.

(** Offset [4] of [less_than] lies in its third block, offset [6] in
    none. *)
Lemma findBlockByPC_witness :
  (blocks less_than_ctx = []
   /\ @luaO_identifyBlocks reference_encoding less_than_ctx = (Some tt, less_than_blocks))
  /\ findBlockByPC less_than_blocks 4 = 2
  /\ findBlockByPC less_than_blocks 6 = -1.
Proof.
  assert (Hb : blocks less_than_ctx = []) by reflexivity.
  assert (Hrun : @luaO_identifyBlocks reference_encoding less_than_ctx
                 = (Some tt, less_than_blocks)) by (vm_compute; reflexivity).
  split; [exact (conj Hb Hrun)|].
  destruct (@findBlockByPC_finds_the_block reference_encoding _ _ 6 Hb Hrun) as [_ Hout].
  split; [reflexivity|]. apply Hout. right. vm_compute. discriminate.
Defined.

(** The third block of [less_than] starts at offset [3]. *)
Lemma findBlockStartingAt_witness :
  (blocks less_than_ctx = []
   /\ @luaO_identifyBlocks reference_encoding less_than_ctx = (Some tt, less_than_blocks))
  /\ findBlockStartingAt less_than_blocks 3 = 2.
Proof.
  assert (Hb : blocks less_than_ctx = []) by reflexivity.
  assert (Hrun : @luaO_identifyBlocks reference_encoding less_than_ctx
                 = (Some tt, less_than_blocks)) by (vm_compute; reflexivity).
  split; [exact (conj Hb Hrun)|].
  destruct (@findBlockStartingAt_inverts_start_pc reference_encoding _ _ Hb Hrun)
    as [Hfind _].
  exact (Hfind 2%nat _ eq_refl).
Defined.

(** ** The three passes of the analyzer *)

Lemma at_upd_same {A} (d : A) (l : list A) (i : Z) (v : A) :
  0 <= i < Z.of_nat (length l) -> at_ d (upd l i v) i = v.
Proof.
  intros Hi. unfold at_, upd. destruct (i <? 0) eqn:E; [lia|].
  rewrite list_lookup_insert_eq by lia. done.
Qed.

Lemma at_upd_other {A} (d : A) (l : list A) (i j : Z) (v : A) :
  i <> j -> at_ d (upd l i v) j = at_ d l j.
Proof.
  intros Hne. unfold at_, upd. destruct (j <? 0) eqn:Ej; [done|].
  destruct (i <? 0) eqn:Ei; [done|].
  rewrite list_lookup_insert_ne by lia. done.
Qed.

Lemma at_replicate_true (il : list bool) (i j : Z) :
  at_ false il j = true -> at_ false (upd il i true) j = true.
Proof.
  intros Hj. destruct (Z.eq_dec i j) as [->|Hne]; [|by rewrite at_upd_other].
  unfold at_, upd in *. destruct (j <? 0) eqn:E; [done|].
  destruct (il !! Z.to_nat j) eqn:Hl; [|done].
  rewrite list_lookup_insert_eq; [done|]. by apply lookup_lt_Some in Hl.
Qed.

Lemma at_some {A} (d : A) (l : list A) (i : nat) (x : A) :
  l !! i = Some x -> at_ d l (Z.of_nat i) = x.
Proof. intros Hl. apply at_lookup; [lia|]. by rewrite Nat2Z.id. Qed.

(** A leader once marked stays marked: the goal is closed at the update
    that marks it, under the later ones. *)
Ltac marked Hset :=
  first [ apply Hset; rewrite ?length_upd; done
        | apply at_replicate_true; marked Hset ].

Section Passes.
Context `{Encoding}.

(** *** First pass *)

Lemma mark_leaders_at_length (cs : Z) (il : list bool) (pc : Z) (inst : Instruction) :
  length (mark_leaders_at cs il pc inst) = length il.
Proof.
  unfold mark_leaders_at. cbv zeta.
  repeat case_match; rewrite ?length_upd; done.
Qed.

Lemma mark_leaders_at_mono (cs : Z) (il : list bool) (pc : Z) (inst : Instruction)
    (j : Z) :
  at_ false il j = true -> at_ false (mark_leaders_at cs il pc inst) j = true.
Proof.
  intros Hj. unfold mark_leaders_at. cbv zeta.
  repeat case_match; repeat apply at_replicate_true; done.
Qed.

Lemma mark_leaders_from_length (cs : Z) (insts : list Instruction) :
  forall il pc, length (mark_leaders_from cs il pc insts) = length il.
Proof.
  induction insts as [|inst insts IH]; intros il pc; simpl; [done|].
  by rewrite IH, mark_leaders_at_length.
Qed.

Lemma mark_leaders_from_mono (cs : Z) (insts : list Instruction) (j : Z) :
  forall il pc, at_ false il j = true ->
    at_ false (mark_leaders_from cs il pc insts) j = true.
Proof.
  induction insts as [|inst insts IH]; intros il pc Hj; simpl; [done|].
  apply IH. by apply mark_leaders_at_mono.
Qed.

Lemma mark_leaders_at_marks (cs : Z) (il : list bool) (pc : Z) (inst : Instruction)
    (t : Z) :
  Z.of_nat (length il) = cs -> leads cs pc inst t ->
  at_ false (mark_leaders_at cs il pc inst) t = true.
Proof.
  intros Hlen (Ht & Hcase). unfold mark_leaders_at. cbv zeta.
  assert (Hset : forall l, Z.of_nat (length l) = cs -> at_ false (upd l t true) t = true).
  { intros l Hl. apply at_upd_same. lia. }
  destruct Hcase as [(Hj & ->)|[(Hj & Hne & ->)|[(Hc & ->)|(Hr & ->)]]].
  - rewrite Hj.
    replace ((0 <=? luaO_getJumpTarget inst pc) && (luaO_getJumpTarget inst pc <? cs))
      with true by (symmetry; apply andb_true_iff; split;
                    [apply Z.leb_le|apply Z.ltb_lt]; lia).
    repeat case_match; marked Hset.
  - rewrite Hj.
    replace (pc + 1 <? cs) with true by (symmetry; apply Z.ltb_lt; lia).
    rewrite bool_decide_eq_false_2 by done. simpl.
    repeat case_match; marked Hset.
  - rewrite Hc.
    replace (pc + 2 <? cs) with true by (symmetry; apply Z.ltb_lt; lia).
    repeat case_match; marked Hset.
  - rewrite Hr.
    replace (pc + 1 <? cs) with true by (symmetry; apply Z.ltb_lt; lia).
    repeat case_match; marked Hset.
Qed.

Lemma mark_leaders_from_marks (cs : Z) (insts : list Instruction) :
  forall il pc (j : nat) inst t,
    Z.of_nat (length il) = cs ->
    insts !! j = Some inst -> leads cs (pc + Z.of_nat j) inst t ->
    at_ false (mark_leaders_from cs il pc insts) t = true.
Proof.
  induction insts as [|i0 insts IH]; intros il pc j inst t Hlen Hj Hl; [done|].
  simpl. destruct j as [|j]; simpl in Hj.
  - simplify_eq. apply mark_leaders_from_mono.
    replace (pc + Z.of_nat 0) with pc in Hl by lia.
    by apply mark_leaders_at_marks.
  - apply (IH _ (pc + 1) j inst t); [by rewrite mark_leaders_at_length|done|].
    replace (pc + 1 + Z.of_nat j) with (pc + Z.of_nat (S j)) by lia. done.
Qed.

Lemma mark_leaders_marks (code_ : list Instruction) (pc : nat) (inst : Instruction)
    (t : Z) :
  code_ !! pc = Some inst ->
  leads (Z.of_nat (length code_)) (Z.of_nat pc) inst t ->
  at_ false (mark_leaders code_) t = true.
Proof.
  intros Hpc Hl. unfold mark_leaders. cbv zeta.
  apply (mark_leaders_from_marks _ _ _ 0 pc inst t); [|done|by rewrite Z.add_0_l].
  by rewrite length_upd, length_replicate.
Qed.

End Passes.

Section SecondPass.
Context `{Encoding}.

(** *** Second pass *)

Lemma split_step_leaders (cs : Z) (il : list bool) (s k r : Z) (ctx ctx' : CFFContext) :
  s < k -> k <= cs ->
  split_step cs il s k ctx = (Some r, ctx') ->
  (forall pc, 1 <= pc < k -> at_ false il pc = true ->
              pc = s \/ exists b, b ∈ blocks ctx /\ start_pc b = pc) ->
  Forall fresh (blocks ctx) ->
  (forall pc, 1 <= pc < k + 1 -> pc < cs -> at_ false il pc = true ->
              pc = r \/ exists b, b ∈ blocks ctx' /\ start_pc b = pc)
  /\ Forall fresh (blocks ctx')
  /\ (k = cs -> s = 0 \/ exists b, b ∈ blocks ctx' /\ start_pc b = s).
Proof.
  intros Hs Hk. unfold split_step.
  destruct ((k =? cs) || at_ false il k) eqn:Hc.
  - intros Hrun Hinv Hfresh. apply bind_Some in Hrun as (idx & ctx1 & Hadd & Hret).
    apply ret_Some in Hret as [-> ->].
    apply addBlock_spec in Hadd as (_ & _ & Hb). rewrite Hb.
    split_and!.
    + intros pc Hpc Hcs Hl. destruct (Z.eq_dec pc k) as [->|Hne]; [by left|].
      right. destruct (Hinv pc ltac:(lia) Hl) as [->|(b & Hin & Hb')].
      * eexists. split; [apply elem_of_app; right; apply list_elem_of_singleton; done|].
        done.
      * exists b. split; [|done]. apply elem_of_app. by left.
    + apply Forall_app. split; [done|]. apply Forall_singleton. by repeat split.
    + intros _. right. eexists.
      split; [apply elem_of_app; right; apply list_elem_of_singleton; done|]. done.
  - intros Hret Hinv Hfresh. apply ret_Some in Hret as [-> ->].
    apply orb_false_iff in Hc as [Hne Hnl]. apply Z.eqb_neq in Hne.
    split_and!; [|done|done].
    intros pc Hpc Hcs Hl. destruct (Z.eq_dec pc k) as [->|Hne']; [congruence|].
    apply Hinv; [lia|done].
Qed.

Lemma split_fold_leaders (cs : Z) (il : list bool) (m : nat) :
  forall (k s : Z) (ctx ctx' : CFFContext) (r : Z),
    s < k -> k + Z.of_nat m = cs ->
    foldM (split_step cs il) (seqZ k (Z.of_nat (S m))) s ctx = (Some r, ctx') ->
    (forall pc, 1 <= pc < k -> at_ false il pc = true ->
                pc = s \/ exists b, b ∈ blocks ctx /\ start_pc b = pc) ->
    Forall fresh (blocks ctx) ->
    (forall pc, 1 <= pc < cs -> at_ false il pc = true ->
                exists b, b ∈ blocks ctx' /\ start_pc b = pc)
    /\ Forall fresh (blocks ctx').
Proof.
  induction m as [|m IH]; intros k s ctx ctx' r Hs Hk.
  - change (Z.of_nat 1) with 1. rewrite seqZ_cons, seqZ_nil by lia.
    cbn [foldM]. intros Hrun Hinv Hfresh.
    apply bind_Some in Hrun as (r1 & ctx1 & Hstep & Hret).
    apply ret_Some in Hret as [-> ->].
    pose proof Hstep as Hstep'.
    apply split_step_spec in Hstep' as (_ & _ & Hr & _); [|lia..].
    apply split_step_leaders in Hstep as (Hl & Hf & _); [|lia|lia|done|done].
    split; [|done]. intros pc Hpc Hlead.
    destruct (Hl pc ltac:(lia) ltac:(lia) Hlead) as [->|Hex]; [|done].
    rewrite Hr in Hpc; lia.
  - rewrite seqZ_cons by lia.
    replace (Z.pred (Z.of_nat (S (S m)))) with (Z.of_nat (S m)) by lia.
    cbn [foldM]. intros Hrun Hinv Hfresh.
    apply bind_Some in Hrun as (r1 & ctx1 & Hstep & Hrest).
    pose proof Hstep as Hstep'.
    apply split_step_spec in Hstep' as (_ & Hr1 & _ & _); [|lia..].
    apply split_step_leaders in Hstep as (Hl & Hf & _); [|lia|lia|done|done].
    apply (IH (Z.succ k) r1 ctx1 ctx' r); [lia|lia|done| |done].
    intros pc Hpc Hlead. apply Hl; [lia|lia|done].
Qed.

(** What the first two passes of [luaO_identifyBlocks] hand to the
    third: the context [c2] in which the blocks tile the code, start at
    every leader, and are all fresh. *)
Lemma identifyBlocks_passes (ctx ctx' : CFFContext) (r : unit) :
  blocks ctx = [] ->
  luaO_identifyBlocks ctx = (Some r, ctx') ->
  exists c2,
    ctx' = foldl analyze_exit c2 (seqZ 0 (num_blocks c2))
    /\ ctx_f c2 = ctx_f ctx
    /\ 0 < sizecode (ctx_f ctx)
    /\ chained 0 (blocks c2) (sizecode (ctx_f ctx))
    /\ Forall fresh (blocks c2)
    /\ (forall pc, 1 <= pc < sizecode (ctx_f ctx) ->
                   at_ false (mark_leaders (code (ctx_f ctx))) pc = true ->
                   exists b, b ∈ blocks c2 /\ start_pc b = pc).
Proof.
  intros Hnil. unfold luaO_identifyBlocks. intros Hrun.
  apply bind_Some in Hrun as (c0 & c0' & Hget & Hrun).
  apply get_Some in Hget as [-> ->].
  fold (sizecode (ctx_f ctx)) in Hrun.
  destruct (Z.leb_spec (sizecode (ctx_f ctx)) 0) as [|Hpos]; [discriminate|].
  apply bind_Some in Hrun as (u & c1 & Halloc & Hrun).
  apply ctx_alloc_Some in Halloc as (L' & _ & ->).
  apply bind_Some in Hrun as (r2 & c2 & Hfold & Hrun).
  apply bind_Some in Hrun as (c3 & c3' & Hget & Hrun).
  apply get_Some in Hget as [-> ->].
  apply modify_Some in Hrun. subst ctx'.
  replace (sizecode (ctx_f ctx)) with (Z.of_nat (S (Z.to_nat (sizecode (ctx_f ctx) - 1))))
    in Hfold at 2 by lia.
  pose proof Hfold as Hfold'.
  apply split_fold_spec in Hfold' as (Hf & new & Hb & Hch & _); [|lia..].
  apply split_fold_leaders in Hfold as (Hl & Hfr); [|lia|lia| |].
  - exists c2. cbn [blocks set_ctx_L] in Hb. rewrite Hnil in Hb. cbn in Hb.
    split_and!; [done|done|done|by rewrite Hb|done|done].
  - intros pc Hpc. lia.
  - cbn. rewrite Hnil. done.
Qed.

End SecondPass.

Section ThirdPass.
Context `{Encoding}.

(** *** Third pass *)

Lemma at_upd_any {A} (d : A) (l : list A) (i : Z) (v : A) :
  at_ d (upd l i v) i = if (0 <=? i) && (i <? Z.of_nat (length l)) then v else d.
Proof.
  destruct (Z.leb_spec 0 i) as [Hi|Hi]; simpl.
  - destruct (Z.ltb_spec i (Z.of_nat (length l))) as [Hl|Hl].
    + apply at_upd_same. lia.
    + unfold at_, upd. destruct (i <? 0) eqn:E; [lia|].
      rewrite list_insert_ge by lia.
      rewrite (proj2 (lookup_ge_None l (Z.to_nat i))) by lia. done.
  - unfold at_. destruct (i <? 0) eqn:E; [done|lia].
Qed.

Lemma at_out_of_range {A} (d : A) (l : list A) (i : Z) :
  (0 <=? i) && (i <? Z.of_nat (length l)) = false -> at_ d l i = d.
Proof.
  intros Hr. unfold at_. destruct (i <? 0) eqn:E; [done|].
  apply andb_false_iff in Hr as [Hr|Hr]; [lia|].
  rewrite (proj2 (lookup_ge_None l (Z.to_nat i))) by lia. done.
Qed.

Lemma starts_of_extents (bs bs' : list BasicBlock) :
  extent <$> bs = extent <$> bs' -> start_pc <$> bs = start_pc <$> bs'.
Proof.
  intros He. change start_pc with ((fun e : Z * Z * Z * Z => e.1.1.1) ∘ extent).
  by rewrite !list_fmap_compose, He.
Qed.

Lemma findBlockStartingAt_starts (c c' : CFFContext) (pc : Z) :
  start_pc <$> blocks c = start_pc <$> blocks c' ->
  findBlockStartingAt c pc = findBlockStartingAt c' pc.
Proof.
  intros Hs. unfold findBlockStartingAt.
  rewrite !(find_index_from_fmap start_pc (fun s => s =? pc)). by rewrite Hs.
Qed.

Lemma analyze_exit_other (c : CFFContext) (i j : Z) :
  i <> j -> at_ dummy_block (blocks (analyze_exit c i)) j = at_ dummy_block (blocks c) j.
Proof.
  intros Hne. unfold analyze_exit. cbv zeta.
  destruct (_ || _); [done|]. cbn [blocks set_blocks]. by apply at_upd_other.
Qed.

Lemma analyzed_congr (c c' : CFFContext) (i : Z) :
  ctx_f c = ctx_f c' ->
  extent <$> blocks c = extent <$> blocks c' ->
  at_ dummy_block (blocks c) i = at_ dummy_block (blocks c') i ->
  analyzed c i = analyzed c' i.
Proof.
  intros Hf He Hat. pose proof (starts_of_extents _ _ He) as Hs.
  assert (Hlen : length (blocks c) = length (blocks c')).
  { apply (f_equal length) in He. by rewrite !length_fmap in He. }
  unfold analyzed, analyze_exit. cbv zeta.
  rewrite !(findBlockStartingAt_starts c c' _ Hs), Hf, Hat.
  destruct (_ || _); [done|]. cbn [blocks set_blocks].
  by rewrite !at_upd_any, Hlen.
Qed.

Lemma analyze_fold_at (c2 : CFFContext) (l : list Z) :
  forall c,
    NoDup l -> ctx_f c = ctx_f c2 ->
    extent <$> blocks c = extent <$> blocks c2 ->
    (forall i, i ∈ l -> at_ dummy_block (blocks c) i = at_ dummy_block (blocks c2) i) ->
    forall i,
      (i ∈ l -> at_ dummy_block (blocks (foldl analyze_exit c l)) i = analyzed c2 i)
      /\ (i ∉ l -> at_ dummy_block (blocks (foldl analyze_exit c l)) i
                   = at_ dummy_block (blocks c) i).
Proof.
  induction l as [|i0 l IH]; intros c Hnd Hf He Hat i.
  - split; [by intros ?%elem_of_nil|done].
  - apply NoDup_cons in Hnd as [Hni Hnd]. cbn [foldl].
    destruct (analyze_exit_extent c i0) as [Hf1 He1].
    assert (Hat1 : forall j, j ∈ l ->
              at_ dummy_block (blocks (analyze_exit c i0)) j
              = at_ dummy_block (blocks c2) j).
    { intros j Hj. rewrite analyze_exit_other by (intros ->; done).
      apply Hat. by right. }
    destruct (IH (analyze_exit c i0) Hnd (eq_trans Hf1 Hf) (eq_trans He1 He) Hat1 i)
      as [Hin Hout].
    split.
    + intros [->|Hi]%elem_of_cons; [|by apply Hin].
      rewrite (Hout Hni). change (analyzed c i0 = analyzed c2 i0).
      apply analyzed_congr; [done|done|]. apply Hat. by left.
    + intros Hi. apply not_elem_of_cons in Hi as [Hne Hi].
      rewrite (Hout Hi). by apply analyze_exit_other.
Qed.

(** What the third pass writes into a fresh block. *)
Lemma analyzed_fresh (c2 : CFFContext) (i : nat) (b0 : BasicBlock) :
  blocks c2 !! i = Some b0 -> fresh b0 ->
  0 <= end_pc b0 - 1 < sizecode (ctx_f c2) ->
  let b := analyzed c2 (Z.of_nat i) in
  let last_pc := end_pc b0 - 1 in
  let inst := at_ dummy_inst (code (ctx_f c2)) last_pc in
  let op := GET_OPCODE inst in
  let target := luaO_getJumpTarget inst last_pc in
  extent b = extent b0
  /\ is_exit b = (if isReturnInstruction op then 1 else 0)
  /\ original_target b
     = (if luaO_isJumpInstruction op && (0 <=? target)
        then findBlockStartingAt c2 target else -1)
  /\ cond_target b
     = (if isConditionalTest op then findBlockStartingAt c2 (last_pc + 2) else -1)
  /\ fall_through b
     = (if isConditionalTest op
           || luaO_isJumpInstruction op && (0 <=? target)
              && negb (bool_decide (op = OP_JMP))
           || negb (luaO_isBlockTerminator op) && (end_pc b0 <? sizecode (ctx_f c2))
        then findBlockStartingAt c2 (end_pc b0) else -1).
Proof.
  intros Hi (Ho & Hft & Hc & He) Hlast. cbv zeta.
  unfold analyzed, analyze_exit. cbv zeta.
  rewrite (at_some dummy_block _ _ _ Hi).
  fold (sizecode (ctx_f c2)).
  replace ((end_pc b0 - 1 <? 0) || (sizecode (ctx_f c2) <=? end_pc b0 - 1)) with false
    by (symmetry; apply orb_false_iff; split; [apply Z.ltb_ge|apply Z.leb_gt]; lia).
  cbn [blocks set_blocks]. rewrite at_upd_same
    by (apply lookup_lt_Some in Hi; lia).
  destruct b0 as [s e sid ot ft ct ie ix]. cbn in Ho, Hft, Hc, He, Hlast |- *.
  subst ot ft ct ix.
  set (inst := at_ dummy_inst (code (ctx_f c2)) (e - 1)).
  destruct (isReturnInstruction (GET_OPCODE inst)),
    (luaO_isJumpInstruction (GET_OPCODE inst)),
    (0 <=? luaO_getJumpTarget inst (e - 1)),
    (bool_decide (GET_OPCODE inst = OP_JMP)),
    (isConditionalTest (GET_OPCODE inst)),
    (luaO_isBlockTerminator (GET_OPCODE inst)); cbn;
    destruct (e <? sizecode (ctx_f c2)); repeat split; reflexivity.
Qed.

(** The exits [luaO_identifyBlocks] records in a block, read against
    the final block list. *)
Lemma identifyBlocks_exits (ctx ctx' : CFFContext) (r : unit) (i : nat) (b : BasicBlock) :
  blocks ctx = [] ->
  luaO_identifyBlocks ctx = (Some r, ctx') ->
  blocks ctx' !! i = Some b ->
  let last_pc := end_pc b - 1 in
  let inst := at_ dummy_inst (code (ctx_f ctx)) last_pc in
  let op := GET_OPCODE inst in
  let target := luaO_getJumpTarget inst last_pc in
  0 <= start_pc b <= last_pc /\ last_pc < sizecode (ctx_f ctx)
  /\ is_exit b = (if isReturnInstruction op then 1 else 0)
  /\ original_target b
     = (if luaO_isJumpInstruction op && (0 <=? target)
        then findBlockStartingAt ctx' target else -1)
  /\ cond_target b
     = (if isConditionalTest op then findBlockStartingAt ctx' (last_pc + 2) else -1)
  /\ fall_through b
     = (if isConditionalTest op
           || luaO_isJumpInstruction op && (0 <=? target)
              && negb (bool_decide (op = OP_JMP))
           || negb (luaO_isBlockTerminator op) && (end_pc b <? sizecode (ctx_f ctx))
        then findBlockStartingAt ctx' (end_pc b) else -1).
Proof.
  intros Hnil Hrun Hb. cbv zeta.
  apply identifyBlocks_passes in Hrun as (c2 & -> & Hf & Hpos & Hch & Hfresh & _); [|done].
  destruct (analyze_fold_extent (seqZ 0 (num_blocks c2)) c2) as [Hf' He'].
  assert (Hlen : length (blocks (foldl analyze_exit c2 (seqZ 0 (num_blocks c2))))
                 = length (blocks c2)).
  { apply (f_equal length) in He'. by rewrite !length_fmap in He'. }
  assert (Hi : (i < length (blocks c2))%nat).
  { rewrite <- Hlen. by apply lookup_lt_Some in Hb. }
  destruct (lookup_lt_is_Some_2 _ _ Hi) as [b0 Hb0].
  destruct (analyze_fold_at c2 (seqZ 0 (num_blocks c2)) c2 (NoDup_seqZ _ _)
              eq_refl eq_refl (fun _ _ => eq_refl) (Z.of_nat i)) as [Hin _].
  rewrite (at_some dummy_block _ _ _ Hb) in Hin.
  specialize (Hin ltac:(apply elem_of_seqZ; unfold num_blocks; lia)).
  pose proof (chained_lookup _ _ _ i b0 Hch Hb0) as (Hlo & _ & _ & Hlt & Hhi).
  rewrite Forall_lookup in Hfresh. specialize (Hfresh i b0 Hb0).
  rewrite <- Hf in Hhi |- *.
  pose proof (analyzed_fresh c2 i b0 Hb0 Hfresh ltac:(lia)) as Han.
  cbv zeta in Han. rewrite <- Hin in Han.
  destruct Han as (Hext & Hex & Hot & Hct & Hft).
  assert (Hs : start_pc <$> blocks (foldl analyze_exit c2 (seqZ 0 (num_blocks c2)))
               = start_pc <$> blocks c2) by by apply starts_of_extents.
  rewrite !(findBlockStartingAt_starts _ c2 _ Hs).
  unfold extent in Hext. injection Hext as Hs1 He1 _ _.
  rewrite Hs1, He1. split_and!; [lia|lia|lia|done..].
Qed.

End ThirdPass.

Lemma opcode_classes (op : OpCode) :
  luaO_isBlockTerminator op
  = luaO_isJumpInstruction op || isConditionalTest op || isReturnInstruction op
    || bool_decide (op = OP_TFORCALL)
  /\ luaO_isJumpInstruction op && isConditionalTest op = false
  /\ luaO_isJumpInstruction op && isReturnInstruction op = false
  /\ isConditionalTest op && isReturnInstruction op = false
  /\ isLoopControl op
     = luaO_isJumpInstruction op && negb (bool_decide (op = OP_JMP))
       || bool_decide (op = OP_TFORCALL).
Proof. destruct op; repeat split; reflexivity. Qed.

Lemma chained_find_next (bs : list BasicBlock) (lo hi : Z) (i : nat) (b : BasicBlock) :
  chained lo bs hi -> bs !! i = Some b ->
  find_index_from (fun x => start_pc x =? end_pc b) bs 0
  = match bs !! S i with Some _ => Z.of_nat (S i) | None => -1 end.
Proof.
  intros Hch Hi. destruct (bs !! S i) as [b1|] eqn:Hn.
  - rewrite (chained_consecutive _ _ _ _ _ _ Hch Hi Hn).
    rewrite (chained_find_start _ _ _ 0 (S i) b1 Hch Hn). lia.
  - destruct (find_index_from_result (fun x => start_pc x =? end_pc b) bs 0 _
                ltac:(lia) eq_refl) as [[Hr _]|(j & b' & _ & Hj & Hp & _)]; [done|].
    exfalso. apply Z.eqb_eq in Hp.
    destruct (chained_last _ _ _ Hch ltac:(by intros ->)) as (bl & Hl & He).
    rewrite last_lookup in Hl.
    assert (length bs = S i).
    { apply lookup_lt_Some in Hi. apply lookup_ge_None in Hn. lia. }
    replace (pred (length bs)) with i in Hl by lia. simplify_eq.
    pose proof (chained_lookup _ _ _ j b' Hch Hj). lia.
Qed.

Section Exits.
Context `{Encoding}.

Lemma identified_starts (ctx ctx' : CFFContext) (r : unit) (pc : nat)
    (inst : Instruction) (t : Z) :
  blocks ctx = [] ->
  luaO_identifyBlocks ctx = (Some r, ctx') ->
  code (ctx_f ctx) !! pc = Some inst ->
  leads (sizecode (ctx_f ctx)) (Z.of_nat pc) inst t ->
  exists (j : nat) b',
    findBlockStartingAt ctx' t = Z.of_nat j
    /\ blocks ctx' !! j = Some b' /\ start_pc b' = t.
Proof.
  intros Hnil Hrun Hpc Hl.
  pose proof Hrun as Hrun'.
  apply identifyBlocks_chained in Hrun' as (_ & _ & Hch' & _); [|done].
  apply identifyBlocks_passes in Hrun as (c2 & -> & Hf & Hpos & Hch & _ & Hlead); [|done].
  destruct (analyze_fold_extent (seqZ 0 (num_blocks c2)) c2) as [_ He].
  apply starts_of_extents in He.
  set (ctx' := foldl analyze_exit c2 (seqZ 0 (num_blocks c2))) in *.
  assert (Hex : exists b, b ∈ blocks ctx' /\ start_pc b = t).
  { destruct (Z.eq_dec t 0) as [->|Hne].
    - destruct (blocks ctx') as [|b0 bs] eqn:Hb; [simpl in Hch'; lia|].
      exists b0. split; [by left|]. by destruct Hch'.
    - destruct (Hlead t) as (b & Hin & Hb).
      + destruct Hl as [? _]. lia.
      + by apply (mark_leaders_marks _ pc inst).
      + assert (Hin' : t ∈ start_pc <$> blocks ctx').
        { rewrite He, <- Hb. by apply list_elem_of_fmap_2. }
        apply list_elem_of_fmap in Hin' as (b' & -> & Hin'). by exists b'. }
  destruct Hex as (b & Hin & Hb).
  unfold findBlockStartingAt.
  destruct (find_index_from_result (fun x => start_pc x =? t) (blocks ctx') 0 _
              ltac:(lia) eq_refl) as [[_ Hall]|(j & b' & Hr & Hj & Hp & _)].
  - exfalso. rewrite Forall_forall in Hall. specialize (Hall b Hin). simpl in Hall.
    apply Z.eqb_neq in Hall. done.
  - exists j, b'. split_and!; [lia|done|by apply Z.eqb_eq].
Qed.

(** X14. After [luaO_identifyBlocks] every offset that an instruction
    makes a leader is the start of a block, which
    [findBlockStartingAt] finds: the target of a jump, when it lies in
    the code; the offset after a loop jump and after a return; the
    second offset after a conditional test. *)
Theorem leaders_start_blocks (ctx ctx' : CFFContext) (pc : nat) (inst : Instruction)
    (t : Z) :
  blocks ctx = [] ->
  luaO_identifyBlocks ctx = (Some tt, ctx') ->
  code (ctx_f ctx) !! pc = Some inst ->
  leads (sizecode (ctx_f ctx)) (Z.of_nat pc) inst t ->
  exists (j : nat) b',
    findBlockStartingAt ctx' t = Z.of_nat j
    /\ blocks ctx' !! j = Some b' /\ start_pc b' = t.
Proof. apply identified_starts. Qed.

(** X15. After [luaO_identifyBlocks] the successors recorded in a block
    are [-1] or indices of blocks: [original_target] is the block that
    starts at the target of the jump the block ends in, and it is set
    whenever that target lies in the code; [fall_through] is the next
    block; [cond_target] is the block that starts two offsets after the
    block's last instruction. *)
Theorem identified_successors (ctx ctx' : CFFContext) (i : nat) (b : BasicBlock) :
  blocks ctx = [] ->
  luaO_identifyBlocks ctx = (Some tt, ctx') ->
  blocks ctx' !! i = Some b ->
  let last_pc := end_pc b - 1 in
  let inst := at_ dummy_inst (code (ctx_f ctx)) last_pc in
  let target := luaO_getJumpTarget inst last_pc in
  (original_target b = -1
   \/ exists (j : nat) b',
        original_target b = Z.of_nat j /\ blocks ctx' !! j = Some b'
        /\ start_pc b' = target)
  /\ (luaO_isJumpInstruction (GET_OPCODE inst) = true ->
      0 <= target < sizecode (ctx_f ctx) -> original_target b <> -1)
  /\ (fall_through b = -1
      \/ fall_through b = Z.of_nat (S i) /\ is_Some (blocks ctx' !! S i))
  /\ (cond_target b = -1
      \/ exists (j : nat) b',
           cond_target b = Z.of_nat j /\ blocks ctx' !! j = Some b'
           /\ start_pc b' = last_pc + 2).
Proof.
  intros Hnil Hrun Hb. cbv zeta.
  pose proof (identifyBlocks_exits ctx ctx' tt i b Hnil Hrun Hb) as Hex.
  cbv zeta in Hex. destruct Hex as (Hs & Hlast & _ & Hot & Hct & Hft).
  pose proof Hrun as Hrun'.
  apply identifyBlocks_chained in Hrun' as (_ & _ & Hch & _); [|done].
  assert (Hfind : forall t,
            findBlockStartingAt ctx' t = -1
            \/ exists (j : nat) b',
                 findBlockStartingAt ctx' t = Z.of_nat j
                 /\ blocks ctx' !! j = Some b' /\ start_pc b' = t).
  { intros t. unfold findBlockStartingAt.
    destruct (find_index_from_result (fun x => start_pc x =? t) (blocks ctx') 0 _
                ltac:(lia) eq_refl) as [[Hr _]|(j & b' & Hr & Hj & Hp & _)]; [by left|].
    right. exists j, b'. split_and!; [lia|done|by apply Z.eqb_eq]. }
  split_and!.
  - rewrite Hot. destruct (_ && _); [apply Hfind|by left].
  - intros Hj Ht. rewrite Hot, Hj.
    replace (0 <=? _) with true by (symmetry; apply Z.leb_le; lia). simpl.
    assert (Hc : code (ctx_f ctx) !! Z.to_nat (end_pc b - 1)
                 = Some (at_ dummy_inst (code (ctx_f ctx)) (end_pc b - 1))).
    { unfold at_. destruct (_ <? 0) eqn:E; [lia|].
      destruct (lookup_lt_is_Some_2 (code (ctx_f ctx)) (Z.to_nat (end_pc b - 1)))
        as [x Hx]; [unfold sizecode in Hlast; lia|]. by rewrite Hx. }
    destruct (identified_starts ctx ctx' tt (Z.to_nat (end_pc b - 1)) _
                (luaO_getJumpTarget (at_ dummy_inst (code (ctx_f ctx)) (end_pc b - 1))
                   (end_pc b - 1)) Hnil Hrun Hc) as (j & b' & -> & _).
    + split; [lia|]. left. split; [done|]. by rewrite Z2Nat.id by lia.
    + lia.
  - rewrite Hft. unfold findBlockStartingAt.
    rewrite (chained_find_next _ _ _ i b Hch Hb).
    destruct (_ || _); [|by left].
    destruct (blocks ctx' !! S i) eqn:Hn; [right; eauto|by left].
  - rewrite Hct. destruct (isConditionalTest _); [apply Hfind|by left].
Qed.

(** X16. After [luaO_identifyBlocks] a block is marked as an exit exactly
    when its last instruction is a return; such a block has no
    successor, and a block whose last instruction is no terminator has
    the next block as its only successor, or none when it is the last
    block. *)
Theorem identified_exits (ctx ctx' : CFFContext) (i : nat) (b : BasicBlock) :
  blocks ctx = [] ->
  luaO_identifyBlocks ctx = (Some tt, ctx') ->
  blocks ctx' !! i = Some b ->
  let op := GET_OPCODE (at_ dummy_inst (code (ctx_f ctx)) (end_pc b - 1)) in
  (is_exit b = 0 \/ is_exit b = 1)
  /\ (is_exit b <> 0 <-> isReturnInstruction op = true)
  /\ (isReturnInstruction op = true ->
      original_target b = -1 /\ fall_through b = -1 /\ cond_target b = -1)
  /\ (luaO_isBlockTerminator op = false ->
      original_target b = -1 /\ cond_target b = -1
      /\ fall_through b
         = match blocks ctx' !! S i with Some _ => Z.of_nat (S i) | None => -1 end).
Proof.
  intros Hnil Hrun Hb. cbv zeta.
  pose proof (identifyBlocks_exits ctx ctx' tt i b Hnil Hrun Hb) as Hex.
  cbv zeta in Hex. destruct Hex as (Hs & Hlast & Hexit & Hot & Hct & Hft).
  pose proof Hrun as Hrun'.
  apply identifyBlocks_chained in Hrun' as (_ & _ & Hch & _); [|done].
  set (op := GET_OPCODE (at_ dummy_inst (code (ctx_f ctx)) (end_pc b - 1))) in *.
  destruct (opcode_classes op) as (Hterm & Hjc & Hjr & Hcr & _).
  split_and!.
  - rewrite Hexit. destruct (isReturnInstruction op); auto.
  - rewrite Hexit. destruct (isReturnInstruction op); split; (done || lia).
  - intros Hr. rewrite Hr in *.
    assert (luaO_isJumpInstruction op = false) as Hj by (by destruct (luaO_isJumpInstruction op)).
    assert (isConditionalTest op = false) as Hc by (by destruct (isConditionalTest op)).
    rewrite Hot, Hct, Hft, Hj, Hc, Hterm, Hj, Hc. simpl. done.
  - intros Ht. rewrite Ht in Hterm. symmetry in Hterm.
    apply orb_false_iff in Hterm as [Hterm _].
    apply orb_false_iff in Hterm as [Hterm Hr].
    apply orb_false_iff in Hterm as [Hj Hc].
    rewrite Hot, Hct, Hft, Hj, Hc, Ht. simpl. split_and!; [done|done|].
    unfold findBlockStartingAt. rewrite (chained_find_next _ _ _ i b Hch Hb).
    destruct (Z.ltb_spec (end_pc b) (sizecode (ctx_f ctx))) as [Hlt|Hge]; [done|].
    destruct (blocks ctx' !! S i) as [b1|] eqn:Hn; [|done].
    pose proof (chained_consecutive _ _ _ _ _ _ Hch Hb Hn).
    pose proof (chained_lookup _ _ _ _ _ Hch Hn). lia.
Qed.

End Exits.

(** The jump at offset [1] of [less_than] leads to offset [3], where the
    third block starts. *)
Lemma leaders_start_blocks_witness :
  (blocks less_than_ctx = []
   /\ @luaO_identifyBlocks reference_encoding less_than_ctx = (Some tt, less_than_blocks)
   /\ code (ctx_f less_than_ctx) !! 1%nat = Some (I_sJ OP_JMP (1 + 16777215) 0)
   /\ @leads reference_encoding (sizecode (ctx_f less_than_ctx)) (Z.of_nat 1)
        (I_sJ OP_JMP (1 + 16777215) 0) 3)
  /\ exists (j : nat) b',
       findBlockStartingAt less_than_blocks 3 = Z.of_nat j
       /\ blocks less_than_blocks !! j = Some b' /\ start_pc b' = 3.
Proof.
  assert (Hb : blocks less_than_ctx = []) by reflexivity.
  assert (Hrun : @luaO_identifyBlocks reference_encoding less_than_ctx
                 = (Some tt, less_than_blocks)) by (vm_compute; reflexivity).
  assert (Hc : code (ctx_f less_than_ctx) !! 1%nat = Some (I_sJ OP_JMP (1 + 16777215) 0))
    by reflexivity.
  assert (Hl : @leads reference_encoding (sizecode (ctx_f less_than_ctx)) (Z.of_nat 1)
                 (I_sJ OP_JMP (1 + 16777215) 0) 3).
  { split; [vm_compute; split; [discriminate|reflexivity]|].
    left. split; vm_compute; reflexivity. }
  split; [exact (conj Hb (conj Hrun (conj Hc Hl)))|].
  exact (@leaders_start_blocks reference_encoding _ _ _ _ _ Hb Hrun Hc Hl).
Defined.

(** The first block of [less_than] ends in the jump to offset [3]. *)
Lemma identified_successors_witness :
  exists b,
    (blocks less_than_ctx = []
     /\ @luaO_identifyBlocks reference_encoding less_than_ctx = (Some tt, less_than_blocks)
     /\ blocks less_than_blocks !! 0%nat = Some b)
    /\ original_target b <> -1.
Proof.
  assert (Hb : blocks less_than_ctx = []) by reflexivity.
  assert (Hrun : @luaO_identifyBlocks reference_encoding less_than_ctx
                 = (Some tt, less_than_blocks)) by (vm_compute; reflexivity).
  eexists.
  assert (Hi : blocks less_than_blocks !! 0%nat = Some _) by (vm_compute; reflexivity).
  split; [exact (conj Hb (conj Hrun Hi))|].
  pose proof (@identified_successors reference_encoding _ _ _ _ Hb Hrun Hi) as Hs.
  cbv zeta in Hs. destruct Hs as (_ & Hset & _).
  apply Hset; [vm_compute; reflexivity|vm_compute; split; [discriminate|reflexivity]].
Defined.

(** The third block of [less_than] ends in a return. *)
Lemma identified_exits_witness :
  exists b,
    (blocks less_than_ctx = []
     /\ @luaO_identifyBlocks reference_encoding less_than_ctx = (Some tt, less_than_blocks)
     /\ blocks less_than_blocks !! 2%nat = Some b)
    /\ is_exit b <> 0 /\ fall_through b = -1.
Proof.
  assert (Hb : blocks less_than_ctx = []) by reflexivity.
  assert (Hrun : @luaO_identifyBlocks reference_encoding less_than_ctx
                 = (Some tt, less_than_blocks)) by (vm_compute; reflexivity).
  eexists.
  assert (Hi : blocks less_than_blocks !! 2%nat = Some _) by (vm_compute; reflexivity).
  split; [exact (conj Hb (conj Hrun Hi))|].
  pose proof (@identified_exits reference_encoding _ _ _ _ Hb Hrun Hi) as He.
  cbv zeta in He. destruct He as (_ & Hiff & Hret & _).
  assert (Hr : isReturnInstruction
                 (GET_OPCODE (at_ dummy_inst (code (ctx_f less_than_ctx)) (5 - 1))) = true)
    by (vm_compute; reflexivity).
  split; [apply Hiff; exact Hr|]. exact (proj1 (proj2 (Hret Hr))).
Defined.

(** ** Growth of the block array *)

Lemma addBlock_inv (s e : Z) (ctx ctx' : CFFContext) (o : option Z) :
  addBlock s e ctx = (o, ctx') ->
  match o with
  | Some idx =>
    idx = num_blocks ctx
    /\ blocks ctx' =
         blocks ctx ++
         [{| start_pc := s; end_pc := e; state_id := num_blocks ctx;
             original_target := -1; fall_through := -1; cond_target := -1;
             is_entry := (if s =? 0 then 1 else 0); is_exit := 0 |}]
    /\ (num_blocks ctx < block_capacity ctx
        /\ block_capacity ctx' = block_capacity ctx /\ ctx_L ctx' = ctx_L ctx
        \/ block_capacity ctx <= num_blocks ctx
           /\ block_capacity ctx' = block_capacity ctx * 2
           /\ allocs (ctx_L ctx) = S (allocs (ctx_L ctx')))
  | None =>
    ctx' = ctx /\ allocs (ctx_L ctx) = 0%nat /\ block_capacity ctx <= num_blocks ctx
  end.
Proof.
  unfold addBlock, mbind, M_bind, mret, M_ret, getM, modifyM, ctx_alloc, luaM_malloc_.
  destruct (Z.leb_spec (block_capacity ctx) (num_blocks ctx)) as [Hfull|Hroom].
  - destruct (allocs (ctx_L ctx)) as [|n] eqn:Ha; cbn; intros Heq; simplify_eq.
    + done.
    + split_and!; [done|done|]. right. cbn. split_and!; [done|done|done].
  - cbn. intros Heq. simplify_eq. split_and!; [done|done|]. left. done.
Qed.

(** X17. On a context whose block array has a positive capacity,
    [addBlock] either appends a block that carries its index as state
    id, is an entry exactly when it starts at offset [0], and has no
    successor yet, answering that index and keeping the earlier blocks,
    or fails without touching the context, which happens only when the
    array is full and the allocator refuses to double it. A block count
    within the capacity stays within the capacity. *)
Theorem addBlock_appends (s e : Z) (ctx ctx' : CFFContext) (o : option Z) :
  0 < block_capacity ctx ->
  addBlock s e ctx = (o, ctx') ->
  match o with
  | Some idx =>
    idx = num_blocks ctx
    /\ blocks ctx' =
         blocks ctx ++
         [{| start_pc := s; end_pc := e; state_id := idx;
             original_target := -1; fall_through := -1; cond_target := -1;
             is_entry := (if s =? 0 then 1 else 0); is_exit := 0 |}]
    /\ 0 < block_capacity ctx'
    /\ (num_blocks ctx <= block_capacity ctx ->
        num_blocks ctx' <= block_capacity ctx')
  | None =>
    ctx' = ctx /\ allocs (ctx_L ctx) = 0%nat /\ block_capacity ctx <= num_blocks ctx
  end.
Proof.
  intros Hpos Heq. apply addBlock_inv in Heq. destruct o as [idx|]; [|done].
  destruct Heq as (-> & Hb & Hcap). split_and!; [done|done| |].
  - destruct Hcap as [(? & -> & _)|(? & -> & _)]; lia.
  - intros Hle. unfold num_blocks in *. rewrite Hb, length_app. simpl.
    destruct Hcap as [(? & -> & _)|(? & -> & _)]; lia.
Qed.

(** A fifth block for [less_than]. *)
Lemma addBlock_appends_witness :
  exists ctx',
    (0 < block_capacity less_than_blocks
     /\ addBlock 6 7 less_than_blocks = (Some 4, ctx'))
    /\ num_blocks ctx' = 5
    /\ 0 < block_capacity ctx'.
Proof.
  assert (Hpos : 0 < block_capacity less_than_blocks) by (vm_compute; reflexivity).
  eexists.
  assert (Heq : addBlock 6 7 less_than_blocks = (Some 4, _))
    by (vm_compute; reflexivity).
  split; [exact (conj Hpos Heq)|].
  pose proof (addBlock_appends _ _ _ _ _ Hpos Heq) as (_ & _ & Hcap & _).
  split; [reflexivity|exact Hcap].
Defined.

Section Totality.
Context `{Encoding}.

Lemma split_fold_total (cs : Z) (il : list bool) (l : list Z) :
  forall s ctx,
    (length l <= allocs (ctx_L ctx))%nat ->
    exists r ctx', foldM (split_step cs il) l s ctx = (Some r, ctx').
Proof.
  induction l as [|k l IH]; intros s ctx Hmem; cbn [foldM].
  - by eexists _, _.
  - simpl in Hmem. unfold mbind at 1, M_bind at 1.
    assert (Hstep : exists r1 ctx1,
              split_step cs il s k ctx = (Some r1, ctx1)
              /\ (allocs (ctx_L ctx) <= S (allocs (ctx_L ctx1)))%nat).
    { unfold split_step. destruct (_ || _).
      - unfold mbind, M_bind.
        destruct (addBlock s k ctx) as [[idx|] ctx1] eqn:Hadd;
          apply addBlock_inv in Hadd.
        + exists k, ctx1. split; [done|].
          destruct Hadd as (_ & _ & [(_ & _ & ->)|(_ & _ & ->)]); lia.
        + destruct Hadd as (_ & Hz & _). lia.
      - exists s, ctx. split; [done|]. lia. }
    destruct Hstep as (r1 & ctx1 & -> & Hmem1).
    apply IH. lia.
Qed.

(** X18. [luaO_identifyBlocks] fails, leaving the context as it was, on a
    function with no code and when the allocator refuses its first
    request; on a function with code and a context whose block array
    has a positive capacity it succeeds whenever the allocator grants
    one request more than the function has instructions. *)
Theorem identifyBlocks_succeeds_with_memory (ctx : CFFContext) :
  (sizecode (ctx_f ctx) <= 0 \/ allocs (ctx_L ctx) = 0%nat ->
   luaO_identifyBlocks ctx = (None, ctx))
  /\ (0 < sizecode (ctx_f ctx) -> 0 < block_capacity ctx ->
      (length (code (ctx_f ctx)) + 1 <= allocs (ctx_L ctx))%nat ->
      exists ctx', luaO_identifyBlocks ctx = (Some tt, ctx')).
Proof.
  unfold luaO_identifyBlocks, sizecode. split.
  - intros Hbad. unfold mbind at 1, M_bind at 1, getM at 1.
    destruct (Z.leb_spec (Z.of_nat (length (code (ctx_f ctx)))) 0) as [|Hpos]; [done|].
    destruct Hbad as [|Hz]; [lia|].
    unfold mbind at 1, M_bind at 1, ctx_alloc, luaM_malloc_. by rewrite Hz.
  - intros Hpos _ Hmem. unfold mbind at 1, M_bind at 1, getM at 1.
    destruct (Z.leb_spec (Z.of_nat (length (code (ctx_f ctx)))) 0) as [|_]; [lia|].
    unfold mbind at 1, M_bind at 1, ctx_alloc, luaM_malloc_.
    destruct (allocs (ctx_L ctx)) as [|n] eqn:Ha; [lia|].
    unfold mbind at 1, M_bind at 1.
    destruct (split_fold_total (Z.of_nat (length (code (ctx_f ctx))))
                (mark_leaders (code (ctx_f ctx)))
                (seqZ 1 (Z.of_nat (length (code (ctx_f ctx))))) 0
                (set_ctx_L (set_allocs n (ctx_L ctx)) ctx)) as (r & c2 & ->).
    { rewrite length_seqZ. simpl. lia. }
    unfold mbind, M_bind, getM, modifyM. eexists. reflexivity.
Qed.

End Totality.

(** ** Groups of the nested dispatcher *)

Lemma at_fmap_seqZ {A} (d : A) (g : Z -> A) (tl : list A) (len i : Z) :
  0 <= i < len -> at_ d ((g <$> seqZ 0 len) ++ tl) i = g i.
Proof.
  intros Hi. apply at_lookup; [lia|].
  rewrite lookup_app_l by (rewrite length_fmap, length_seqZ; lia).
  rewrite list_lookup_fmap, lookup_seqZ_lt by lia. rewrite Z2Nat.id by lia. done.
Qed.

Lemma at_app_end {A} (d : A) (l : list A) (x : A) :
  at_ d (l ++ [x]) (Z.of_nat (length l)) = x.
Proof.
  apply at_lookup; [lia|]. rewrite Nat2Z.id, lookup_app_r, Nat.sub_diag by lia. done.
Qed.

Section Groups.
Context `{Encoding}.

Lemma partition_inv (ctx ctx' : CFFContext) :
  1 <= num_blocks ctx ->
  partitionBlocksIntoGroups ctx = (Some tt, ctx') ->
  let n := num_blocks ctx in
  let G := Z.max 2 ((n + 3) / 4) in
  let per := (n + G - 1) / G in
  num_groups ctx' = G /\ blocks ctx' = blocks ctx
  /\ 1 <= per <= 4 /\ n <= G * per
  /\ Z.of_nat (length (group_starts ctx')) = G + 1
  /\ forall g, 0 <= g <= G -> at_ 0 (group_starts ctx') g = Z.min (g * per) n.
Proof.
  intros Hn. cbv zeta. unfold partitionBlocksIntoGroups.
  unfold mbind, M_bind, getM, modifyM, mret, M_ret, ctx_alloc, luaM_malloc_.
  destruct (num_blocks ctx =? 0) eqn:E; [lia|]. clear E.
  unfold NESTED_GROUP_SIZE.
  rewrite Z.quot_div_nonneg by lia.
  replace (num_blocks ctx + 4 - 1) with (num_blocks ctx + 3) by lia.
  set (n := num_blocks ctx) in *.
  assert (HG : (if (n + 3) / 4 <? 2 then 2 else (n + 3) / 4) = Z.max 2 ((n + 3) / 4)).
  { destruct (Z.ltb_spec ((n + 3) / 4) 2); lia. }
  rewrite HG. set (G := Z.max 2 ((n + 3) / 4)).
  assert (HG2 : 2 <= G) by lia.
  assert (HG4 : n <= 4 * G).
  { assert (n + 3 < 4 * ((n + 3) / 4) + 4)
      by (pose proof (Z.mul_succ_div_gt (n + 3) 4 ltac:(lia)); lia). lia. }
  rewrite Z.quot_div_nonneg by lia.
  set (per := (n + G - 1) / G).
  assert (Hper : 1 <= per <= 4 /\ n <= G * per).
  { unfold per. split; [split|].
    - apply Z.div_le_lower_bound; lia.
    - assert ((n + G - 1) / G < 5) by (apply Z.div_lt_upper_bound; lia). lia.
    - pose proof (Z.mul_succ_div_gt (n + G - 1) G ltac:(lia)). lia. }
  cbn. destruct (allocs (ctx_L ctx)) as [|k]; [discriminate|].
  intros Heq. simplify_eq. cbn.
  split_and!; [done|done|lia|lia|lia| |].
  - rewrite length_app, length_fmap, length_seqZ. simpl. lia.
  - intros g Hg. destruct (Z.eq_dec g G) as [->|Hne].
    + rewrite (at_lookup 0 _ G n); [lia|lia|].
      rewrite lookup_app_r by (rewrite length_fmap, length_seqZ; lia).
      rewrite length_fmap, length_seqZ, Nat.sub_diag. done.
    + rewrite at_fmap_seqZ by lia. destruct (Z.ltb_spec n (g * per)); lia.
Qed.

(** X19. On a context with blocks, [partitionBlocksIntoGroups] makes at
    least two groups of consecutive blocks, of at most four blocks
    each, that cover all the blocks: the group boundaries start at [0],
    never decrease and end at the block count; and [findBlockGroup]
    answers, for every block, the one group whose boundaries enclose
    it. *)
Theorem groups_partition_blocks (ctx ctx' : CFFContext) :
  1 <= num_blocks ctx ->
  partitionBlocksIntoGroups ctx = (Some tt, ctx') ->
  let starts := group_starts ctx' in
  2 <= num_groups ctx'
  /\ Z.of_nat (length starts) = num_groups ctx' + 1
  /\ blocks ctx' = blocks ctx
  /\ at_ 0 starts 0 = 0
  /\ at_ 0 starts (num_groups ctx') = num_blocks ctx
  /\ (forall g, 0 <= g < num_groups ctx' ->
        0 <= at_ 0 starts (g + 1) - at_ 0 starts g <= 4)
  /\ (forall i, 0 <= i < num_blocks ctx ->
        0 <= findBlockGroup ctx' i < num_groups ctx'
        /\ at_ 0 starts (findBlockGroup ctx' i) <= i
           < at_ 0 starts (findBlockGroup ctx' i + 1)).
Proof.
  intros Hn Hrun. cbv zeta.
  pose proof (partition_inv ctx ctx' Hn Hrun) as Hinv. cbv zeta in Hinv.
  destruct Hinv as (HG & Hb & Hper & Hcover & Hlen & Hat).
  set (n := num_blocks ctx) in *. set (G := Z.max 2 ((n + 3) / 4)) in *.
  set (per := (n + G - 1) / G) in *. rewrite HG.
  split_and!; [lia|done|done| | | |].
  - rewrite Hat by lia. lia.
  - rewrite Hat by lia. lia.
  - intros g Hg. rewrite !Hat by lia. nia.
  - intros i Hi. unfold findBlockGroup. rewrite HG.
    destruct (List.find _ (seqZ 0 G)) as [g|] eqn:Hfind.
    + apply List.find_some in Hfind as [Hin Hp].
      apply list_elem_of_In, elem_of_seqZ in Hin.
      apply andb_true_iff in Hp as [Hlo Hhi].
      apply Z.leb_le in Hlo. apply Z.ltb_lt in Hhi. lia.
    + exfalso. pose proof (List.find_none _ _ Hfind (i / per)) as Hnone.
      assert (Hq : per * (i / per) <= i < per * (i / per) + per).
      { pose proof (Z.mul_div_le i per ltac:(lia)).
        pose proof (Z.mul_succ_div_gt i per ltac:(lia)). lia. }
      assert (Hg : 0 <= i / per < G).
      { split; [apply Z.div_pos; lia|]. apply Z.div_lt_upper_bound; lia. }
      assert (Hin : In (i / per) (seqZ 0 G))
        by (apply list_elem_of_In, elem_of_seqZ; lia).
      specialize (Hnone Hin). cbv beta in Hnone. rewrite !Hat in Hnone by lia.
      apply andb_false_iff in Hnone as [Hf|Hf];
        [apply Z.leb_gt in Hf|apply Z.ltb_ge in Hf]; nia.
Qed.

End Groups.

(** [less_than] after [partitionBlocksIntoGroups]. *)
Lemma groups_partition_blocks_witness :
  exists ctx',
    (1 <= num_blocks less_than_blocks
     /\ partitionBlocksIntoGroups less_than_blocks = (Some tt, ctx'))
    /\ group_starts ctx' = [0; 2; 4]
    /\ findBlockGroup ctx' 3 = 1
    /\ at_ 0 (group_starts ctx') (num_groups ctx') = num_blocks less_than_blocks.
Proof.
  eexists. split; [split; [vm_compute; discriminate|vm_compute; reflexivity]|].
  match goal with |- group_starts ?c = _ /\ _ =>
    assert (Hrun : partitionBlocksIntoGroups less_than_blocks = (Some tt, c))
      by (vm_compute; reflexivity)
  end.
  assert (Hn : 1 <= num_blocks less_than_blocks) by (vm_compute; discriminate).
  pose proof (groups_partition_blocks _ _ Hn Hrun) as (_ & _ & _ & _ & Hend & _).
  split; [reflexivity|]. split; [reflexivity|exact Hend].
Defined.

(** ** The opcode maps of the VM layer *)

Lemma random_opcode_map_spec (n : nat) : forall r,
  length (random_opcode_map n r) = n
  /\ Forall (fun v => 0 <= v < VM_OP_COUNT) (random_opcode_map n r).
Proof.
  induction n as [|n IH]; intros r; simpl; [done|].
  destruct (IH (NEXT_RAND r)) as [Hl Hf]. split; [by rewrite Hl|].
  constructor; [|done]. apply Z.mod_pos_bound. done.
Qed.

Lemma crowded_list_repeats (l : list Z) (bound : Z) :
  0 <= bound ->
  Forall (fun v => 0 <= v < bound) l -> bound < Z.of_nat (length l) -> ~ NoDup l.
Proof.
  intros Hb Hf Hlen Hnd.
  assert (Hsub : l ⊆+ seqZ 0 bound).
  { apply NoDup_submseteq; [done|]. intros v Hv.
    rewrite Forall_forall in Hf. apply elem_of_seqZ. specialize (Hf v Hv). cbv beta in Hf. lia. }
  apply submseteq_length in Hsub. rewrite length_seqZ in Hsub. lia.
Qed.

Lemma build_reverse_map_spec (omap : list Z) : forall rev i0,
  Z.of_nat (length rev) = VM_OP_COUNT ->
  Forall (fun v => 0 <= v < VM_OP_COUNT) omap ->
  length (build_reverse_map rev i0 omap) = length rev
  /\ forall v, 0 <= v < VM_OP_COUNT ->
       at_ (-1) (build_reverse_map rev i0 omap) v = at_ (-1) rev v /\ v ∉ omap
       \/ exists j : nat,
            omap !! j = Some v
            /\ at_ (-1) (build_reverse_map rev i0 omap) v = i0 + Z.of_nat j
            /\ forall j' : nat, (j < j')%nat -> omap !! j' <> Some v.
Proof.
  induction omap as [|v0 omap IH]; intros rev i0 Hlen Hf; simpl.
  - split; [done|]. intros v Hv. left. split; [done|]. apply not_elem_of_nil.
  - apply Forall_cons in Hf as [Hv0 Hf].
    replace ((0 <=? v0) && (v0 <? VM_OP_COUNT)) with true
      by (symmetry; apply andb_true_iff; split; [apply Z.leb_le|apply Z.ltb_lt]; lia).
    destruct (IH (upd rev v0 i0) (i0 + 1) ltac:(by rewrite length_upd) Hf) as [Hl Hspec].
    split; [by rewrite Hl, length_upd|].
    intros v Hv. destruct (Hspec v Hv) as [[Hat Hni]|(j & Hj & Hat & Hlast)].
    + destruct (Z.eq_dec v0 v) as [->|Hne].
      * right. exists 0%nat. split_and!; [done| |].
        -- rewrite Hat, at_upd_same by lia. lia.
        -- intros [|j'] Hj' Heq; [lia|]. simpl in Heq. apply Hni.
           by eapply list_elem_of_lookup_2.
      * left. split; [by rewrite Hat, at_upd_other|].
        apply not_elem_of_cons. split; [congruence|done].
    + right. exists (S j). split_and!; [done|lia|].
      intros [|j'] Hj'; [lia|]. simpl. apply Hlast. lia.
Qed.

Lemma initVMContext_inv (L L' : lua_State) (f : Proto) (sd : Z)
    (o : option VMProtectContext) :
  luaO_initVMContext L f sd = (o, L') ->
  match o with
  | Some ctx =>
    allocs L = (3 + allocs L')%nat /\ vmc_L ctx = L' /\ vmc_f ctx = f
    /\ vm_code ctx = [] /\ encrypt_key ctx = vm_encrypt_key sd
    /\ opcode_map ctx
       = random_opcode_map (Z.to_nat NUM_OPCODES) (Z.lxor sd 0xDEADBEEF)
    /\ reverse_map ctx
       = build_reverse_map (replicate (Z.to_nat VM_OP_COUNT) (-1)) 0 (opcode_map ctx)
  | None => (allocs L < 3)%nat
  end.
Proof.
  unfold luaO_initVMContext, luaM_malloc_. cbv zeta.
  destruct (allocs L) as [|n1] eqn:Ha.
  { intros Heq. injection Heq as <- <-. lia. }
  cbn [allocs set_allocs].
  destruct n1 as [|n2].
  { intros Heq. injection Heq as <- <-. lia. }
  destruct n2 as [|n3].
  { intros Heq. injection Heq as <- <-. lia. }
  intros Heq.
  pose proof (f_equal fst Heq) as Ho. pose proof (f_equal snd Heq) as HL.
  cbn [fst snd] in Ho, HL. subst o L'.
  cbn [allocs set_allocs vmc_L vmc_f vm_code encrypt_key opcode_map reverse_map].
  split; [lia|]. repeat (split; [reflexivity|]). reflexivity.
Qed.

(** X20. [luaO_initVMContext] succeeds only when the allocator grants
    three requests. The opcode map it draws sends each of the 102 Lua
    opcodes to one of the 47 VM opcodes ([0] to [46]); hence, whatever
    the seed, two Lua opcodes share a VM opcode and the map cannot be
    inverted. *)
Theorem opcode_map_never_injective (L L' : lua_State) (f : Proto) (sd : Z)
    (ctx : VMProtectContext) :
  luaO_initVMContext L f sd = (Some ctx, L') ->
  (3 <= allocs L)%nat
  /\ length (opcode_map ctx) = 102%nat
  /\ Forall (fun v => 0 <= v < 47) (opcode_map ctx)
  /\ ~ NoDup (opcode_map ctx)
  /\ vm_code ctx = [].
Proof.
  intros Hinit. apply initVMContext_inv in Hinit as (Ha & _ & _ & Hc & _ & Hom & _).
  destruct (random_opcode_map_spec (Z.to_nat NUM_OPCODES) (Z.lxor sd 0xDEADBEEF))
    as [Hlen Hf].
  rewrite <- Hom in Hlen, Hf.
  split_and!; [lia|exact Hlen|exact Hf| |done].
  apply (crowded_list_repeats _ 47); [lia|exact Hf|]. rewrite Hlen. vm_compute. done.
Qed.

(** The opcode map drawn for the seed [7]. *)
Lemma opcode_map_never_injective_witness :
  exists ctx,
    luaO_initVMContext ample_state less_than 7 = (Some ctx, set_allocs 61 ample_state)
    /\ ~ NoDup (opcode_map ctx).
Proof.
  eexists. split; [vm_compute; reflexivity|].
  match goal with |- ~ NoDup (opcode_map ?c) =>
    assert (Hinit : luaO_initVMContext ample_state less_than 7
                    = (Some c, set_allocs 61 ample_state)) by (vm_compute; reflexivity)
  end.
  exact (proj1 (proj2 (proj2 (proj2 (opcode_map_never_injective _ _ _ _ _ Hinit))))).
Defined.

(** X21. In the context [luaO_initVMContext] makes, the reverse map sends
    the VM opcode of every Lua opcode back to a Lua opcode that has
    this VM opcode, the last of them: it is a one-sided inverse of the
    opcode map, and a VM opcode no Lua opcode was sent to keeps the
    mark [-1]. *)
Theorem reverse_map_picks_last_preimage (L L' : lua_State) (f : Proto) (sd : Z)
    (ctx : VMProtectContext) :
  luaO_initVMContext L f sd = (Some ctx, L') ->
  length (reverse_map ctx) = 47%nat
  /\ (forall (i : nat) v,
        opcode_map ctx !! i = Some v ->
        exists j : nat,
          at_ (-1) (reverse_map ctx) v = Z.of_nat j /\ (i <= j)%nat
          /\ opcode_map ctx !! j = Some v
          /\ forall j' : nat, (j < j')%nat -> opcode_map ctx !! j' <> Some v)
  /\ (forall v, 0 <= v < 47 -> v ∉ opcode_map ctx ->
        at_ (-1) (reverse_map ctx) v = -1).
Proof.
  intros Hinit. apply initVMContext_inv in Hinit as (_ & _ & _ & _ & _ & Hom & Hrm).
  destruct (random_opcode_map_spec (Z.to_nat NUM_OPCODES) (Z.lxor sd 0xDEADBEEF))
    as [_ Hf].
  rewrite <- Hom in Hf.
  destruct (build_reverse_map_spec (opcode_map ctx)
              (replicate (Z.to_nat VM_OP_COUNT) (-1)) 0
              ltac:(by rewrite length_replicate) Hf) as [Hlen Hspec].
  rewrite <- Hrm in Hlen, Hspec. rewrite length_replicate in Hlen.
  split_and!; [exact Hlen| |].
  - intros i v Hi.
    assert (Hv : 0 <= v < VM_OP_COUNT).
    { rewrite Forall_lookup in Hf. exact (Hf i v Hi). }
    destruct (Hspec v Hv) as [[_ Hni]|(j & Hj & Hat & Hlast)].
    + exfalso. apply Hni. by eapply list_elem_of_lookup_2.
    + exists j. split_and!; [lia| |done|done].
      destruct (Nat.le_gt_cases i j) as [|Hlt]; [done|].
      exfalso. by apply (Hlast i Hlt).
  - intros v Hv Hni. destruct (Hspec v Hv) as [[Hat _]|(j & Hj & _)].
    + rewrite Hat. apply at_lookup; [lia|]. apply lookup_replicate_2.
      unfold VM_OP_COUNT. lia.
    + exfalso. apply Hni. by eapply list_elem_of_lookup_2.
Qed.

(** The reverse map built for the seed [7]. *)
Lemma reverse_map_witness :
  exists ctx,
    luaO_initVMContext ample_state less_than 7 = (Some ctx, set_allocs 61 ample_state)
    /\ length (reverse_map ctx) = 47%nat.
Proof.
  eexists. split; [vm_compute; reflexivity|].
  match goal with |- length (reverse_map ?c) = _ =>
    assert (Hinit : luaO_initVMContext ample_state less_than 7
                    = (Some c, set_allocs 61 ample_state)) by (vm_compute; reflexivity)
  end.
  exact (proj1 (reverse_map_picks_last_preimage _ _ _ _ _ Hinit)).
Defined.
